(** * festlist: artist extraction, reconciliation and catalog matching

    A shallow embedding of the extraction-and-merge core of the festlist
    backend:

    - [backend/app/services/artist_extraction_service.py]
      ([clean_text], [extract_with_patterns], [calculate_pattern_confidence],
      [extract_with_vertex_ai], [extract_with_gemini], [extract_artists]);
    - [backend/app/services/gemini_service.py]
      ([_parse_gemini_response], [_is_likely_artist_name],
      [extract_artists_from_text], [extract_artists_from_image]);
    - [backend/app/services/spotify_service.py]
      ([calculate_artist_match_score], [search_artist],
      [get_artist_top_tracks], [create_playlist], [add_tracks_to_playlist],
      [process_artists_to_playlist]).

    Data is modelled as the program has it.  A Python [str] is a [string]
    whose characters are the code points U+0000..U+00FF, classified as
    CPython classifies them; a Python [float] is a binary64 [float] of the
    kernel, so that sums such as [0.5 + 0.2 + 0.1] round exactly as they
    do in the program; a Python [int] is a [Z]; the artist dictionaries
    are records; the insertion-ordered [dict] of the merge is an
    association list updated in place; the regular expressions are terms
    of a small syntax run by a backtracking matcher with the priorities of
    Python's [re]. *)

From Stdlib Require Import Bool Arith Lia ZArith List Ascii String.
From Stdlib Require Import Permutation Sorted Floats DecimalString.
Import ListNotations.

Set Warnings "-inexact-float,-register-all".

#[local] Open Scope string_scope.
#[local] Open Scope list_scope.

(* ================================================================= *)
(** * Characters and strings of Python *)

Module PyStr.

Definition code (c : ascii) : nat := nat_of_ascii c.

Definition between (lo hi : nat) (c : ascii) : bool :=
  (lo <=? code c)%nat && (code c <=? hi)%nat.

Definition is_code (n : nat) (c : ascii) : bool := (code c =? n)%nat.

(** [str.isspace] / [\s]: TAB..CR, FS..US, SPACE, NEL, NBSP. *)
Definition isspace (c : ascii) : bool :=
  between 9 13 c || between 28 32 c || is_code 133 c || is_code 160 c.

(** [\d] (decimal digits) in a [str] pattern. *)
Definition isdecimal (c : ascii) : bool := between 48 57 c.

(** [str.isdigit]: the decimal digits and the superscripts 2, 3, 1. *)
Definition isdigit (c : ascii) : bool :=
  isdecimal c || is_code 178 c || is_code 179 c || is_code 185 c.

Definition ascii_upper (c : ascii) : bool := between 65 90 c.
Definition ascii_lower (c : ascii) : bool := between 97 122 c.

(** [str.isupper] on one character. *)
Definition isupper (c : ascii) : bool :=
  ascii_upper c || between 192 214 c || between 216 222 c.

(** [str.islower] on one character (feminine and masculine ordinal
    indicators and the micro sign are lowercase). *)
Definition islower (c : ascii) : bool :=
  ascii_lower c || is_code 170 c || is_code 181 c || is_code 186 c
  || between 223 246 c || between 248 255 c.

(** [\w]: alphanumeric (alphabetic, decimal, digit or numeric) or [_]. *)
Definition isword (c : ascii) : bool :=
  ascii_upper c || ascii_lower c || isdecimal c || is_code 95 c
  || is_code 170 c || is_code 178 c || is_code 179 c || is_code 181 c
  || is_code 185 c || is_code 186 c || between 188 190 c
  || between 192 214 c || between 216 246 c || between 248 255 c.

Definition lower_char (c : ascii) : ascii :=
  if isupper c then ascii_of_nat (code c + 32) else c.

(** [s.lower()] *)
Fixpoint lower (s : string) : string :=
  match s with
  | EmptyString => EmptyString
  | String c s' => String (lower_char c) (lower s')
  end.

(** [s.lstrip()] *)
Fixpoint lstrip (s : string) : string :=
  match s with
  | EmptyString => EmptyString
  | String c s' => if isspace c then lstrip s' else s
  end.

(** [s.rstrip()] *)
Fixpoint rstrip (s : string) : string :=
  match s with
  | EmptyString => EmptyString
  | String c s' =>
      match rstrip s' with
      | EmptyString => if isspace c then EmptyString else String c EmptyString
      | r => String c r
      end
  end.

(** [s.strip()] *)
Definition strip (s : string) : string := rstrip (lstrip s).

(** [s.split()]: the maximal runs of non-whitespace characters.
    [cur] is the word being read, in reverse. *)
Fixpoint rev_string (acc s : string) : string :=
  match s with
  | EmptyString => acc
  | String c s' => rev_string (String c acc) s'
  end.

Definition flush (cur : string) : list string :=
  match cur with
  | EmptyString => []
  | _ => [rev_string EmptyString cur]
  end.

Fixpoint split_ws_aux (cur : string) (s : string) : list string :=
  match s with
  | EmptyString => flush cur
  | String c s' =>
      if isspace c then flush cur ++ split_ws_aux EmptyString s'
      else split_ws_aux (String c cur) s'
  end.

Definition split (s : string) : list string := split_ws_aux EmptyString s.

(** [s.split(sep)] for a one-character separator: empty pieces are kept. *)
Fixpoint split_on_aux (sep : ascii) (cur : string) (s : string) : list string :=
  match s with
  | EmptyString => [rev_string EmptyString cur]
  | String c s' =>
      if Ascii.eqb c sep then
        rev_string EmptyString cur :: split_on_aux sep EmptyString s'
      else split_on_aux sep (String c cur) s'
  end.

Definition split_on (sep : ascii) (s : string) : list string :=
  split_on_aux sep EmptyString s.

Definition newline : ascii := ascii_of_nat 10.

(** [sub in s] *)
Fixpoint contains (sub s : string) : bool :=
  String.prefix sub s
  || match s with
     | EmptyString => false
     | String _ s' => contains sub s'
     end.

(** [s.count(sub)]: the non-overlapping occurrences of [sub], scanned from
    the left; [skip] characters of the last occurrence are still to be
    passed.  An empty [sub] occurs [len(s) + 1] times. *)
Fixpoint count_aux (sub : string) (s : string) (skip : nat) : Z :=
  match s with
  | EmptyString => 0
  | String _ s' =>
      match skip with
      | S n => count_aux sub s' n
      | O =>
          if String.prefix sub s
          then (1 + count_aux sub s' (String.length sub - 1))%Z
          else count_aux sub s' 0
      end
  end.

Definition count (s sub : string) : Z :=
  match sub with
  | EmptyString => Z.of_nat (String.length s) + 1
  | _ => count_aux sub s 0
  end.

(** [any(p(c) for c in s)] *)
Fixpoint any_char (p : ascii -> bool) (s : string) : bool :=
  match s with
  | EmptyString => false
  | String c s' => p c || any_char p s'
  end.

(** [c in s] as a proposition, for the statements. *)
Fixpoint has_char (c : ascii) (s : string) : Prop :=
  match s with
  | EmptyString => False
  | String d s' => d = c \/ has_char c s'
  end.

(** [word in words] for a collection of strings. *)
Definition mem (w : string) (ws : list string) : bool :=
  existsb (String.eqb w) ws.

End PyStr.

(* ================================================================= *)
(** * Regular expressions: the fragment of [re] the services use *)

Module Re.

Import PyStr.

Inductive regex : Type :=
| Eps : regex
| Chr : (ascii -> bool) -> regex                 (* a character class *)
| Seq : regex -> regex -> regex
| Alt : regex -> regex -> regex
| Rep : bool -> nat -> option nat -> regex -> regex
    (* [Rep greedy lo hi r] is r{lo,hi}; [hi = None] is unbounded *)
| WordB : regex.                                 (* \b *)

(** A continuation receives the character before the current position
    and the rest of the subject; it answers with what is left of the
    subject once the whole pattern has matched. *)
Definition cont : Type := option ascii -> string -> option string.

Definition matcher : Type := option ascii -> string -> cont -> option string.

Definition orelse (a : option string) (b : unit -> option string) : option string :=
  match a with
  | Some x => Some x
  | None => b tt
  end.

Definition word_at (c : option ascii) : bool :=
  match c with
  | Some c => isword c
  | None => false
  end.

Definition head (s : string) : option ascii :=
  match s with
  | EmptyString => None
  | String c _ => Some c
  end.

Definition may_iterate (hi : option nat) : bool :=
  match hi with
  | Some O => false
  | _ => true
  end.

Definition dec (hi : option nat) : option nat :=
  match hi with
  | Some n => Some (pred n)
  | None => None
  end.

(** Repetition with backtracking.  One more iteration must consume input
    unless it is still owed ([lo > 0]); [fuel] bounds the iterations and
    is set to [lo + length s] by the caller, which an iteration sequence
    cannot exceed. *)
Fixpoint rep (step : matcher) (greedy : bool) (fuel lo : nat) (hi : option nat)
    (prev : option ascii) (s : string) (k : cont) : option string :=
  let more (_ : unit) :=
    match fuel with
    | O => None
    | S fuel' =>
        if may_iterate hi then
          step prev s (fun prev' s' =>
            if (String.length s' <? String.length s)%nat || (0 <? lo)%nat
            then rep step greedy fuel' (pred lo) (dec hi) prev' s' k
            else None)
        else None
    end in
  let stop (_ : unit) := if (lo =? 0)%nat then k prev s else None in
  if greedy then orelse (more tt) stop else orelse (stop tt) more.

Fixpoint run (r : regex) : matcher :=
  fun prev s k =>
  match r with
  | Eps => k prev s
  | Chr p =>
      match s with
      | String c s' => if p c then k (Some c) s' else None
      | EmptyString => None
      end
  | Seq r1 r2 => run r1 prev s (fun prev' s' => run r2 prev' s' k)
  | Alt r1 r2 => orelse (run r1 prev s k) (fun _ => run r2 prev s k)
  | Rep greedy lo hi r1 =>
      rep (run r1) greedy (lo + String.length s) lo hi prev s k
  | WordB =>
      if xorb (word_at prev) (word_at (head s)) then k prev s else None
  end.

(** The length of the match of [r] starting here, if there is one. *)
Definition match_len (r : regex) (prev : option ascii) (s : string) : option nat :=
  match run r prev s (fun _ rest => Some rest) with
  | Some rest => Some (String.length s - String.length rest)
  | None => None
  end.

(** [re.match(r, s)] as a test. *)
Definition matches_at_start (r : regex) (s : string) : bool :=
  match match_len r None s with
  | Some _ => true
  | None => false
  end.

(** [re.sub(r, repl, s)]: scan from the left; [skip] characters of the
    last match are still to be passed over. *)
Fixpoint sub_aux (r : regex) (repl : string) (prev : option ascii)
    (s : string) (skip : nat) : string :=
  match s with
  | EmptyString =>
      match skip, match_len r prev EmptyString with
      | O, Some _ => repl
      | _, _ => EmptyString
      end
  | String c s' =>
      match skip with
      | S n => sub_aux r repl (Some c) s' n
      | O =>
          match match_len r prev s with
          | Some O => repl ++ String c (sub_aux r repl (Some c) s' 0)
          | Some (S n) => repl ++ sub_aux r repl (Some c) s' n
          | None => String c (sub_aux r repl (Some c) s' 0)
          end
      end
  end.

Definition sub (r : regex) (repl s : string) : string :=
  sub_aux r repl None s 0.

(** [re.findall(r, s)] for a pattern without capturing groups. *)
Fixpoint findall_aux (r : regex) (prev : option ascii) (s : string)
    (skip : nat) : list string :=
  match s with
  | EmptyString =>
      match skip, match_len r prev EmptyString with
      | O, Some _ => [EmptyString]
      | _, _ => []
      end
  | String c s' =>
      match skip with
      | S n => findall_aux r (Some c) s' n
      | O =>
          match match_len r prev s with
          | Some O => EmptyString :: findall_aux r (Some c) s' 0
          | Some (S n) => String.substring 0 (S n) s :: findall_aux r (Some c) s' n
          | None => findall_aux r (Some c) s' 0
          end
      end
  end.

Definition findall (r : regex) (s : string) : list string :=
  findall_aux r None s 0.

(** [re.search(r, s)]: [m.group()] of the leftmost match. *)
Fixpoint search_aux (r : regex) (prev : option ascii) (s : string) : option string :=
  match match_len r prev s with
  | Some n => Some (String.substring 0 n s)
  | None =>
      match s with
      | EmptyString => None
      | String c s' => search_aux r (Some c) s'
      end
  end.

Definition search (r : regex) (s : string) : option string :=
  search_aux r None s.

(** ** Pattern syntax *)

Definition chr (c : string) : regex :=
  match c with
  | String a EmptyString => Chr (Ascii.eqb a)
  | _ => Eps
  end.

Definition one_of (cs : string) : regex :=
  Chr (fun c => any_char (Ascii.eqb c) cs).

Definition any : regex := Chr (fun _ => true).           (* . with DOTALL *)
Definition space : regex := Chr isspace.                 (* \s *)
Definition nonspace : regex := Chr (fun c => negb (isspace c)). (* \S *)
Definition digit : regex := Chr isdecimal.               (* \d *)
Definition upper : regex := Chr ascii_upper.             (* [A-Z] *)
Definition lowercase : regex := Chr ascii_lower.         (* [a-z] *)

Definition plus (r : regex) : regex := Rep true 1 None r.        (* r+ *)
Definition star (r : regex) : regex := Rep true 0 None r.        (* r* *)
Definition lazy_star (r : regex) : regex := Rep false 0 None r.  (* r*? *)
Definition times (lo hi : nat) (r : regex) : regex := Rep true lo (Some hi) r.

Fixpoint lit (s : string) : regex :=
  match s with
  | EmptyString => Eps
  | String c s' => Seq (Chr (Ascii.eqb c)) (lit s')
  end.

Fixpoint seq (rs : list regex) : regex :=
  match rs with
  | [] => Eps
  | [r] => r
  | r :: rs' => Seq r (seq rs')
  end.

End Re.

(* ================================================================= *)
(** * Floats, integers and exceptions of Python *)

Module Py.

(** The exceptions the modelled code can meet. [ExternalError] stands for
    whatever a remote call raises (transport, quota, blocked response). *)
Inductive pyexc : Type :=
| JSONDecodeError | AttributeError | TypeError | ValueError
| OverflowError | IndexError | ExternalError.

Inductive exc (A : Type) : Type :=
| Return (a : A)
| Raise (e : pyexc).

Arguments Return {A} a.
Arguments Raise {A} e.

Definition bind {A B : Type} (m : exc A) (f : A -> exc B) : exc B :=
  match m with
  | Return a => f a
  | Raise e => Raise e
  end.

(** [try: body  except Exception: handler] *)
Definition try_except {A : Type} (body : exc A) (handler : pyexc -> exc A) : exc A :=
  match body with
  | Return a => Return a
  | Raise e => handler e
  end.

(** A loop that extends a result list, one iteration after the other;
    the first exception leaves the loop. *)
Fixpoint for_each {A B : Type} (f : A -> exc (list B)) (l : list A) : exc (list B) :=
  match l with
  | [] => Return []
  | x :: l' =>
      bind (f x) (fun ys => bind (for_each f l') (fun zs => Return (ys ++ zs)))
  end.

(** [x > y], [x >= y] on floats *)
Definition gt (x y : float) : bool := PrimFloat.ltb y x.
Definition ge (x y : float) : bool := PrimFloat.leb y x.

(** [min(a, b)]: the first argument unless the second is smaller. *)
Definition min (a b : float) : float := if PrimFloat.ltb b a then b else a.

(** [max(a, b)]: the first argument unless the second is greater. *)
Definition max (a b : float) : float := if gt b a then b else a.

(** The binary64 nearest to an integer (ties to even); infinite from
    [2^1024 - 2^970] on. *)
Definition of_int (z : Z) : float :=
  SF2Prim (binary_normalize prec emax z 0 false).

(** [float(n)] for an [int]: [OverflowError] when [n] is out of range. *)
Definition float_of_int (z : Z) : exc float :=
  let f := of_int z in
  if PrimFloat.is_infinity f then Raise OverflowError else Return f.

End Py.

Notation "x <- m ;; k" := (Py.bind m (fun x => k))
  (at level 61, m at next level, right associativity).

(* ================================================================= *)
(** * backend/app/services/artist_extraction_service.py, the pure part *)

(** The artist dictionaries [{"name", "confidence", "method", "context"}]. *)
Record artist : Type := Artist {
  name : string;
  confidence : float;
  method : string;
  context : string
}.

Module Extraction.

Import PyStr Re Py.

(** [self.filter_words] *)
Definition filter_words : list string :=
  [ "festival"; "fest"; "music"; "stage"; "main"; "tent"; "arena"; "hall";
    "presents"; "featuring"; "with"; "special"; "guest"; "guests"; "live";
    "concert"; "show"; "performance"; "event"; "venue"; "location"; "date";
    "time"; "tickets"; "admission"; "price"; "cost"; "age"; "limit"; "door";
    "doors"; "open"; "start"; "end"; "saturday"; "sunday"; "monday"; "tuesday";
    "wednesday"; "thursday"; "friday"; "january"; "february"; "march"; "april";
    "may"; "june"; "july"; "august"; "september"; "october"; "november"; "december";
    "am"; "pm"; "sponsored"; "by"; "presented"; "produced"; "organized" ].

(** [[A-Z][a-z]+] *)
Definition capitalized : regex := Seq upper (plus lowercase).

(** [self.artist_patterns] *)
Definition artist_patterns : list regex :=
  [ (* \b[A-Z][a-z]+(?:\s+[A-Z][a-z]+)*\b *)
    seq [WordB; capitalized; star (Seq (plus space) capitalized); WordB];
    (* \b[A-Z]+\b *)
    seq [WordB; plus upper; WordB];
    (* \b[A-Z][a-z]+(?:\s+&\s+[A-Z][a-z]+)+\b *)
    seq [WordB; capitalized;
         plus (seq [plus space; chr "&"; plus space; capitalized]); WordB];
    (* \b[A-Z][a-z]+(?:\s+and\s+[A-Z][a-z]+)+\b *)
    seq [WordB; capitalized;
         plus (seq [plus space; lit "and"; plus space; capitalized]); WordB] ].

(** The patterns of [clean_text], in the order they are applied. *)
Definition whitespace_re : regex := plus space.                 (* \s+ *)
Definition time_re : regex :=                                   (* \b\d{1,2}[:/]\d{2}\b *)
  seq [WordB; times 1 2 digit; one_of ":/"; times 2 2 digit; WordB].
Definition price_re : regex := Seq (chr "$") (plus digit).      (* \$\d+ *)
Definition date_re : regex :=                                   (* \b\d{1,2}/\d{1,2}/\d{2,4}\b *)
  seq [WordB; times 1 2 digit; chr "/"; times 1 2 digit; chr "/";
       times 2 4 digit; WordB].
Definition url_re : regex :=                                    (* \bwww\.\S+\b *)
  seq [WordB; lit "www."; plus nonspace; WordB].
Definition email_re : regex :=                                  (* \b\S+@\S+\.\S+\b *)
  seq [WordB; plus nonspace; chr "@"; plus nonspace; chr ".";
       plus nonspace; WordB].

(** The first statement of [clean_text]. *)
Definition collapse_whitespace (text : string) : string :=
  sub whitespace_re " " (strip text).

(** The five removal statements of [clean_text]. *)
Definition remove_noise (text : string) : string :=
  let text := sub time_re "" text in
  let text := sub price_re "" text in
  let text := sub date_re "" text in
  let text := sub url_re "" text in
  sub email_re "" text.

Definition clean_text (text : string) : string :=
  strip (remove_noise (collapse_whitespace text)).

(** [match[0].isupper() and any(c.islower() for c in match[1:])];
    [match[0]] raises on an empty match. *)
Definition proper_capitalization (m : string) : exc bool :=
  match m with
  | EmptyString => Raise IndexError
  | String c rest => Return (isupper c && any_char islower rest)
  end.

Definition calculate_pattern_confidence (m line full_text : string) : exc float :=
  let confidence := 0.5%float in
  capitalised <- proper_capitalization m ;;
  let confidence :=
    if capitalised then (confidence + 0.2)%float else confidence in
  let confidence :=
    if String.eqb (strip line) (strip m) then (confidence + 0.3)%float
    else confidence in
  let words := List.length (split m) in
  let confidence :=
    if (3 <=? words)%nat && (words <=? 4)%nat then (confidence + 0.1)%float
    else confidence in
  let confidence :=
    if any_char isdigit m then (confidence - 0.2)%float else confidence in
  let occurrences := count (lower full_text) (lower m) in
  let confidence :=
    if (1 <? occurrences)%Z
    then (confidence + min 0.2 (of_int occurrences * 0.05))%float
    else confidence in
  Return (min 1.0 (max 0.0 confidence)).

(** The body of the innermost loop of [extract_with_patterns]: what one
    match adds to [potential_artists]. *)
Definition consider_match (text line m : string) : exc (list artist) :=
  let words := split (lower m) in
  if existsb (fun word => mem word filter_words) words then Return []
  else if (String.length m <? 2)%nat || (50 <? String.length m)%nat then Return []
  else
    confidence <- calculate_pattern_confidence m line text ;;
    if gt confidence 0.3 then
      Return [ {| name := strip m; confidence := confidence;
                  method := "pattern_matching"; context := strip line |} ]
    else Return [].

Definition consider_line (text line : string) : exc (list artist) :=
  let line := strip line in
  if (String.length line <? 2)%nat then Return []
  else
    for_each (fun pattern => for_each (consider_match text line) (findall pattern line))
             artist_patterns.

(** The first loop of [extract_with_patterns]. *)
Definition potential_artists (text : string) : exc (list artist) :=
  for_each (consider_line text) (split_on newline text).

(** [sorted(l, key=lambda x: x['confidence'], reverse=True)]: the sort is
    stable, also when reversed, so on keys that are totally ordered (no
    NaN, as for every confidence the services produce) its result is that
    of this insertion sort, which moves an entry only past strictly
    greater keys. *)
Fixpoint insert_desc (a : artist) (l : list artist) : list artist :=
  match l with
  | [] => [a]
  | b :: l' =>
      if gt (confidence b) (confidence a) then b :: insert_desc a l'
      else a :: l
  end.

Definition sort_desc (l : list artist) : list artist :=
  fold_right insert_desc [] l.

(** The second loop of [extract_with_patterns]: keep the first entry of
    every lowercased name. *)
Fixpoint unique (seen : list string) (l : list artist) : list artist :=
  match l with
  | [] => []
  | a :: l' =>
      let name_lower := lower (name a) in
      if mem name_lower seen then unique seen l'
      else a :: unique (name_lower :: seen) l'
  end.

Definition extract_with_patterns (text : string) : exc (list artist) :=
  potential <- potential_artists text ;;
  Return (firstn 20 (unique [] (sort_desc potential))).

(** ** The merge of [extract_artists] *)

(** [merged_artists]: a [dict] keeps its keys in insertion order, and an
    assignment to a present key keeps the key's place. *)
Definition dict : Type := list (string * artist).

Fixpoint dict_get (k : string) (d : dict) : option artist :=
  match d with
  | [] => None
  | (k', v) :: d' => if String.eqb k k' then Some v else dict_get k d'
  end.

Fixpoint dict_set (k : string) (v : artist) (d : dict) : dict :=
  match d with
  | [] => [(k, v)]
  | (k', v') :: d' =>
      if String.eqb k k' then (k', v) :: d' else (k', v') :: dict_set k v d'
  end.

Definition values (d : dict) : list artist := map snd d.

(** One iteration of the merge loop. *)
Definition merge_step (merged : dict) (a : artist) : dict :=
  let name_key := lower (name a) in
  match dict_get name_key merged with
  | Some kept =>
      if gt (confidence a) (confidence kept) then dict_set name_key a merged
      else merged
  | None => dict_set name_key a merged
  end.

Definition merge (all_artists : list artist) : dict :=
  fold_left merge_step all_artists [].

(** Lines 281 to 299 of [extract_artists]: merge, filter by the threshold,
    sort by descending confidence. *)
Definition reconcile (all_artists : list artist) (confidence_threshold : float)
    : list artist :=
  let merged_artists := merge all_artists in
  let final_artists :=
    filter (fun a => ge (confidence a) confidence_threshold)
           (values merged_artists) in
  sort_desc final_artists.

End Extraction.

(* ================================================================= *)
(** * What the services call and do not define *)

(** A value of [json.loads]. *)
Inductive json : Type :=
| JNull : json
| JBool : bool -> json
| JInt : Z -> json
| JFloat : float -> json
| JStr : string -> json
| JArr : list json -> json
| JObj : list (string * json) -> json.

(** A hit of the catalog search, [results['artists']['items'][i]]. *)
Record catalog_entry : Type := CatalogEntry {
  entry_id : string;
  entry_name : string;
  genres : list string;
  popularity : Z;
  followers : Z
}.

(** The library functions and remote services the code calls.  Each remote
    call answers with a text or raises; the prompts are fixed texts of the
    source whose wording no property below depends on. *)
Record collaborators : Type := Collaborators {
  (* json.loads: raises JSONDecodeError on a text that is not JSON *)
  json_loads : string -> Py.exc json;
  (* str(v) for a value that is not a str *)
  repr : json -> string;
  (* float(s) for a str: raises ValueError *)
  float_of_str : string -> Py.exc float;
  (* self._create_artist_extraction_prompt(text) *)
  _create_artist_extraction_prompt : string -> string;
  (* self._create_image_analysis_prompt() *)
  _create_image_analysis_prompt : string;
  (* the f-string prompt of extract_with_vertex_ai *)
  vertex_prompt : string -> string;
  (* self.model.generate_content(prompt, ...).text, None read as the empty text *)
  generate_content : string -> Py.exc string;
  (* Image.open(image_path), then self.model.generate_content([prompt, image], ...).text *)
  generate_content_image : string -> string -> Py.exc string;
  (* TextGenerationModel.from_pretrained("text-bison@001").predict(prompt, ...).text *)
  predict : string -> Py.exc string;
  (* self.sp_public.search(q=..., type='artist', limit=10)['artists']['items'] *)
  sp_search : string -> Py.exc (list catalog_entry)
}.

(* ================================================================= *)
(** * Values of [json.loads] as Python sees them *)

Module PyJson.

Import PyStr Py.

(** [d.get(key)] / [key in d] on a parsed object. *)
Fixpoint get (key : string) (fields : list (string * json)) : option json :=
  match fields with
  | [] => None
  | (k, v) :: fields' => if String.eqb key k then Some v else get key fields'
  end.

Fixpoint chars (s : string) : list json :=
  match s with
  | EmptyString => []
  | String c s' => JStr (String c EmptyString) :: chars s'
  end.

(** [for x in v]: the items of a list, the keys of a dict, the characters
    of a str; anything else is not iterable. *)
Definition iterate (v : json) : exc (list json) :=
  match v with
  | JArr l => Return l
  | JObj fields => Return (map (fun kv => JStr (fst kv)) fields)
  | JStr s => Return (chars s)
  | _ => Raise TypeError
  end.

(** [isinstance(v, (int, float))]; [bool] is a subclass of [int]. *)
Definition is_number (v : json) : bool :=
  match v with
  | JBool _ | JInt _ | JFloat _ => true
  | _ => false
  end.

(** [float(v)] *)
Definition to_float (env : collaborators) (v : json) : exc float :=
  match v with
  | JBool b => Return (if b then 1.0 else 0.0)%float
  | JInt z => float_of_int z
  | JFloat f => Return f
  | JStr s => float_of_str env s
  | _ => Raise TypeError
  end.

(** [str(v)] *)
Definition to_str (env : collaborators) (v : json) : string :=
  match v with
  | JStr s => s
  | _ => repr env v
  end.

End PyJson.

(* ================================================================= *)
(** * backend/app/services/gemini_service.py *)

Module Gemini.

Import PyStr Re Py PyJson.

(** [GeminiService]: [self.model] is set only when the package and the API
    key are there and the client could be built. *)
Record GeminiService : Type := { model_is_set : bool }.

Definition is_available (self : GeminiService) : bool := model_is_set self.

Definition excluded_terms : list string :=
  [ "festival"; "music"; "stage"; "main"; "tent"; "area"; "zone";
    "tickets"; "price"; "cost"; "free"; "admission"; "entry";
    "food"; "drinks"; "bar"; "restaurant"; "vendor";
    "parking"; "shuttle"; "transport"; "bus";
    "saturday"; "sunday"; "monday"; "tuesday"; "wednesday"; "thursday"; "friday";
    "january"; "february"; "march"; "april"; "may"; "june";
    "july"; "august"; "september"; "october"; "november"; "december";
    "am"; "pm"; "time"; "schedule"; "lineup";
    "sponsored"; "presents"; "featuring"; "with" ].

Definition clock_re : regex :=                   (* ^\d{1,2}:\d{2} *)
  seq [times 1 2 digit; chr ":"; times 2 2 digit].
Definition meridiem_re : regex :=                (* ^\d{1,2}(am|pm) *)
  seq [times 1 2 digit; Alt (lit "am") (lit "pm")].
Definition dollars_re : regex :=                 (* ^\$\d+ *)
  Seq (chr "$") (plus digit).

Definition _is_likely_artist_name (name : string) : bool :=
  let name_lower := strip (lower name) in
  if (String.length name <? 2)%nat || mem name_lower excluded_terms then false
  else if matches_at_start clock_re name || matches_at_start meridiem_re name_lower
  then false
  else if matches_at_start dollars_re name || contains "dollar" name_lower
  then false
  else true.

(** [\[.*?\]] with [re.DOTALL] *)
Definition first_bracket_re : regex := seq [chr "["; lazy_star any; chr "]"].

(** The body of the loop of [_parse_gemini_response]. *)
Definition gemini_entry (env : collaborators) (entry : json) : exc (list artist) :=
  match entry with
  | JObj fields =>
      name <- match get "name" fields with
              | None => Return (strip "")
              | Some (JStr s) => Return (strip s)
              | Some _ => Raise AttributeError
              end ;;
      let confidence :=
        match get "confidence" fields with
        | None => JFloat 0.0
        | Some v => v
        end in
      if String.eqb name "" || negb (is_number confidence) then Return []
      else
        f <- to_float env confidence ;;
        let confidence := max 0.0 (min 1.0 f) in
        if _is_likely_artist_name name then
          Return [ {| name := name; confidence := confidence;
                      method := "gemini"; context := "" |} ]
        else Return []
  | _ => Return []
  end.

(** The [try] block of [_parse_gemini_response]. *)
Definition parse_body (env : collaborators) (response_text : string)
    : exc (list artist) :=
  let cleaned_text := strip response_text in
  match search first_bracket_re cleaned_text with
  | None => Return []
  | Some json_str =>
      artists_data <- json_loads env json_str ;;
      entries <- iterate artists_data ;;
      for_each (gemini_entry env) entries
  end.

Definition _parse_gemini_response (env : collaborators) (response_text : string)
    : exc (list artist) :=
  try_except (parse_body env response_text) (fun _ => Return []).

(** What follows the model call in both extraction methods:
    [if response.text: return self._parse_gemini_response(response.text)]. *)
Definition read_response (env : collaborators) (response_text : string)
    : exc (list artist) :=
  match response_text with
  | EmptyString => Return []
  | _ => _parse_gemini_response env response_text
  end.

Definition extract_artists_from_text (env : collaborators) (self : GeminiService)
    (text : string) : exc (list artist) :=
  if negb (is_available self) then Return []
  else
    try_except
      (let prompt := _create_artist_extraction_prompt env text in
       response_text <- generate_content env prompt ;;
       read_response env response_text)
      (fun _ => Return []).

Definition extract_artists_from_image (env : collaborators) (self : GeminiService)
    (image_path : string) : exc (list artist) :=
  if negb (is_available self) then Return []
  else
    try_except
      (let prompt := _create_image_analysis_prompt env in
       response_text <- generate_content_image env prompt image_path ;;
       read_response env response_text)
      (fun _ => Return []).

End Gemini.

(* ================================================================= *)
(** * backend/app/services/artist_extraction_service.py, the AI part *)

Module Service.

Import PyStr Re Py PyJson Extraction.

Record ArtistExtractionService : Type := {
  project_id : option string;
  gemini_service : Gemini.GeminiService
}.

(** [not self.project_id] *)
Definition no_project (self : ArtistExtractionService) : bool :=
  match project_id self with
  | None | Some EmptyString => true
  | Some _ => false
  end.

(** [\[.*\]] with [re.DOTALL] *)
Definition bracket_re : regex := seq [chr "["; star any; chr "]"].

(** The body of the loop of [extract_with_vertex_ai]. *)
Definition vertex_entry (env : collaborators) (entry : json) : exc (list artist) :=
  match entry with
  | JObj fields =>
      match get "name" fields, get "confidence" fields with
      | Some n, Some c =>
          let name := strip (to_str env n) in
          confidence <- to_float env c ;;
          if negb (String.eqb name "")
             && PrimFloat.leb 0 confidence && PrimFloat.leb confidence 1
          then
            Return [ {| name := name; confidence := confidence;
                        method := "vertex_ai"; context := "" |} ]
          else Return []
      | _, _ => Return []
      end
  | _ => Return []
  end.

(** The [try] block of [extract_with_vertex_ai]; without a bracketed text
    control reaches the final [return []]. *)
Definition vertex_body (env : collaborators) (text : string) : exc (list artist) :=
  response_text <- predict env (vertex_prompt env text) ;;
  let response_text := strip response_text in
  match search bracket_re response_text with
  | Some json_str =>
      artists_data <- json_loads env json_str ;;
      entries <- iterate artists_data ;;
      for_each (vertex_entry env) entries
  | None => Return []
  end.

Definition extract_with_vertex_ai (env : collaborators)
    (self : ArtistExtractionService) (text : string) : exc (list artist) :=
  if no_project self then Return []
  else try_except (vertex_body env text) (fun _ => Return []).

Definition extract_with_gemini (env : collaborators)
    (self : ArtistExtractionService) (text : string) : exc (list artist) :=
  if negb (Gemini.is_available (gemini_service self)) then Return []
  else
    try_except
      (Gemini.extract_artists_from_text env (gemini_service self) text)
      (fun _ => Return []).

(** The dictionary [extract_artists] returns. *)
Record extraction : Type := {
  artists : list artist;
  total_found : nat;
  method_used : string;
  pattern_results : nat;
  ai_results : nat
}.

Definition is_empty {A : Type} (l : list A) : bool :=
  match l with
  | [] => true
  | _ => false
  end.

Definition extract_artists (env : collaborators) (self : ArtistExtractionService)
    (text : string) (use_ai : bool) (confidence_threshold : float)
    : exc extraction :=
  let cleaned_text := clean_text text in
  pattern_artists <- extract_with_patterns cleaned_text ;;
  ai_artists <-
    (if use_ai then
       ai_artists <- extract_with_gemini env self cleaned_text ;;
       if is_empty ai_artists then extract_with_vertex_ai env self cleaned_text
       else Return ai_artists
     else Return []) ;;
  let all_artists := pattern_artists ++ ai_artists in
  let final_artists := reconcile all_artists confidence_threshold in
  Return {| artists := final_artists;
            total_found := List.length final_artists;
            method_used := if use_ai && negb (is_empty ai_artists)
                           then "combined" else "pattern_matching";
            pattern_results := List.length pattern_artists;
            ai_results := List.length ai_artists |}.

End Service.

(* ================================================================= *)
(** * backend/app/services/spotify_service.py *)

Module Spotify.

Import PyStr Py.

(** [set(words)] *)
Definition set_of (words : list string) : list string :=
  nodup string_dec words.

Definition intersection (a b : list string) : list string :=
  filter (fun w => mem w b) a.

Definition union (a b : list string) : list string :=
  a ++ filter (fun w => negb (mem w a)) b.

Definition calculate_artist_match_score (search_name found_name : string) : float :=
  let search_lower := strip (lower search_name) in
  let found_lower := strip (lower found_name) in
  if String.eqb search_lower found_lower then 1.0%float
  else if contains search_lower found_lower || contains found_lower search_lower
  then 0.9%float
  else
    let search_words := set_of (split search_lower) in
    let found_words := set_of (split found_lower) in
    match search_words, found_words with
    | [], _ | _, [] => 0.0%float
    | _, _ =>
        let overlap := Z.of_nat (List.length (intersection search_words found_words)) in
        let total := Z.of_nat (List.length (union search_words found_words)) in
        if (0 <? total)%Z then (of_int overlap / of_int total)%float
        else 0.0%float
    end.

(** The [for artist in artists] loop of [search_artist], from
    [best_match = None] and [best_score = 0]. *)
Fixpoint best_of (artist_name : string) (artists : list catalog_entry)
    (best_match : option catalog_entry) (best_score : float)
    : option catalog_entry * float :=
  match artists with
  | [] => (best_match, best_score)
  | a :: artists' =>
      let score := calculate_artist_match_score artist_name (entry_name a) in
      if gt score best_score then best_of artist_name artists' (Some a) score
      else best_of artist_name artists' best_match best_score
  end.

(** Lines 173 to 202 of [search_artist]: the entry returned for the search
    results [artists], if any. *)
Definition select_match (artist_name : string) (artists : list catalog_entry)
    : option catalog_entry :=
  match artists with
  | [] => None
  | _ =>
      match best_of artist_name artists None 0.0%float with
      | (Some best_match, best_score) =>
          if gt best_score 0.7 then Some best_match else None
      | (None, _) => None
      end
  end.

Fixpoint replace_char (c : ascii) (by_ : string) (s : string) : string :=
  match s with
  | EmptyString => EmptyString
  | String d s' =>
      if Ascii.eqb d c then by_ ++ replace_char c by_ s'
      else String d (replace_char c by_ s')
  end.

Definition ampersand : ascii := ascii_of_nat 38.
Definition double_quote : string := String (ascii_of_nat 34) EmptyString.

Record SpotifyService : Type := { is_configured : bool }.

Definition search_artist (env : collaborators) (self : SpotifyService)
    (artist_name : string) : exc (option catalog_entry) :=
  if negb (is_configured self) then Return None
  else
    try_except
      (let cleaned_name := replace_char ampersand "and" (strip artist_name) in
       artists <- sp_search env ("artist:" ++ double_quote ++ cleaned_name ++ double_quote) ;;
       artists <- match artists with
                  | [] => sp_search env cleaned_name
                  | _ => Return artists
                  end ;;
       Return (select_match artist_name artists))
      (fun _ => Return None).

End Spotify.

(* ================================================================= *)
(** * backend/app/services/spotify_service.py, the playlist part *)

(** A track as the Web API describes it, [results['tracks'][i]];
    [raw_artists] holds the names of [track['artists']], and an optional
    field is [None] when the object has no such key. *)
Record raw_track : Type := RawTrack {
  raw_id : string;
  raw_name : string;
  raw_artists : list string;
  raw_album : string;
  raw_popularity : option Z;
  raw_duration_ms : option Z;
  raw_preview_url : option string;
  raw_external_urls : option (list (string * string));
  raw_explicit : option bool
}.

(** The playlist object [user_playlist_create] answers with. *)
Record raw_playlist : Type := RawPlaylist {
  created_id : string;
  created_name : string;
  created_description : option string;
  created_public : option bool;
  created_external_urls : option (list (string * string));
  created_tracks_total : Z
}.

(** The calls that change something at the remote service, once they have
    returned. *)
Inductive event : Type :=
| PlaylistCreated (access_token user name : string) (public : bool)
    (description : option string)
| ItemsAdded (access_token playlist_id : string) (track_uris : list string).

(** The client library behind the playlist operations.  A call that changes
    the remote state answers in view of the calls completed before it. *)
Record spotify_api : Type := SpotifyApi {
  (* self.sp_public.artist_top_tracks(artist_id, country='US')['tracks'] *)
  artist_top_tracks : string -> Py.exc (list raw_track);
  (* spotipy.Spotify(auth=access_token).user_playlist_create(
       user=user_id, name=playlist_name, public=public, description=description) *)
  user_playlist_create :
    list event -> string -> string -> string -> bool -> option string ->
    Py.exc raw_playlist;
  (* spotipy.Spotify(auth=access_token).playlist_add_items(playlist_id, track_uris) *)
  playlist_add_items : list event -> string -> string -> list string -> Py.exc unit;
  (* str(e) *)
  str_of_exception : Py.pyexc -> string
}.

Module Playlists.

Import PyStr Py Spotify.

(** ** Operations with remote effects *)

(** An operation reads the log of the completed calls and extends it; an
    exception leaves the log as it was when it was raised. *)
Definition act (A : Type) : Type := list event -> exc A * list event.

Definition ret {A : Type} (a : A) : act A := fun log => (Return a, log).

Definition lift {A : Type} (m : exc A) : act A := fun log => (m, log).

Definition bind_act {A B : Type} (m : act A) (f : A -> act B) : act B :=
  fun log =>
    match m log with
    | (Return a, log') => f a log'
    | (Raise e, log') => (Raise e, log')
    end.

(** [try: body  except Exception as e: handler] *)
Definition try_act {A : Type} (body : act A) (handler : pyexc -> act A) : act A :=
  fun log =>
    match body log with
    | (Return a, log') => (Return a, log')
    | (Raise e, log') => handler e log'
    end.

(** A remote call: it enters the log when it returns. *)
Definition call {A : Type} (answer : list event -> exc A) (ev : event) : act A :=
  fun log =>
    match answer log with
    | Return a => (Return a, log ++ [ev])
    | Raise e => (Raise e, log)
    end.

(** [for x in l: body(x)] *)
Fixpoint for_act {A : Type} (body : A -> act unit) (l : list A) : act unit :=
  match l with
  | [] => ret tt
  | x :: l' => bind_act (body x) (fun _ => for_act body l')
  end.

(** ** Slices and ranges *)

(** [l[:stop]]: a negative [stop] counts from the end. *)
Definition slice_to {A : Type} (stop : Z) (l : list A) : list A :=
  if (stop <? 0)%Z then firstn (List.length l - Z.to_nat (- stop)) l
  else firstn (Z.to_nat stop) l.

(** [l[i:j]] for [0 <= i <= j] *)
Definition slice {A : Type} (i j : nat) (l : list A) : list A :=
  firstn (j - i) (skipn i l).

Fixpoint range_aux (count start step : nat) : list nat :=
  match count with
  | O => []
  | S count' => start :: range_aux count' (start + step) step
  end.

(** [range(start, stop, step)] for a positive [step]: it has
    [ceil((stop - start) / step)] elements. *)
Definition range (start stop step : nat) : list nat :=
  range_aux ((stop - start + step - 1) / step) start step.

(** [str(n)] for a natural number *)
Definition str_of_nat (n : nat) : string :=
  NilEmpty.string_of_uint (Nat.to_uint n).

(** ** [get_artist_top_tracks] *)

(** The dictionaries [track_info]. *)
Record track_info : Type := TrackInfo {
  track_id : string;
  track_name : string;
  track_artist : string;
  track_album : string;
  track_popularity : Z;
  track_duration_ms : Z;
  track_preview_url : option string;
  track_external_urls : list (string * string);
  track_explicit : bool
}.

Definition get_or {A : Type} (field : option A) (default : A) : A :=
  match field with
  | Some v => v
  | None => default
  end.

(** The body of the loop of [get_artist_top_tracks];
    [track['artists'][0]] raises on an empty list. *)
Definition describe_track (track : raw_track) : exc (list track_info) :=
  match raw_artists track with
  | [] => Raise IndexError
  | first_artist :: _ =>
      Return [ {| track_id := raw_id track;
                  track_name := raw_name track;
                  track_artist := first_artist;
                  track_album := raw_album track;
                  track_popularity := get_or (raw_popularity track) 0%Z;
                  track_duration_ms := get_or (raw_duration_ms track) 0%Z;
                  track_preview_url := raw_preview_url track;
                  track_external_urls := get_or (raw_external_urls track) [];
                  track_explicit := get_or (raw_explicit track) false |} ]
  end.

(** Without credentials [self.sp_public] is [None], and the call on it
    raises. *)
Definition get_artist_top_tracks (api : spotify_api) (self : SpotifyService)
    (artist_id : string) (limit : Z) : exc (list track_info) :=
  try_except
    (if negb (is_configured self) then Raise AttributeError
     else
       results <- artist_top_tracks api artist_id ;;
       let tracks := slice_to limit results in
       for_each describe_track tracks)
    (fun _ => Return []).

(** ** [create_playlist] *)

Record playlist_info : Type := PlaylistInfo {
  playlist_id : string;
  playlist_name : string;
  playlist_description : string;
  playlist_public : bool;
  playlist_external_urls : list (string * string);
  tracks_total : Z
}.

Definition create_playlist (api : spotify_api) (user_id playlist_name : string)
    (description : option string) (public : bool) (access_token : option string)
    : act (option playlist_info) :=
  try_act
    (match access_token with
     | None | Some EmptyString => ret None
     | Some token =>
         bind_act
           (call (fun log => user_playlist_create api log token user_id
                               playlist_name public description)
                 (PlaylistCreated token user_id playlist_name public description))
           (fun playlist =>
              ret (Some {| playlist_id := created_id playlist;
                           playlist_name := created_name playlist;
                           playlist_description :=
                             get_or (created_description playlist) "";
                           playlist_public := get_or (created_public playlist) false;
                           playlist_external_urls :=
                             get_or (created_external_urls playlist) [];
                           tracks_total := created_tracks_total playlist |}))
     end)
    (fun _ => ret None).

(** ** [add_tracks_to_playlist] *)

Definition batch_size : nat := 100.

(** [f"spotify:track:{track_id}"] *)
Definition track_uri (track_id : string) : string :=
  ("spotify:track:" ++ track_id)%string.

(** The body of the loop of [add_tracks_to_playlist]. *)
Definition add_batch (api : spotify_api) (playlist_id : string)
    (track_ids : list string) (access_token : string) (i : nat) : act unit :=
  let batch := slice i (i + batch_size) track_ids in
  let track_uris := map track_uri batch in
  call (fun log => playlist_add_items api log access_token playlist_id track_uris)
       (ItemsAdded access_token playlist_id track_uris).

Definition add_tracks_to_playlist (api : spotify_api) (playlist_id : string)
    (track_ids : list string) (access_token : string) : act bool :=
  try_act
    (match track_ids with
     | [] => ret true
     | _ =>
         bind_act
           (for_act (add_batch api playlist_id track_ids access_token)
                    (range 0 (List.length track_ids) batch_size))
           (fun _ => ret true)
     end)
    (fun _ => ret false).

(** ** [process_artists_to_playlist] *)

(** The dictionary [process_artists_to_playlist] returns; a key that a
    branch leaves out is [None]. *)
Record outcome : Type := Outcome {
  success : bool;
  error : option string;
  playlist : option playlist_info;
  successful_artists : list string;
  failed_artists : list string;
  total_tracks : nat;
  tracks : option (list track_info)
}.

(** The three lists the loop over the artists fills. *)
Record tally : Type := Tally {
  successful : list string;
  failed : list string;
  all_tracks : list track_info
}.

(** One iteration of the loop over [artist_names]. *)
Definition visit (env : collaborators) (api : spotify_api) (self : SpotifyService)
    (tracks_per_artist : Z) (seen : tally) (artist_name : string) : exc tally :=
  artist_info <- search_artist env self artist_name ;;
  match artist_info with
  | Some found =>
      tracks <- get_artist_top_tracks api self (entry_id found) tracks_per_artist ;;
      match tracks with
      | [] =>
          Return {| successful := successful seen;
                    failed := failed seen ++ [artist_name];
                    all_tracks := all_tracks seen |}
      | _ =>
          Return {| successful := successful seen ++ [artist_name];
                    failed := failed seen;
                    all_tracks := all_tracks seen ++ tracks |}
      end
  | None =>
      Return {| successful := successful seen;
                failed := failed seen ++ [artist_name];
                all_tracks := all_tracks seen |}
  end.

Fixpoint visit_all (env : collaborators) (api : spotify_api) (self : SpotifyService)
    (tracks_per_artist : Z) (seen : tally) (artist_names : list string) : exc tally :=
  match artist_names with
  | [] => Return seen
  | artist_name :: rest =>
      seen' <- visit env api self tracks_per_artist seen artist_name ;;
      visit_all env api self tracks_per_artist seen' rest
  end.

(** [not playlist_description] *)
Definition no_description (playlist_description : option string) : bool :=
  match playlist_description with
  | None | Some EmptyString => true
  | Some _ => false
  end.

Definition process_artists_to_playlist (env : collaborators) (api : spotify_api)
    (self : SpotifyService) (artist_names : list string)
    (playlist_name user_id access_token : string) (tracks_per_artist : Z)
    (playlist_description : option string) : act outcome :=
  try_act
    (bind_act
       (lift (visit_all env api self tracks_per_artist
                {| successful := []; failed := []; all_tracks := [] |}
                artist_names))
       (fun seen =>
          match all_tracks seen with
          | [] =>
              ret {| success := false;
                     error := Some "No tracks found for any artists";
                     playlist := None;
                     successful_artists := successful seen;
                     failed_artists := failed seen;
                     total_tracks := 0;
                     tracks := None |}
          | _ =>
              let playlist_description :=
                if no_description playlist_description
                then Some ("Festival playlist with "
                           ++ str_of_nat (List.length (successful seen))
                           ++ " artists")%string
                else playlist_description in
              bind_act
                (create_playlist api user_id playlist_name playlist_description
                                 true (Some access_token))
                (fun created =>
                   match created with
                   | None =>
                       ret {| success := false;
                              error := Some "Failed to create playlist";
                              playlist := None;
                              successful_artists := successful seen;
                              failed_artists := failed seen;
                              total_tracks := List.length (all_tracks seen);
                              tracks := None |}
                   | Some playlist_info =>
                       let track_ids := map track_id (all_tracks seen) in
                       bind_act
                         (add_tracks_to_playlist api (playlist_id playlist_info)
                                                 track_ids access_token)
                         (fun added =>
                            if negb added then
                              ret {| success := false;
                                     error := Some "Failed to add tracks to playlist";
                                     playlist := Some playlist_info;
                                     successful_artists := successful seen;
                                     failed_artists := failed seen;
                                     total_tracks := List.length (all_tracks seen);
                                     tracks := None |}
                            else
                              ret {| success := true;
                                     error := None;
                                     playlist := Some playlist_info;
                                     successful_artists := successful seen;
                                     failed_artists := failed seen;
                                     total_tracks := List.length (all_tracks seen);
                                     tracks := Some (all_tracks seen) |})
                   end)
          end))
    (fun e =>
       ret {| success := false;
              error := Some (str_of_exception api e);
              playlist := None;
              successful_artists := [];
              failed_artists := artist_names;
              total_tracks := 0;
              tracks := None |}).

End Playlists.

(* ================================================================= *)
(** * Notions the statements are written in *)

Import PyStr Re Py PyJson Extraction.

(** ** The reconciler *)

(** The key of the merge: [artist['name'].lower()]. *)
Definition key (a : artist) : string := lower (name a).

(** Every key of the dictionary is the lowercased name of its value, and
    no key occurs twice. *)
Definition well_keyed (d : dict) : Prop :=
  NoDup (map fst d) /\ Forall (fun kv => fst kv = key (snd kv)) d.

(** Every candidate seen so far has its key in the dictionary, under a
    value whose confidence is at least as great. *)
Definition covers (d : dict) (seen : list artist) : Prop :=
  forall x, In x seen ->
    exists v, dict_get (key x) d = Some v /\
              PrimFloat.leb (confidence x) (confidence v) = true.

(** The candidates of the scenario of the specification. *)
Definition daft_punk_pattern : artist :=
  {| name := "Daft Punk"; confidence := 0.6; method := "pattern_matching";
     context := "Daft Punk" |}.

Definition daft_punk_gemini : artist :=
  {| name := "daft punk"; confidence := 0.9; method := "gemini"; context := "" |}.

(** ** Whitespace *)

Fixpoint drop_while (f : ascii -> bool) (s : string) : string :=
  match s with
  | EmptyString => EmptyString
  | String c s' => if f c then drop_while f s' else s
  end.

(** One space for every run of whitespace; [in_run] says that the run has
    begun. *)
Fixpoint squeeze (in_run : bool) (s : string) : string :=
  match s with
  | EmptyString => EmptyString
  | String c s' =>
      if isspace c then
        if in_run then squeeze true s' else String " " (squeeze true s')
      else String c (squeeze false s')
  end.

(** A text whose only whitespace is single spaces between other characters;
    [after_space] says that a space may not come next. *)
Fixpoint tidy_from (after_space : bool) (s : string) : Prop :=
  match s with
  | EmptyString => after_space = false
  | String c s' =>
      if isspace c then c = " "%char /\ after_space = false /\ tidy_from true s'
      else tidy_from false s'
  end.

Definition tidy (s : string) : Prop := s = "" \/ tidy_from true s.

(** The length of the whitespace run a text starts with. *)
Definition run_length (s : string) : nat :=
  String.length s - String.length (drop_while isspace s).

(** ** The matcher *)

(** The continuation of [match_len]. *)
Definition k0 : cont := fun _ rest => Some rest.

(** A step that reads one character of a class. *)
Definition reads (f : ascii -> bool) (step : matcher) : Prop :=
  forall p s k,
    step p s k =
    match s with
    | String c s' => if f c then k (Some c) s' else None
    | EmptyString => None
    end.

(** What a successful run of the matcher does: [steps r p s p' s'] when [r]
    can lead from the position before [s], just after the character [p], to
    the position before [s'], just after [p']. *)
Inductive steps : regex -> option ascii -> string -> option ascii -> string -> Prop :=
| steps_eps p s : steps Eps p s p s
| steps_chr f c p s : f c = true -> steps (Chr f) p (String c s) (Some c) s
| steps_seq r1 r2 p s p1 s1 p2 s2 :
    steps r1 p s p1 s1 -> steps r2 p1 s1 p2 s2 -> steps (Seq r1 r2) p s p2 s2
| steps_alt_l r1 r2 p s p' s' : steps r1 p s p' s' -> steps (Alt r1 r2) p s p' s'
| steps_alt_r r1 r2 p s p' s' : steps r2 p s p' s' -> steps (Alt r1 r2) p s p' s'
| steps_rep_stop greedy hi r p s : steps (Rep greedy 0 hi r) p s p s
| steps_rep_more greedy lo hi r p s p1 s1 p2 s2 :
    may_iterate hi = true ->
    steps r p s p1 s1 ->
    steps (Rep greedy (pred lo) (dec hi) r) p1 s1 p2 s2 ->
    steps (Rep greedy lo hi r) p s p2 s2
| steps_wordb p s :
    xorb (word_at p) (word_at (head s)) = true -> steps WordB p s p s.

(** The character before the position reached after reading [w]. *)
Fixpoint last_of (p : option ascii) (w : string) : option ascii :=
  match w with
  | EmptyString => p
  | String c w' => last_of (Some c) w'
  end.

(** A matcher that succeeds only along a run of [r]. *)
Definition sound (r : regex) (step : matcher) : Prop :=
  forall p s k x,
    step p s k = Some x ->
    exists p' s', steps r p s p' s' /\ k p' s' = Some x.

(** Every run of [r] first reads a character of class [f]. *)
Definition begins (f : ascii -> bool) (r : regex) : Prop :=
  forall p s p' s', steps r p s p' s' ->
    exists c w, f c = true /\ s = String c (w ++ s')%string.

(** Every run of [r] ends just after a character of class [f]. *)
Definition ends (f : ascii -> bool) (r : regex) : Prop :=
  forall p s p' s', steps r p s p' s' -> exists c, p' = Some c /\ f c = true.

(** A run of [r] that starts after a character of class [f] ends after one. *)
Definition keeps (f : ascii -> bool) (r : regex) : Prop :=
  forall p s p' s',
    (exists c, p = Some c /\ f c = true) ->
    steps r p s p' s' -> exists c, p' = Some c /\ f c = true.

Definition letter (c : ascii) : bool := ascii_upper c || ascii_lower c.

(** A matcher that asks its continuation only about what is left of the
    subject. *)
Definition local (step : matcher) : Prop :=
  forall p s k1 k2,
    (forall p' s', String.length s' <= String.length s -> k1 p' s' = k2 p' s') ->
    step p s k1 = step p s k2.

(** ** The pattern extractor *)

Definition above_floor (a : artist) : Prop := gt (confidence a) 0.3 = true.

(** A confidence that compares with itself: any float but a NaN. *)
Definition comparable (a : artist) : Prop :=
  PrimFloat.leb (confidence a) (confidence a) = true.

(** [b] does not rank above [a]: [confidence b <= confidence a]. *)
Definition ranks (a b : artist) : Prop :=
  PrimFloat.leb (confidence b) (confidence a) = true.

(** [min(1.0, max(0.0, x))] *)
Definition clamp_unit (x : float) : float := min 1.0 (max 0.0 x).

Definition when (b : bool) (x : float) : float := if b then x else 0%float.

(** The scoring rule in words: 0.5, plus 0.2 for a capital first letter
    followed somewhere by a lowercase one, plus 0.3 when the match is the
    whole trimmed line, plus 0.1 for three or four words, minus 0.2 for a
    digit, plus [min(0.2, occurrences * 0.05)] when the match occurs more
    than once in the lowercased document, clamped into [0, 1]. *)
Definition rule_score (m line full_text : string) : float :=
  let mixed_case :=
    match m with
    | String c rest => isupper c && any_char islower rest
    | EmptyString => false
    end in
  let standalone := String.eqb m (strip line) in
  let words := List.length (split m) in
  let occurrences := count (lower full_text) (lower m) in
  clamp_unit
    (0.5 + when mixed_case 0.2 + when standalone 0.3
     + when ((3 <=? words)%nat && (words <=? 4)%nat) 0.1
     - when (any_char isdigit m) 0.2
     + when (1 <? occurrences)%Z (min 0.2 (of_int occurrences * 0.05)))%float.

(** ** The AI adapters *)

(** What [_parse_gemini_response] lets through. *)
Definition gemini_valid (a : artist) : Prop :=
  name a <> "" /\ strip (name a) = name a /\
  (exists f, confidence a = max 0.0 (min 1.0 f)) /\
  PrimFloat.leb 0 (confidence a) = true /\ PrimFloat.leb (confidence a) 1 = true /\
  Gemini._is_likely_artist_name (name a) = true /\
  method a = "gemini".

(** What the loop of [extract_with_vertex_ai] lets through. *)
Definition vertex_valid (a : artist) : Prop :=
  name a <> "" /\ strip (name a) = name a /\
  PrimFloat.leb 0 (confidence a) = true /\ PrimFloat.leb (confidence a) 1 = true /\
  method a = "vertex_ai".


Definition quoted (s : string) : string :=
  (Spotify.double_quote ++ s ++ Spotify.double_quote)%string.

(** A reply with an excluded term and a confidence out of range. *)
Definition sample_reply : string :=
  ("[{" ++ quoted "name" ++ ": " ++ quoted "festival" ++ ", "
        ++ quoted "confidence" ++ ": 0.9}, {"
        ++ quoted "name" ++ ": " ++ quoted "Daft Punk" ++ ", "
        ++ quoted "confidence" ++ ": 1.5}]")%string.

Definition sample_reply_parsed : json :=
  JArr [ JObj [("name", JStr "festival"); ("confidence", JFloat 0.9)];
         JObj [("name", JStr "Daft Punk"); ("confidence", JFloat 1.5)] ].

(** Collaborators for the examples: the model answers [reply], which
    [json.loads] reads as [parsed]; the catalog search answers [hits]. *)
Definition sample_env (reply : string) (parsed : json) (hits : list catalog_entry)
    : collaborators :=
  {| json_loads := fun s => if String.eqb s reply then Return parsed
                            else Raise JSONDecodeError;
     repr := fun _ => "";
     float_of_str := fun _ => Raise ValueError;
     _create_artist_extraction_prompt := fun text => text;
     _create_image_analysis_prompt := "";
     vertex_prompt := fun text => text;
     generate_content := fun _ => Return reply;
     generate_content_image := fun _ _ => Return reply;
     predict := fun _ => Return reply;
     sp_search := fun _ => Return hits |}.

(** ** The catalog matcher *)

Definition tribute_band : catalog_entry :=
  {| entry_id := "4"; entry_name := "The Beatles Tribute Band";
     genres := []; popularity := 0; followers := 0 |}.

(** ** The catalog search *)

(** [score name e]: how well the catalog entry [e] matches the query. *)
Definition score (artist_name : string) (e : catalog_entry) : float :=
  Spotify.calculate_artist_match_score artist_name (entry_name e).

(** [b], with the score [s], is the first entry of [l] to reach the highest
    score in [l]: no entry before it scores as much, none after it more. *)
Definition first_best (artist_name : string) (l : list catalog_entry)
    (b : catalog_entry) (s : float) : Prop :=
  exists l1 l2,
    l = l1 ++ b :: l2 /\ s = score artist_name b /\
    (forall a, In a l1 -> PrimFloat.leb s (score artist_name a) = false) /\
    (forall a, In a l2 -> PrimFloat.ltb s (score artist_name a) = false).

(** ** The candidates of the pattern extractor *)

(** Every character a run of [r] reads is of class [f]. *)
Fixpoint only (f : ascii -> bool) (r : regex) : Prop :=
  match r with
  | Eps | WordB => True
  | Chr g => forall c, g c = true -> f c = true
  | Seq r1 r2 | Alt r1 r2 => only f r1 /\ only f r2
  | Rep _ _ _ r1 => only f r1
  end.

(** [all(f(c) for c in s)] *)
Fixpoint all_chars (f : ascii -> bool) (s : string) : bool :=
  match s with
  | EmptyString => true
  | String c s' => f c && all_chars f s'
  end.

(** The characters an artist pattern can read: the letters A to Z and a to
    z, whitespace and the ampersand. *)
Definition name_char (c : ascii) : bool :=
  ascii_upper c || ascii_lower c || isspace c || Ascii.eqb c "&".

(** What [extract_with_patterns] records for a match: the match, free of
    blanks at its ends, two to fifty characters long, starting with a
    capital letter, made of letters, blanks and ampersands, and free of
    filter words; the trimmed line it was found in; its score against that
    line and the whole text. *)
Definition pattern_candidate (text : string) (a : artist) : Prop :=
  method a = "pattern_matching" /\
  2 <= String.length (name a) <= 50 /\
  (exists c rest, name a = String c rest /\ ascii_upper c = true) /\
  strip (name a) = name a /\
  all_chars name_char (name a) = true /\
  (forall w, In w (split (lower (name a))) -> ~ In w filter_words) /\
  (exists line before after,
      In line (split_on newline text) /\ context a = strip line /\
      context a = (before ++ name a ++ after)%string) /\
  calculate_pattern_confidence (name a) (context a) text = Return (confidence a) /\
  PrimFloat.ltb 0.3 (confidence a) = true /\
  PrimFloat.leb (confidence a) 1 = true.

(** ** The bracketed part of a reply *)

(** What follows the first [c] of a text, and what follows its last. *)
Fixpoint after_first (c : ascii) (s : string) : option string :=
  match s with
  | EmptyString => None
  | String d s' => if Ascii.eqb c d then Some s' else after_first c s'
  end.

Fixpoint after_last (c : ascii) (s : string) : option string :=
  match s with
  | EmptyString => None
  | String d s' =>
      match after_last c s' with
      | Some rest => Some rest
      | None => if Ascii.eqb c d then Some s' else None
      end
  end.

(** The continuation that reads a [c] and ends the match. *)
Definition then_char (c : ascii) : cont :=
  fun p s => run (Chr (Ascii.eqb c)) p s (fun _ rest => Some rest).

(** [j] is a bracketed part of [s] that starts at the first opening bracket
    of [s]; [w] is what the brackets enclose and [post] what follows. *)
Definition bracketed (s j w post : string) : Prop :=
  exists pre,
    s = (pre ++ "[" ++ w ++ "]" ++ post)%string /\
    j = ("[" ++ w ++ "]")%string /\
    ~ has_char "["%char pre.

(** ** Building a playlist *)

(** The artist is in the catalog and has a top track to give. *)
Definition finds_tracks (env : collaborators) (api : spotify_api)
    (self : Spotify.SpotifyService) (tracks_per_artist : Z) (artist_name : string)
    : bool :=
  match Spotify.search_artist env self artist_name with
  | Return (Some found) =>
      match Playlists.get_artist_top_tracks api self (entry_id found)
              tracks_per_artist with
      | Return (_ :: _) => true
      | _ => false
      end
  | _ => false
  end.

(** The tracks [get_artist_top_tracks] gives for an artist name, none when
    the artist is not found. *)
Definition tracks_for (env : collaborators) (api : spotify_api)
    (self : Spotify.SpotifyService) (tracks_per_artist : Z) (artist_name : string)
    : list Playlists.track_info :=
  match Spotify.search_artist env self artist_name with
  | Return (Some found) =>
      match Playlists.get_artist_top_tracks api self (entry_id found)
              tracks_per_artist with
      | Return tracks => tracks
      | Raise _ => []
      end
  | _ => []
  end.

(** The calls that add the batches [batches] to a playlist. *)
Definition additions (access_token playlist_id : string) (batches : list (list string))
    : list event :=
  map (ItemsAdded access_token playlist_id) batches.

(** The batches are full but for the last, which is not empty. *)
Definition full_batches (batches : list (list string)) : Prop :=
  Forall (fun batch => 1 <= List.length batch <= 100) batches /\
  Forall (fun batch => List.length batch = 100) (removelast batches).

(** ** What the AI adapters read from a reply *)

(** The reply of the model, [call], holds a bracketed text, found with
    [bracket], that parses to a value with the items [entries]. *)
Definition reply_entries (env : collaborators) (bracket : regex)
    (call : exc string) (entries : list json) : Prop :=
  exists reply json_str data,
    call = Return reply /\
    search bracket (strip reply) = Some json_str /\
    json_loads env json_str = Return data /\
    iterate data = Return entries.

(** [kept] is [l] with some items left out, the order unchanged. *)
Inductive picked {A : Type} : list A -> list A -> Prop :=
| picked_nil : picked [] []
| picked_skip x kept l : picked kept l -> picked kept (x :: l)
| picked_keep x kept l : picked kept l -> picked (x :: kept) (x :: l).

(** [a] is what the Gemini adapters make of [entry]: the entry is an object
    whose name is a string and whose confidence (0.0 when there is none) is
    a number; [a] has the name trimmed and that number, converted with
    [float], clamped into [0, 1]. *)
Definition gemini_reads (env : collaborators) (entry : json) (a : artist) : Prop :=
  exists fields s f,
    entry = JObj fields /\
    get "name" fields = Some (JStr s) /\
    let given := match get "confidence" fields with
                 | None => JFloat 0.0
                 | Some v => v
                 end in
    is_number given = true /\
    to_float env given = Return f /\
    a = {| name := strip s; confidence := max 0.0 (min 1.0 f);
           method := "gemini"; context := "" |}.

(** [a] is what the Vertex AI adapter makes of [entry]: the entry is an
    object with a name and a confidence; [a] has the name, converted with
    [str], trimmed and the confidence, converted with [float], as it is. *)
Definition vertex_reads (env : collaborators) (entry : json) (a : artist) : Prop :=
  exists fields n c f,
    entry = JObj fields /\
    get "name" fields = Some n /\
    get "confidence" fields = Some c /\
    to_float env c = Return f /\
    a = {| name := strip (to_str env n); confidence := f;
           method := "vertex_ai"; context := "" |}.

(** The list [l] an adapter returns is read from the reply [call]: it is
    empty, or the reply has entries and [l] is made, in their order, of
    some of them, one artist from each. *)
Definition read_from (env : collaborators) (bracket : regex)
    (reads : collaborators -> json -> artist -> Prop)
    (call : exc string) (l : list artist) : Prop :=
  l = [] \/
  exists entries kept,
    reply_entries env bracket call entries /\
    picked kept entries /\
    Forall2 (reads env) kept l.

(** ** Proof automation *)

(** Case analysis on the comparisons of exponents and mantissas that
    [SFcompare] makes. *)
Ltac compare_cases :=
  repeat match goal with
    | |- context [(?a ?= ?b)%Z] => destruct (Z.compare_spec a b)
    | |- context [PosDef.Pos.compare_cont Eq ?a ?b] =>
        change (PosDef.Pos.compare_cont Eq a b) with (Pos.compare a b);
        destruct (Pos.compare_spec a b)
    end;
  simpl; try discriminate; try reflexivity; try lia.

(* ================================================================= *)
(** * The order of binary64 numbers *)

Section FloatOrder.

Lemma SFcompare_antisym (x y : spec_float) :
  SFcompare y x = option_map CompOpp (SFcompare x y).
Proof.
  destruct x as [sx | sx | | sx mx ex], y as [sy | sy | | sy my ey]; simpl;
    try reflexivity;
    try (destruct sx; reflexivity); try (destruct sy; reflexivity);
    try (destruct sx, sy; reflexivity).
  destruct sx, sy; simpl; try reflexivity; compare_cases.
Qed.

Lemma SFleb_trans (x y z : spec_float) :
  SFleb x y = true -> SFleb y z = true -> SFleb x z = true.
Proof.
  unfold SFleb.
  destruct x as [sx | sx | | sx mx ex], y as [sy | sy | | sy my ey],
           z as [sz | sz | | sz mz ez]; simpl; try discriminate; try reflexivity;
    try (destruct sx; simpl; discriminate || reflexivity);
    try (destruct sy; simpl; discriminate || reflexivity);
    try (destruct sz; simpl; discriminate || reflexivity);
    try (destruct sx, sy; simpl; discriminate || reflexivity);
    try (destruct sx, sz; simpl; discriminate || reflexivity);
    try (destruct sy, sz; simpl; discriminate || reflexivity);
    try (destruct sx, sy, sz; simpl; discriminate || reflexivity).
  all: destruct sx, sy, sz; simpl; try discriminate; try reflexivity; compare_cases.
Qed.

Lemma SFltb_leb (x y : spec_float) : SFltb x y = true -> SFleb x y = true.
Proof. unfold SFltb, SFleb. destruct (SFcompare x y) as [[ | | ] | ]; easy. Qed.

Lemma SFltb_asym (x y : spec_float) : SFltb x y = true -> SFltb y x = false.
Proof.
  unfold SFltb. rewrite (SFcompare_antisym x y).
  destruct (SFcompare x y) as [[ | | ] | ]; easy.
Qed.

Lemma SFeqb_not_ltb (x y : spec_float) :
  SFeqb x y = true -> SFltb x y = false /\ SFltb y x = false.
Proof.
  unfold SFeqb, SFltb. rewrite (SFcompare_antisym x y).
  destruct (SFcompare x y) as [[ | | ] | ]; easy.
Qed.

(** Two floats that are comparable at all are ordered one way or the other. *)
Lemma SFleb_total (x y : spec_float) :
  SFleb x x = true -> SFleb y y = true -> SFltb x y = false -> SFleb y x = true.
Proof.
  unfold SFleb, SFltb. rewrite (SFcompare_antisym x y).
  destruct x as [sx | sx | | sx mx ex], y as [sy | sy | | sy my ey]; simpl;
    try discriminate; try reflexivity;
    try (destruct sx; simpl; discriminate || reflexivity);
    try (destruct sy; simpl; discriminate || reflexivity);
    try (destruct sx, sy; simpl; discriminate || reflexivity).
  intros _ _.
  destruct sx, sy; simpl; try discriminate; try reflexivity; compare_cases.
Qed.

End FloatOrder.

Module FloatFacts.
Import Py.
#[local] Open Scope float_scope.

Lemma ltb_leb x y : (x <? y) = true -> (x <=? y) = true.
Proof. rewrite ltb_spec, leb_spec. apply SFltb_leb. Qed.

Lemma ltb_asym x y : (x <? y) = true -> (y <? x) = false.
Proof. rewrite !ltb_spec. apply SFltb_asym. Qed.

Lemma ltb_irrefl x : (x <? x) = false.
Proof.
  destruct (x <? x) eqn:E; [ | reflexivity ].
  rewrite (ltb_asym _ _ E) in E. discriminate.
Qed.

Lemma eqb_not_ltb x y : (x =? y) = true -> (x <? y) = false /\ (y <? x) = false.
Proof. rewrite eqb_spec, !ltb_spec. apply SFeqb_not_ltb. Qed.

Lemma leb_trans x y z : (x <=? y) = true -> (y <=? z) = true -> (x <=? z) = true.
Proof. rewrite !leb_spec. apply SFleb_trans. Qed.

Lemma leb_total x y :
  (x <=? x) = true -> (y <=? y) = true -> (x <? y) = false -> (y <=? x) = true.
Proof. rewrite !leb_spec, ltb_spec. apply SFleb_total. Qed.

Lemma leb_refl_of_leb_l x y : (x <=? y) = true -> (x <=? x) = true.
Proof.
  rewrite !leb_spec. unfold SFleb.
  destruct (Prim2SF x) as [sx | sx | | sx mx ex], (Prim2SF y) as [sy | sy | | sy my ey];
    simpl; try discriminate; try reflexivity;
    try (destruct sx; simpl; discriminate || reflexivity).
  all: intros _; destruct sx; simpl; compare_cases.
Qed.

Lemma leb_refl_of_leb_r x y : (x <=? y) = true -> (y <=? y) = true.
Proof.
  rewrite !leb_spec. unfold SFleb.
  destruct (Prim2SF x) as [sx | sx | | sx mx ex], (Prim2SF y) as [sy | sy | | sy my ey];
    simpl; try discriminate; try reflexivity;
    try (destruct sy; simpl; discriminate || reflexivity).
  all: intros _; destruct sy; simpl; compare_cases.
Qed.

(** [max(0.0, min(1.0, x))] and [min(1.0, max(0.0, x))] lie in [0, 1],
    whatever [x] is. *)
Lemma clamp_max_min x :
  (0 <=? max 0 (min 1 x)) = true /\ (max 0 (min 1 x) <=? 1) = true.
Proof.
  unfold max, min, gt.
  destruct (x <? 1) eqn:E1.
  - destruct (0 <? x) eqn:E0; split; auto using ltb_leb.
  - destruct (0 <? 1) eqn:E0; split; auto using ltb_leb.
Qed.

Lemma clamp_min_max x :
  (0 <=? min 1 (max 0 x)) = true /\ (min 1 (max 0 x) <=? 1) = true.
Proof.
  unfold max, min, gt.
  destruct (0 <? x) eqn:E0.
  - destruct (x <? 1) eqn:E1; split; auto using ltb_leb.
  - destruct (0 <? 1) eqn:E1; split; auto using ltb_leb.
Qed.

End FloatFacts.

Import FloatFacts.

(* ================================================================= *)
(** * The merge of the candidate lists *)

Section Reconciler.

Lemma insert_desc_perm a l : Permutation (insert_desc a l) (a :: l).
Proof.
  induction l as [ | b l IH]; simpl.
  - apply Permutation_refl.
  - destruct (gt (confidence b) (confidence a)).
    + eapply perm_trans; [ apply perm_skip, IH | apply perm_swap ].
    + apply Permutation_refl.
Qed.

Lemma sort_desc_perm l : Permutation (sort_desc l) l.
Proof.
  induction l as [ | a l IH]; simpl.
  - apply perm_nil.
  - eapply perm_trans; [ apply insert_desc_perm | apply perm_skip, IH ].
Qed.

Lemma sort_desc_In a l : In a (sort_desc l) <-> In a l.
Proof.
  split; apply Permutation_in;
    [ apply sort_desc_perm | apply Permutation_sym, sort_desc_perm ].
Qed.

Lemma dict_get_None k d : dict_get k d = None <-> ~ In k (map fst d).
Proof.
  induction d as [ | [k' v] d IH]; simpl.
  - tauto.
  - destruct (String.eqb_spec k k') as [-> | Hne].
    + split; [ discriminate | intros H; elim H; auto ].
    + rewrite IH. split; intros H; [ intros [E | I]; congruence || auto | tauto ].
Qed.

Lemma dict_set_keys_present k v d :
  In k (map fst d) -> map fst (dict_set k v d) = map fst d.
Proof.
  induction d as [ | [k' v'] d IH]; simpl; [ tauto | ].
  destruct (String.eqb_spec k k') as [-> | Hne]; simpl; [ reflexivity | ].
  intros [E | I]; [ congruence | ]. now rewrite IH.
Qed.

Lemma dict_set_keys_absent k v d :
  ~ In k (map fst d) -> map fst (dict_set k v d) = map fst d ++ [k].
Proof.
  induction d as [ | [k' v'] d IH]; simpl; [ reflexivity | ].
  destruct (String.eqb_spec k k') as [-> | Hne]; simpl; [ tauto | ].
  intros H. rewrite IH; tauto.
Qed.

Lemma dict_set_values k v d x :
  In x (dict_set k v d) -> x = (k, v) \/ In x d.
Proof.
  induction d as [ | [k' v'] d IH]; simpl; [ intuition | ].
  destruct (String.eqb_spec k k') as [-> | Hne]; simpl; intuition.
Qed.

Lemma dict_get_set_same k v d : dict_get k (dict_set k v d) = Some v.
Proof.
  induction d as [ | [k' v'] d IH]; simpl.
  - now rewrite String.eqb_refl.
  - destruct (String.eqb_spec k k') as [-> | Hne]; simpl.
    + now rewrite String.eqb_refl.
    + destruct (String.eqb_spec k k'); [ congruence | exact IH ].
Qed.

Lemma dict_get_set_other k k' v d :
  k <> k' -> dict_get k (dict_set k' v d) = dict_get k d.
Proof.
  intros Hne. induction d as [ | [k2 v2] d IH]; simpl.
  - destruct (String.eqb_spec k k'); [ congruence | reflexivity ].
  - destruct (String.eqb_spec k' k2) as [-> | Hne2]; simpl.
    + destruct (String.eqb_spec k k2); [ congruence | reflexivity ].
    + destruct (String.eqb_spec k k2); [ reflexivity | exact IH ].
Qed.

Lemma dict_set_well_keyed v d :
  well_keyed d -> well_keyed (dict_set (key v) v d).
Proof.
  intros [Hnd Hk]. split.
  - destruct (in_dec string_dec (key v) (map fst d)) as [Hin | Hout].
    + now rewrite dict_set_keys_present.
    + rewrite dict_set_keys_absent by assumption.
      apply NoDup_rev in Hnd. rewrite <- (rev_involutive (map fst d ++ [key v])).
      apply NoDup_rev. rewrite rev_app_distr. simpl. constructor; [ | assumption ].
      now rewrite <- in_rev.
  - rewrite Forall_forall in *. intros x Hx.
    destruct (dict_set_values _ _ _ _ Hx) as [-> | Hin]; [ reflexivity | auto ].
Qed.

Lemma merge_step_well_keyed d a : well_keyed d -> well_keyed (merge_step d a).
Proof.
  intros H. unfold merge_step. fold (key a).
  destruct (dict_get (key a) d) as [kept | ].
  - destruct (gt (confidence a) (confidence kept)); auto using dict_set_well_keyed.
  - auto using dict_set_well_keyed.
Qed.

Lemma fold_merge_well_keyed l d :
  well_keyed d -> well_keyed (fold_left merge_step l d).
Proof.
  revert d. induction l as [ | a l IH]; simpl; auto using merge_step_well_keyed.
Qed.

Lemma merge_well_keyed l : well_keyed (merge l).
Proof.
  apply fold_merge_well_keyed. split; constructor.
Qed.

Lemma well_keyed_values d : well_keyed d -> map key (values d) = map fst d.
Proof.
  intros [_ Hk]. unfold values. rewrite map_map.
  induction Hk as [ | [k v] d Hkv _ IH]; simpl; [ reflexivity | ].
  simpl in Hkv. now rewrite IH, Hkv.
Qed.

Lemma NoDup_map_filter {A B : Type} (f : A -> B) (p : A -> bool) l :
  NoDup (map f l) -> NoDup (map f (filter p l)).
Proof.
  induction l as [ | x l IH]; simpl; [ auto | ].
  intros H. inversion H as [ | ? ? Hn Hd]; subst.
  destruct (p x); simpl; [ constructor | ]; auto.
  intros Hin. apply Hn. rewrite in_map_iff in *.
  destruct Hin as (y & E & I). exists y. split; [ assumption | ].
  now apply filter_In in I.
Qed.

Lemma reconcile_keys_NoDup all threshold :
  NoDup (map key (reconcile all threshold)).
Proof.
  unfold reconcile.
  eapply Permutation_NoDup.
  - apply Permutation_map, Permutation_sym, sort_desc_perm.
  - apply NoDup_map_filter.
    rewrite well_keyed_values by apply merge_well_keyed.
    apply merge_well_keyed.
Qed.

Lemma reconcile_In all threshold e :
  In e (reconcile all threshold) <->
  In e (values (merge all)) /\ ge (confidence e) threshold = true.
Proof.
  unfold reconcile. rewrite sort_desc_In, filter_In. reflexivity.
Qed.

Lemma well_keyed_get d v :
  well_keyed d -> In v (values d) -> dict_get (key v) d = Some v.
Proof.
  intros [Hnd Hk] Hin. unfold values in Hin.
  induction d as [ | [k' v'] d IH]; simpl in *; [ tauto | ].
  inversion Hnd as [ | ? ? Hn Hd]; subst.
  inversion Hk as [ | ? ? Hkv Hk']; subst. simpl in Hkv. subst k'.
  destruct Hin as [-> | Hin].
  - now rewrite String.eqb_refl.
  - destruct (String.eqb_spec (key v) (key v')) as [E | Hne]; [ | auto ].
    exfalso. apply Hn. rewrite <- E.
    rewrite in_map_iff in Hin. destruct Hin as ([k2 v2] & E2 & I2). simpl in E2. subst v2.
    rewrite Forall_forall in Hk'. specialize (Hk' _ I2). simpl in Hk'. subst k2.
    apply in_map_iff. exists (key v, v). auto.
Qed.

Lemma dict_get_In k v d : dict_get k d = Some v -> In v (values d).
Proof.
  unfold values. induction d as [ | [k' v'] d IH]; simpl; [ discriminate | ].
  destruct (String.eqb k k'); [ intros [= ->]; auto | auto ].
Qed.

Lemma merge_step_other k d a :
  key a <> k -> dict_get k (merge_step d a) = dict_get k d.
Proof.
  intros Hne. unfold merge_step. fold (key a).
  destruct (dict_get (key a) d) as [kept | ].
  - destruct (gt (confidence a) (confidence kept)); [ | reflexivity ].
    apply dict_get_set_other. congruence.
  - apply dict_get_set_other. congruence.
Qed.

Lemma fold_merge_other k l d :
  Forall (fun x => key x <> k) l ->
  dict_get k (fold_left merge_step l d) = dict_get k d.
Proof.
  intros H. revert d. induction H as [ | a l Ha _ IH]; simpl; intros d; [ reflexivity | ].
  rewrite IH. now apply merge_step_other.
Qed.

Lemma merge_step_first d a :
  dict_get (key a) d = None -> dict_get (key a) (merge_step d a) = Some a.
Proof.
  intros H. unfold merge_step. fold (key a). rewrite H. apply dict_get_set_same.
Qed.

Lemma merge_step_second d a b :
  key b = key a -> dict_get (key a) d = Some a ->
  dict_get (key a) (merge_step d b) =
  Some (if gt (confidence b) (confidence a) then b else a).
Proof.
  intros E H. unfold merge_step. fold (key b). rewrite E, H.
  destruct (gt (confidence b) (confidence a)); [ apply dict_get_set_same | assumption ].
Qed.

(** The dictionary after two candidates of one key, whatever surrounds them. *)
Lemma merge_two p1 q1 p2 q2 a b :
  key b = key a ->
  Forall (fun x => key x <> key a) (p1 ++ q1 ++ p2 ++ q2) ->
  dict_get (key a) (merge ((p1 ++ a :: q1) ++ (p2 ++ b :: q2))) =
  Some (if gt (confidence b) (confidence a) then b else a).
Proof.
  intros E H.
  rewrite !Forall_app in H. destruct H as (Hp1 & Hq1 & Hp2 & Hq2).
  unfold merge.
  rewrite !fold_left_app. simpl.
  rewrite fold_merge_other by assumption.
  rewrite merge_step_second; [ reflexivity | assumption | ].
  rewrite !fold_merge_other by assumption.
  apply merge_step_first.
  now rewrite fold_merge_other by assumption.
Qed.

End Reconciler.

(* ================================================================= *)
(** * Cleaning a text *)

Section Whitespace.

#[local] Open Scope string_scope.

Lemma drop_while_length f s : String.length (drop_while f s) <= String.length s.
Proof.
  induction s as [ | c s IH]; simpl; [ lia | ].
  destruct (f c); simpl; lia.
Qed.

Lemma rep_unfold step greedy fuel lo hi p s k :
  rep step greedy fuel lo hi p s k =
  let more (_ : unit) :=
    match fuel with
    | O => None
    | S fuel' =>
        if may_iterate hi then
          step p s (fun p' s' =>
            if (String.length s' <? String.length s)%nat || (0 <? lo)%nat
            then rep step greedy fuel' (pred lo) (dec hi) p' s' k
            else None)
        else None
    end in
  let stop (_ : unit) := if (lo =? 0)%nat then k p s else None in
  if greedy then orelse (more tt) stop else orelse (stop tt) more.
Proof. destruct fuel; reflexivity. Qed.

Lemma rep_class_all f step fuel s p :
  reads f step -> String.length s <= fuel ->
  rep step true fuel 0 None p s k0 = Some (drop_while f s).
Proof.
  intros Hstep. revert s p. induction fuel as [ | fuel IH]; intros s p Hlen.
  - destruct s; simpl in Hlen; [ reflexivity | lia ].
  - rewrite rep_unfold. cbv zeta. rewrite Hstep.
    destruct s as [ | c s]; [ reflexivity | ].
    simpl in Hlen. cbn [may_iterate drop_while].
    destruct (f c); [ | reflexivity ].
    replace (String.length s <? String.length (String c s))%nat with true
      by (symmetry; apply Nat.ltb_lt; simpl; lia).
    cbn [orb pred dec]. rewrite IH by lia. reflexivity.
Qed.

Lemma run_plus_chr f s p :
  run (plus (Chr f)) p s k0 =
  match s with
  | String c s' => if f c then Some (drop_while f s') else None
  | EmptyString => None
  end.
Proof.
  assert (Hstep : reads f (run (Chr f))) by (intros ? ? ?; reflexivity).
  unfold plus.
  change (run (Rep true 1 None (Chr f)) p s k0)
    with (rep (run (Chr f)) true (S (String.length s)) 1 None p s k0).
  rewrite rep_unfold. cbv zeta. rewrite Hstep.
  destruct s as [ | c s]; [ reflexivity | ].
  cbn [may_iterate].
  destruct (f c); [ | reflexivity ].
  replace (String.length s <? String.length (String c s))%nat with true
    by (symmetry; apply Nat.ltb_lt; simpl; lia).
  cbn [orb pred dec].
  rewrite (rep_class_all f) by (assumption || simpl; lia). reflexivity.
Qed.

Lemma match_len_whitespace p s :
  match_len whitespace_re p s =
  match s with
  | String c s' => if isspace c then Some (S (run_length s')) else None
  | EmptyString => None
  end.
Proof.
  unfold match_len, whitespace_re, space. fold k0. rewrite run_plus_chr.
  destruct s as [ | c s]; [ reflexivity | ].
  destruct (isspace c); [ | reflexivity ].
  f_equal. unfold run_length. cbn [String.length].
  apply Nat.sub_succ_l, drop_while_length.
Qed.

Lemma run_length_cons c s :
  run_length (String c s) = if isspace c then S (run_length s) else 0.
Proof.
  unfold run_length. cbn [drop_while String.length].
  destruct (isspace c).
  - apply Nat.sub_succ_l, drop_while_length.
  - apply Nat.sub_diag.
Qed.

Lemma sub_whitespace_squeeze s :
  forall p,
    sub_aux whitespace_re " " p s 0 = squeeze false s /\
    sub_aux whitespace_re " " p s (run_length s) = squeeze true s.
Proof.
  induction s as [ | c s IH]; intros p.
  - split; reflexivity.
  - assert (H0 : sub_aux whitespace_re " " p (String c s) 0 = squeeze false (String c s)).
    { cbn [sub_aux squeeze]. rewrite match_len_whitespace.
      destruct (isspace c).
      - destruct (IH (Some c)) as [_ ->]. reflexivity.
      - destruct (IH (Some c)) as [-> _]. reflexivity. }
    split; [ exact H0 | ].
    rewrite run_length_cons. destruct (isspace c) eqn:E.
    + cbn [sub_aux squeeze]. rewrite E. apply IH.
    + rewrite H0. cbn [squeeze]. now rewrite E.
Qed.

Lemma collapse_whitespace_squeeze text :
  collapse_whitespace text = squeeze false (strip text).
Proof. unfold collapse_whitespace, sub. apply sub_whitespace_squeeze. Qed.

(** ** What the passes of [clean_text] can leave *)

Lemma squeeze_chars b s c :
  has_char c (squeeze b s) -> isspace c = true -> c = " "%char.
Proof.
  revert b. induction s as [ | d s IH]; intros b; simpl; [ tauto | ].
  destruct (isspace d) eqn:E.
  - destruct b; simpl; [ apply IH | ].
    intros [<- | H] Hc; [ reflexivity | eapply IH; eassumption ].
  - simpl. intros [<- | H] Hc; [ congruence | eapply IH; eassumption ].
Qed.

Lemma has_char_app c s t : has_char c (s ++ t) <-> has_char c s \/ has_char c t.
Proof. induction s as [ | d s IH]; simpl; tauto. Qed.

Lemma sub_deletes r c s : forall p n, has_char c (sub_aux r "" p s n) -> has_char c s.
Proof.
  induction s as [ | d s IH]; intros p n; simpl.
  - destruct n; [ destruct (match_len r p "") | ]; simpl; tauto.
  - destruct n as [ | n]; [ | intros H; right; eapply IH; eassumption ].
    destruct (match_len r p (String d s)) as [[ | m] | ]; simpl.
    + intros [E | H]; [ auto | right; eapply IH; eassumption ].
    + intros H; right; eapply IH; eassumption.
    + intros [E | H]; [ auto | right; eapply IH; eassumption ].
Qed.

Lemma lstrip_deletes c s : has_char c (lstrip s) -> has_char c s.
Proof.
  induction s as [ | d s IH]; simpl; [ tauto | ].
  destruct (isspace d); simpl; tauto.
Qed.

Lemma rstrip_deletes c s : has_char c (rstrip s) -> has_char c s.
Proof.
  induction s as [ | d s IH]; simpl; [ tauto | ].
  destruct (rstrip s) as [ | e r]; simpl in *.
  - destruct (isspace d); simpl; tauto.
  - tauto.
Qed.

Lemma strip_deletes c s : has_char c (strip s) -> has_char c s.
Proof. intros H. now apply lstrip_deletes, rstrip_deletes. Qed.

Lemma remove_noise_deletes c s : has_char c (remove_noise s) -> has_char c s.
Proof.
  unfold remove_noise, sub. intros H.
  repeat (apply sub_deletes in H). exact H.
Qed.

Lemma clean_text_whitespace text c :
  has_char c (clean_text text) -> isspace c = true -> c = " "%char.
Proof.
  unfold clean_text. intros H.
  apply strip_deletes, remove_noise_deletes in H.
  rewrite collapse_whitespace_squeeze in H. eapply squeeze_chars; eassumption.
Qed.

(** ** One line *)

Lemma rev_string_app acc s : rev_string acc s = rev_string "" s ++ acc.
Proof.
  revert acc. induction s as [ | c s IH]; intros acc; simpl; [ reflexivity | ].
  rewrite (IH (String c acc)), (IH (String c "")).
  clear IH. induction (rev_string "" s) as [ | d t IHt]; simpl; [ reflexivity | ].
  now rewrite IHt.
Qed.

Lemma append_assoc_cons (s : string) c t : (s ++ String c "") ++ t = s ++ String c t.
Proof. induction s as [ | d s IH]; simpl; [ reflexivity | now rewrite IH ]. Qed.

Lemma split_on_aux_absent sep cur s :
  ~ has_char sep s -> split_on_aux sep cur s = [rev_string "" cur ++ s].
Proof.
  revert cur. induction s as [ | c s IH]; intros cur H; simpl.
  - f_equal. clear. induction (rev_string "" cur); simpl; congruence.
  - simpl in H. destruct (Ascii.eqb_spec c sep) as [-> | Hne]; [ tauto | ].
    rewrite IH by tauto. simpl. rewrite (rev_string_app (String c "")).
    now rewrite append_assoc_cons.
Qed.

Lemma split_on_absent sep s : ~ has_char sep s -> split_on sep s = [s].
Proof. intros H. unfold split_on. now rewrite split_on_aux_absent. Qed.

(** ** Texts that cleaning leaves alone *)

Lemma rstrip_cons_inv c s :
  rstrip (String c s) = String c s -> s <> "" -> rstrip s = s.
Proof.
  simpl. destruct (rstrip s) as [ | d r] eqn:E.
  - destruct (isspace c); intros [= H]; congruence.
  - intros [= H] _. congruence.
Qed.

Lemma rstrip_single c : rstrip (String c "") = String c "" -> isspace c = false.
Proof. simpl. destruct (isspace c); [ discriminate | reflexivity ]. Qed.

Lemma squeeze_tidy s :
  forall b, rstrip s = s -> s <> "" -> tidy_from b (squeeze b s).
Proof.
  induction s as [ | c s IH]; intros b Hr Hne; [ congruence | ].
  destruct s as [ | d s].
  - apply rstrip_single in Hr. cbn [squeeze]. rewrite Hr. cbn [tidy_from].
    rewrite Hr. reflexivity.
  - apply rstrip_cons_inv in Hr; [ | discriminate ].
    assert (Hd : String d s <> "") by discriminate.
    change (squeeze b (String c (String d s)))
      with (if isspace c then
              if b then squeeze true (String d s)
              else String " " (squeeze true (String d s))
            else String c (squeeze false (String d s))).
    destruct (isspace c) eqn:E.
    + destruct b; [ now apply IH | ].
      cbn [tidy_from]. change (isspace " ") with true. cbv iota.
      repeat split. now apply IH.
    + cbn [tidy_from]. rewrite E. now apply IH.
Qed.

Lemma rstrip_idempotent s : rstrip (rstrip s) = rstrip s.
Proof.
  induction s as [ | c s IH]; [ reflexivity | ].
  cbn [rstrip]. destruct (rstrip s) as [ | d r] eqn:E.
  - destruct (isspace c) eqn:Ec; [ reflexivity | ]. simpl. now rewrite Ec.
  - cbn [rstrip]. cbn [rstrip] in IH. now rewrite IH.
Qed.

Lemma lstrip_head s c r : lstrip s = String c r -> isspace c = false.
Proof.
  induction s as [ | d s IH]; simpl; [ discriminate | ].
  destruct (isspace d) eqn:E; [ exact IH | ]. intros [= -> _]. exact E.
Qed.

Lemma rstrip_head s c r : rstrip s = String c r -> exists r', s = String c r'.
Proof.
  destruct s as [ | d s]; simpl; [ discriminate | ].
  destruct (rstrip s); [ destruct (isspace d) | ]; intros [= -> _]; eauto.
Qed.

Lemma strip_head s c r : strip s = String c r -> isspace c = false.
Proof.
  unfold strip. intros H. destruct (rstrip_head _ _ _ H) as [r' E].
  eapply lstrip_head; eassumption.
Qed.

Lemma collapse_whitespace_tidy text : tidy (collapse_whitespace text).
Proof.
  rewrite collapse_whitespace_squeeze.
  destruct (strip text) as [ | c r] eqn:E; [ now left | right ].
  assert (Hc : isspace c = false) by (eapply strip_head; eassumption).
  assert (H : tidy_from true (squeeze true (String c r))).
  { apply squeeze_tidy; [ | discriminate ].
    rewrite <- E. unfold strip. apply rstrip_idempotent. }
  cbn [squeeze] in *. now rewrite Hc in *.
Qed.

Lemma tidy_from_rstrip s : forall b, tidy_from b s -> s <> "" -> rstrip s = s.
Proof.
  induction s as [ | c s IH]; intros b H Hne; [ congruence | ].
  destruct s as [ | d s].
  - cbn [tidy_from] in H. simpl. destruct (isspace c); [ | reflexivity ].
    destruct H as (_ & _ & H). discriminate.
  - assert (Hs : rstrip (String d s) = String d s).
    { cbn [tidy_from] in H. destruct (isspace c).
      - destruct H as (_ & _ & H). eapply IH; [ exact H | discriminate ].
      - eapply IH; [ exact H | discriminate ]. }
    change (rstrip (String c (String d s)))
      with (match rstrip (String d s) with
            | "" => if isspace c then "" else String c ""
            | r => String c r
            end).
    now rewrite Hs.
Qed.

Lemma tidy_strip s : tidy s -> strip s = s.
Proof.
  intros [-> | H]; [ reflexivity | ].
  destruct s as [ | c s]; [ reflexivity | ].
  unfold strip. cbn [lstrip]. cbn [tidy_from] in H.
  destruct (isspace c) eqn:E.
  - destruct H as (_ & H & _). discriminate.
  - apply (tidy_from_rstrip _ true); [ | discriminate ].
    cbn [tidy_from]. rewrite E. exact H.
Qed.

Lemma tidy_from_squeeze s : forall b, tidy_from b s -> squeeze b s = s.
Proof.
  induction s as [ | c s IH]; intros b H; [ reflexivity | ].
  cbn [tidy_from] in H. cbn [squeeze]. destruct (isspace c).
  - destruct H as (-> & -> & H). now rewrite IH.
  - now rewrite IH.
Qed.

Lemma tidy_collapse s : tidy s -> collapse_whitespace s = s.
Proof.
  intros H. rewrite collapse_whitespace_squeeze, (tidy_strip _ H).
  destruct H as [-> | H]; [ reflexivity | ].
  destruct s as [ | c s]; [ reflexivity | ].
  pose proof (tidy_from_squeeze _ _ H) as Hs.
  cbn [tidy_from] in H. cbn [squeeze] in *. destruct (isspace c).
  - destruct H as (_ & H & _). discriminate.
  - exact Hs.
Qed.

End Whitespace.

(** C2 (as amended).  [clean_text] collapses whitespace first and removes
    times, prices, dates, URLs and e-mail addresses afterwards; on a text
    from which the removal passes delete nothing once its whitespace is
    collapsed, cleaning twice is cleaning once. *)
Theorem clean_text_idempotent_without_removals (text : string) :
  remove_noise (collapse_whitespace text) = collapse_whitespace text ->
  clean_text (clean_text text) = clean_text text.
Proof.
  intros H.
  assert (Ht : clean_text text = collapse_whitespace text).
  { unfold clean_text. rewrite H. apply tidy_strip, collapse_whitespace_tidy. }
  rewrite Ht. unfold clean_text at 1.
  rewrite (tidy_collapse _ (collapse_whitespace_tidy text)), H.
  apply tidy_strip, collapse_whitespace_tidy.
Qed.

Lemma clean_text_idempotent_without_removals_witness :
  clean_text (clean_text "  Daft   Punk
   Justice ") = clean_text "  Daft   Punk
   Justice ".
Proof.
  apply clean_text_idempotent_without_removals. vm_compute. reflexivity.
Defined.

(** C2 (as stated) fails: a removal between two spaces leaves both. *)
Lemma clean_text_not_idempotent :
  clean_text "a 3:00 b" = "a  b" /\
  clean_text (clean_text "a 3:00 b") = "a b" /\
  clean_text (clean_text "a 3:00 b") <> clean_text "a 3:00 b".
Proof.
  split; [ | split ]; vm_compute; [ reflexivity | reflexivity | discriminate ].
Qed.

(** C10.  A cleaned text holds no line break: the only whitespace
    character it can hold is the space, so the extractor's split into
    lines yields the text as one line. *)
Theorem clean_text_single_line (text : string) :
  (forall c, has_char c (collapse_whitespace text) -> isspace c = true -> c = " "%char) /\
  (forall c, has_char c (clean_text text) -> isspace c = true -> c = " "%char) /\
  ~ has_char newline (clean_text text) /\
  split_on newline (clean_text text) = [clean_text text].
Proof.
  assert (Hnl : ~ has_char newline (clean_text text)).
  { intros H. apply clean_text_whitespace in H; [ discriminate | reflexivity ]. }
  repeat split.
  - intros c. rewrite collapse_whitespace_squeeze. apply squeeze_chars.
  - apply clean_text_whitespace.
  - exact Hnl.
  - now apply split_on_absent.
Qed.

(* ================================================================= *)
(** * The pattern extractor *)

Section PatternExtractor.

Lemma for_each_returns {A B : Type} (f : A -> exc (list B)) (P : B -> Prop) l :
  (forall x, In x l -> exists ys, f x = Return ys /\ Forall P ys) ->
  exists zs, for_each f l = Return zs /\ Forall P zs.
Proof.
  induction l as [ | x l IH]; intros H; simpl.
  - exists []. auto.
  - destruct (H x (or_introl eq_refl)) as (ys & -> & Hys).
    destruct IH as (zs & -> & Hzs); [ intros; apply H; now right | ].
    simpl. exists (ys ++ zs). split; [ reflexivity | ].
    apply Forall_app; auto.
Qed.

Lemma calculate_pattern_confidence_returns m line text :
  m <> "" -> exists c, calculate_pattern_confidence m line text = Return c.
Proof.
  intros H. destruct m as [ | c m]; [ congruence | ].
  unfold calculate_pattern_confidence. simpl. eauto.
Qed.

Lemma consider_match_returns text line m :
  exists ys, consider_match text line m = Return ys /\ Forall above_floor ys.
Proof.
  unfold consider_match.
  destruct (existsb _ _); [ exists []; auto | ].
  destruct (String.length m <? 2)%nat eqn:E; [ exists []; auto | ].
  simpl. destruct (50 <? String.length m)%nat; [ exists []; auto | ].
  destruct (calculate_pattern_confidence_returns m line text) as (c & ->).
  { intros ->. discriminate. }
  simpl. destruct (gt c 0.3) eqn:Ec; [ | exists []; auto ].
  eexists. split; [ reflexivity | ]. constructor; [ exact Ec | constructor ].
Qed.

Lemma consider_line_returns text line :
  exists ys, consider_line text line = Return ys /\ Forall above_floor ys.
Proof.
  unfold consider_line. destruct (_ <? 2)%nat; [ exists []; auto | ].
  apply for_each_returns. intros pattern _.
  apply for_each_returns. intros m _. apply consider_match_returns.
Qed.

Lemma potential_artists_returns text :
  exists ys, potential_artists text = Return ys /\ Forall above_floor ys.
Proof.
  unfold potential_artists. apply for_each_returns. intros line _.
  apply consider_line_returns.
Qed.

Lemma extract_with_patterns_returns text :
  exists out, extract_with_patterns text = Return out.
Proof.
  unfold extract_with_patterns.
  destruct (potential_artists_returns text) as (potential & -> & _).
  simpl. eauto.
Qed.

(** ** Sorting by descending confidence *)

Lemma above_floor_comparable a : above_floor a -> comparable a.
Proof.
  unfold above_floor, comparable, gt. intros H.
  eapply leb_refl_of_leb_r, ltb_leb, H.
Qed.

Lemma insert_desc_sorted a l :
  comparable a -> Forall comparable l ->
  StronglySorted ranks l -> StronglySorted ranks (insert_desc a l).
Proof.
  intros Ha Hl Hs. induction Hs as [ | b l Hs IH Hb]; simpl.
  - repeat constructor.
  - inversion Hl as [ | ? ? Hfb Hfl]; subst.
    destruct (gt (confidence b) (confidence a)) eqn:E.
    + constructor; [ auto | ].
      rewrite Forall_forall in *. intros x Hx.
      apply (Permutation_in _ (insert_desc_perm a l)) in Hx.
      destruct Hx as [<- | Hx]; [ | auto ].
      apply ltb_leb. exact E.
    + assert (Hba : ranks a b).
      { unfold ranks. apply leb_total; auto. }
      constructor; [ constructor; assumption | ].
      constructor; [ exact Hba | ].
      rewrite Forall_forall in *. intros x Hx.
      unfold ranks in *. eapply leb_trans; [ apply Hb, Hx | exact Hba ].
Qed.

Lemma sort_desc_sorted l :
  Forall comparable l -> StronglySorted ranks (sort_desc l).
Proof.
  induction 1 as [ | a l Ha Hl IH]; simpl; [ constructor | ].
  apply insert_desc_sorted; auto.
  rewrite Forall_forall in *. intros x Hx. apply Hl.
  now apply sort_desc_In.
Qed.

(** ** Keeping the first entry of every name *)

Lemma mem_In w ws : mem w ws = true <-> In w ws.
Proof.
  unfold mem. rewrite existsb_exists. split.
  - intros (x & Hx & E). apply String.eqb_eq in E. now subst.
  - intros H. exists w. split; [ assumption | apply String.eqb_refl ].
Qed.

Lemma unique_In seen l a : In a (unique seen l) -> In a l /\ ~ In (key a) seen.
Proof.
  revert seen. induction l as [ | b l IH]; intros seen; simpl; [ tauto | ].
  destruct (mem (lower (name b)) seen) eqn:E.
  - intros H. apply IH in H. tauto.
  - intros [<- | H].
    + split; [ auto | ]. rewrite <- mem_In. unfold key. now rewrite E.
    + apply IH in H. simpl in H. tauto.
Qed.

Lemma unique_NoDup seen l : NoDup (map key (unique seen l)).
Proof.
  revert seen. induction l as [ | b l IH]; intros seen; simpl; [ constructor | ].
  destruct (mem (lower (name b)) seen); [ apply IH | ].
  simpl. constructor; [ | apply IH ].
  rewrite in_map_iff. intros (x & E & Hx).
  apply unique_In in Hx. destruct Hx as [_ Hx]. apply Hx. left. now rewrite E.
Qed.

(** An entry that is kept comes before every other entry of its name. *)
Lemma unique_first seen l a :
  In a (unique seen l) ->
  exists l1 l2, l = l1 ++ a :: l2 /\ Forall (fun x => key x <> key a) l1.
Proof.
  revert seen. induction l as [ | b l IH]; intros seen; simpl; [ tauto | ].
  destruct (mem (lower (name b)) seen) eqn:E.
  - intros H. pose proof (unique_In _ _ _ H) as [_ Hseen].
    destruct (IH _ H) as (l1 & l2 & -> & Hl1).
    exists (b :: l1), l2. split; [ reflexivity | ].
    constructor; [ | assumption ].
    intros Hk. apply Hseen. rewrite <- Hk. apply mem_In. exact E.
  - intros [<- | H].
    + exists [], l. split; [ reflexivity | constructor ].
    + pose proof (unique_In _ _ _ H) as [_ Hseen].
      destruct (IH _ H) as (l1 & l2 & -> & Hl1).
      exists (b :: l1), l2. split; [ reflexivity | ].
      constructor; [ | assumption ].
      intros Hk. apply Hseen. left. exact Hk.
Qed.

Lemma sorted_first_is_best l1 a l2 b :
  StronglySorted ranks (l1 ++ a :: l2) ->
  ranks a a ->
  Forall (fun x => key x <> key a) l1 ->
  In b (l1 ++ a :: l2) -> key b = key a -> ranks a b.
Proof.
  intros Hs Haa Hl1 Hb Hk.
  apply in_app_or in Hb. destruct Hb as [Hb | [<- | Hb]].
  - rewrite Forall_forall in Hl1. now elim (Hl1 _ Hb).
  - exact Haa.
  - induction l1 as [ | x l1 IH]; simpl in Hs.
    + inversion Hs as [ | ? ? _ Hall]; subst.
      rewrite Forall_forall in Hall. auto.
    + inversion Hs; subst. inversion Hl1; subst. auto.
Qed.

Lemma firstn_NoDup {A : Type} n (l : list A) : NoDup l -> NoDup (firstn n l).
Proof.
  intros H. rewrite <- (firstn_skipn n l) in H.
  now apply NoDup_app_remove_r in H.
Qed.

Lemma firstn_In {A : Type} n (l : list A) x : In x (firstn n l) -> In x l.
Proof.
  intros H. rewrite <- (firstn_skipn n l). apply in_or_app. now left.
Qed.

End PatternExtractor.

(** C9.  [extract_with_patterns] returns, whatever the text, at most 20
    candidates, each with a confidence above 0.3, no two of them with the
    same lowercased name, and each one scoring at least as high as every
    match of the same lowercased name that the scan had found. *)
Theorem extract_with_patterns_bounds (text : string) :
  exists potential out,
    potential_artists text = Return potential /\
    extract_with_patterns text = Return out /\
    List.length out <= 20 /\
    Forall (fun a => gt (confidence a) 0.3 = true) out /\
    NoDup (map (fun a => lower (name a)) out) /\
    (forall a, In a out -> In a potential) /\
    (forall a b, In a out -> In b potential ->
                 lower (name b) = lower (name a) ->
                 PrimFloat.leb (confidence b) (confidence a) = true).
Proof.
  destruct (potential_artists_returns text) as (potential & Hp & Hfloor).
  exists potential, (firstn 20 (unique [] (sort_desc potential))).
  assert (Hin : forall a, In a (firstn 20 (unique [] (sort_desc potential))) ->
                          In a potential).
  { intros a H. apply firstn_In, unique_In in H. now apply sort_desc_In. }
  split; [ exact Hp | ].
  split; [ unfold extract_with_patterns; now rewrite Hp | ].
  split; [ apply firstn_le_length | ].
  split.
  { rewrite Forall_forall in *. intros a H. apply Hfloor, Hin, H. }
  split.
  { change (fun a => lower (name a)) with key.
    rewrite <- firstn_map. apply firstn_NoDup, unique_NoDup. }
  split; [ exact Hin | ].
  intros a b Ha Hb Hk.
  pose proof (Hin a Ha) as Hap.
  apply firstn_In, unique_first in Ha. destruct Ha as (l1 & l2 & E & Hl1).
  change (ranks a b).
  eapply sorted_first_is_best with (l1 := l1) (l2 := l2).
  - rewrite <- E. apply sort_desc_sorted.
    eapply Forall_impl; [ apply above_floor_comparable | exact Hfloor ].
  - apply above_floor_comparable. rewrite Forall_forall in Hfloor. auto.
  - exact Hl1.
  - rewrite <- E. now apply sort_desc_In.
  - exact Hk.
Qed.

(* ================================================================= *)
(** * What the matcher finds *)

Section Matcher.

#[local] Open Scope string_scope.

Lemma orelse_Some a b x :
  orelse a b = Some x -> a = Some x \/ b tt = Some x.
Proof. destruct a; simpl; auto. Qed.

Lemma rep_sound r step greedy :
  sound r step ->
  forall fuel lo hi p s k x,
    rep step greedy fuel lo hi p s k = Some x ->
    exists p' s', steps (Rep greedy lo hi r) p s p' s' /\ k p' s' = Some x.
Proof.
  intros Hstep. induction fuel as [ | fuel IH]; intros lo hi p s k x H;
    rewrite rep_unfold in H; cbv zeta in H.
  - assert (Hstop : (if (lo =? 0)%nat then k p s else None) = Some x).
    { destruct greedy; apply orelse_Some in H; destruct H as [H | H];
        try discriminate; exact H. }
    destruct (Nat.eqb_spec lo 0) as [-> | ]; [ | discriminate ].
    exists p, s. split; [ constructor | exact Hstop ].
  - assert (Hcases :
      (if may_iterate hi then
         step p s (fun p' s' =>
           if (String.length s' <? String.length s)%nat || (0 <? lo)%nat
           then rep step greedy fuel (pred lo) (dec hi) p' s' k else None)
       else None) = Some x
      \/ (if (lo =? 0)%nat then k p s else None) = Some x).
    { destruct greedy; apply orelse_Some in H; tauto. }
    destruct Hcases as [Hmore | Hstop].
    + destruct (may_iterate hi) eqn:Hhi; [ | discriminate ].
      apply Hstep in Hmore. destruct Hmore as (p1 & s1 & Hs1 & Hk).
      destruct (_ || _); [ | discriminate ].
      apply IH in Hk. destruct Hk as (p2 & s2 & Hs2 & Hk).
      exists p2, s2. split; [ | exact Hk ].
      eapply steps_rep_more; eassumption.
    + destruct (Nat.eqb_spec lo 0) as [-> | ]; [ | discriminate ].
      exists p, s. split; [ constructor | exact Hstop ].
Qed.

Lemma run_sound r : sound r (run r).
Proof.
  induction r as [ | f | r1 IH1 r2 IH2 | r1 IH1 r2 IH2 | greedy lo hi r IH | ];
    intros p s k x H; cbn [run] in H.
  - exists p, s. split; [ constructor | exact H ].
  - destruct s as [ | c s]; [ discriminate | ].
    destruct (f c) eqn:E; [ | discriminate ].
    exists (Some c), s. split; [ now constructor | exact H ].
  - apply IH1 in H. destruct H as (p1 & s1 & H1 & H).
    apply IH2 in H. destruct H as (p2 & s2 & H2 & H).
    exists p2, s2. split; [ econstructor; eassumption | exact H ].
  - apply orelse_Some in H. destruct H as [H | H].
    + apply IH1 in H. destruct H as (p' & s' & H1 & H).
      exists p', s'. split; [ now apply steps_alt_l | exact H ].
    + apply IH2 in H. destruct H as (p' & s' & H1 & H).
      exists p', s'. split; [ now apply steps_alt_r | exact H ].
  - eapply rep_sound; eassumption.
  - destruct (xorb _ _) eqn:E; [ | discriminate ].
    exists p, s. split; [ now constructor | exact H ].
Qed.

(** ** The text a run reads *)

Lemma append_assoc (a b c : string) : (a ++ b) ++ c = a ++ (b ++ c).
Proof. induction a as [ | x a IH]; simpl; [ reflexivity | now rewrite IH ]. Qed.

Lemma last_of_app p a b : last_of p (a ++ b) = last_of (last_of p a) b.
Proof. revert p. induction a as [ | x a IH]; intros p; simpl; auto. Qed.

Lemma steps_reads r p s p' s' :
  steps r p s p' s' -> exists w, s = w ++ s' /\ p' = last_of p w.
Proof.
  induction 1 as
    [ p s | f c p s Hf | r1 r2 p s p1 s1 p2 s2 _ IH1 _ IH2
    | r1 r2 p s p' s' _ IH | r1 r2 p s p' s' _ IH | greedy hi r p s
    | greedy lo hi r p s p1 s1 p2 s2 _ _ IH1 _ IH2 | p s Hx ].
  - exists "". auto.
  - exists (String c ""). auto.
  - destruct IH1 as (w1 & -> & ->), IH2 as (w2 & -> & ->).
    exists (w1 ++ w2). now rewrite append_assoc, last_of_app.
  - exact IH.
  - exact IH.
  - exists "". auto.
  - destruct IH1 as (w1 & -> & ->), IH2 as (w2 & -> & ->).
    exists (w1 ++ w2). now rewrite append_assoc, last_of_app.
  - exists "". auto.
Qed.

Lemma length_append (a b : string) :
  String.length (a ++ b) = String.length a + String.length b.
Proof. induction a as [ | x a IH]; simpl; [ reflexivity | now rewrite IH ]. Qed.

Lemma substring_prefix (w s : string) :
  String.substring 0 (String.length w) (w ++ s) = w.
Proof.
  induction w as [ | x w IH]; simpl.
  - destruct s; reflexivity.
  - now rewrite IH.
Qed.

(** A match found at a position is the text some run has read there. *)
Lemma match_len_steps r p s n :
  match_len r p s = Some n ->
  exists w s', s = w ++ s' /\ n = String.length w /\
               steps r p s (last_of p w) s'.
Proof.
  unfold match_len. destruct (run r p s _) as [rest | ] eqn:E; [ | discriminate ].
  intros [= <-]. apply run_sound in E. destruct E as (p' & s' & Hs & [= ->]).
  destruct (steps_reads _ _ _ _ _ Hs) as (w & -> & ->).
  exists w, rest. split; [ reflexivity | split; [ | exact Hs ] ].
  rewrite length_append. lia.
Qed.

Lemma findall_aux_match r s :
  forall p skip m,
    In m (findall_aux r p s skip) ->
    exists q w s', steps r q (w ++ s') (last_of q w) s' /\ m = w.
Proof.
  induction s as [ | c s IH]; intros p skip m; simpl.
  - destruct skip; [ | intros [] ].
    destruct (match_len r p "") as [n | ] eqn:E; [ | intros [] ].
    intros [<- | []]. apply match_len_steps in E.
    destruct E as (w & s' & E & _ & Hs).
    exists p, w, s'. rewrite <- E. split; [ exact Hs | ].
    destruct w; [ reflexivity | discriminate ].
  - destruct skip as [ | skip]; [ | apply IH ].
    destruct (match_len r p (String c s)) as [[ | n] | ] eqn:E.
    + intros [<- | H]; [ | eapply IH; eassumption ].
      apply match_len_steps in E. destruct E as (w & s' & E & Hn & Hs).
      exists p, w, s'. rewrite <- E. split; [ exact Hs | ].
      destruct w; [ reflexivity | discriminate ].
    + intros [<- | H]; [ | eapply IH; eassumption ].
      apply match_len_steps in E. destruct E as (w & s' & E & Hn & Hs).
      assert (Hsub : String.substring 0 (S n) (String c s) = w)
        by (rewrite E, Hn; apply substring_prefix).
      exists p, w, s'. rewrite <- E. split; [ exact Hs | exact Hsub ].
    + apply IH.
Qed.

(** ** Where a pattern's matches begin and end *)

Lemma begins_chr (f g : ascii -> bool) :
  (forall c, g c = true -> f c = true) -> begins f (Chr g).
Proof.
  intros H p s p' s' Hs. inversion Hs; subst. exists c, "". auto.
Qed.

Lemma begins_seq f r1 r2 : begins f r1 -> begins f (Seq r1 r2).
Proof.
  intros H p s p' s' Hs. inversion Hs; subst.
  match goal with H1 : steps r1 _ _ _ _, H2 : steps r2 _ _ _ _ |- _ =>
    apply H in H1; destruct H1 as (c & w & Hc & ->);
    apply steps_reads in H2; destruct H2 as (w2 & -> & _)
  end.
  exists c, (w ++ w2). now rewrite append_assoc.
Qed.

Lemma begins_after_wordb f r : begins f r -> begins f (Seq WordB r).
Proof.
  intros H p s p' s' Hs. inversion Hs; subst.
  match goal with H1 : steps WordB _ _ _ _ |- _ => inversion H1; subst end.
  eauto.
Qed.

Lemma ends_chr (f g : ascii -> bool) :
  (forall c, g c = true -> f c = true) -> ends f (Chr g).
Proof. intros H p s p' s' Hs. inversion Hs; subst. eauto. Qed.

Lemma ends_keeps f r : ends f r -> keeps f r.
Proof. intros H p s p' s' _ Hs. eapply H; eassumption. Qed.

Lemma ends_seq_r f r1 r2 : ends f r2 -> ends f (Seq r1 r2).
Proof. intros H p s p' s' Hs. inversion Hs; subst. eapply H; eassumption. Qed.

Lemma ends_seq_l f r1 r2 : ends f r1 -> keeps f r2 -> ends f (Seq r1 r2).
Proof.
  intros H1 H2 p s p' s' Hs. inversion Hs; subst.
  eapply H2; [ eapply H1 | ]; eassumption.
Qed.

Lemma keeps_seq f r1 r2 : keeps f r1 -> keeps f r2 -> keeps f (Seq r1 r2).
Proof.
  intros H1 H2 p s p' s' Hp Hs. inversion Hs; subst.
  eapply H2; [ eapply H1 | ]; eassumption.
Qed.

Lemma keeps_wordb f : keeps f WordB.
Proof. intros p s p' s' Hp Hs. inversion Hs; subst. exact Hp. Qed.

Lemma keeps_rep f greedy lo hi r : keeps f r -> keeps f (Rep greedy lo hi r).
Proof.
  intros H p s p' s' Hp Hs.
  remember (Rep greedy lo hi r) as rr eqn:E. revert lo hi E Hp.
  induction Hs; intros lo' hi' E Hp; try discriminate.
  - exact Hp.
  - injection E as -> -> -> ->.
    eapply IHHs2; [ reflexivity | ]. eapply H; eassumption.
Qed.

Lemma ends_rep f greedy lo hi r :
  ends f r -> 0 < lo -> ends f (Rep greedy lo hi r).
Proof.
  intros H Hlo p s p' s' Hs. inversion Hs; subst; [ lia | ].
  eapply (keeps_rep f); [ apply ends_keeps, H | | eassumption ].
  eapply H; eassumption.
Qed.

End Matcher.

(* ================================================================= *)
(** * The fuel of a repetition *)

Section Fuel.

#[local] Open Scope string_scope.

Lemma rep_local step greedy :
  local step -> forall fuel lo hi, local (rep step greedy fuel lo hi).
Proof.
  intros Hstep. induction fuel as [ | fuel IH]; intros lo hi p s k1 k2 Hk;
    rewrite !rep_unfold; cbv zeta.
  - rewrite (Hk p s (le_n _)). reflexivity.
  - rewrite (Hk p s (le_n _)).
    assert (Hmore :
      step p s (fun p' s' =>
        if (String.length s' <? String.length s)%nat || (0 <? lo)%nat
        then rep step greedy fuel (pred lo) (dec hi) p' s' k1 else None) =
      step p s (fun p' s' =>
        if (String.length s' <? String.length s)%nat || (0 <? lo)%nat
        then rep step greedy fuel (pred lo) (dec hi) p' s' k2 else None)).
    { apply Hstep. intros p' s' Hlen.
      destruct (_ || _); [ | reflexivity ].
      apply IH. intros q t Ht. apply Hk. lia. }
    now rewrite Hmore.
Qed.

Lemma run_local r : local (run r).
Proof.
  induction r as [ | f | r1 IH1 r2 IH2 | r1 IH1 r2 IH2 | greedy lo hi r IH | ];
    intros p s k1 k2 Hk; cbn [run].
  - apply Hk, le_n.
  - destruct s as [ | c s]; [ reflexivity | ].
    destruct (f c); [ | reflexivity ]. apply Hk. simpl. lia.
  - apply IH1. intros p' s' Hlen. apply IH2. intros q t Ht. apply Hk. lia.
  - now rewrite (IH1 p s k1 k2 Hk), (IH2 p s k1 k2 Hk).
  - now apply rep_local.
  - destruct (xorb _ _); [ apply Hk, le_n | reflexivity ].
Qed.

Lemma run_needs_continuation r p s k :
  (forall p' s', k p' s' = None) -> run r p s k = None.
Proof.
  intros Hk. destruct (run r p s k) as [x | ] eqn:E; [ | reflexivity ].
  apply run_sound in E. destruct E as (p' & s' & _ & E).
  rewrite Hk in E. discriminate.
Qed.

(** The fuel of a repetition is never what stops it: from
    [lo + length s] on, more fuel changes nothing. *)
Lemma rep_enough_fuel r greedy fuel :
  forall fuel' lo hi p s k,
    lo + String.length s <= fuel -> lo + String.length s <= fuel' ->
    rep (run r) greedy fuel lo hi p s k = rep (run r) greedy fuel' lo hi p s k.
Proof.
  assert (Hstuck : forall lo hi p s k n,
    lo + String.length s <= 0 ->
    rep (run r) greedy 0 lo hi p s k = rep (run r) greedy (S n) lo hi p s k).
  { intros lo hi p s k n H0. rewrite !rep_unfold. cbv zeta.
    assert (lo = 0) as -> by lia.
    destruct s as [ | c s]; [ | simpl in H0; lia ].
    rewrite run_needs_continuation by (intros; reflexivity).
    destruct (may_iterate hi); reflexivity. }
  induction fuel as [ | fuel IH]; intros [ | fuel'] lo hi p s k H H'.
  - reflexivity.
  - now apply Hstuck.
  - symmetry. now apply Hstuck.
  - rewrite (rep_unfold _ _ (S fuel)), (rep_unfold _ _ (S fuel')). cbv zeta.
    assert (Hmore :
      run r p s (fun p' s' =>
        if (String.length s' <? String.length s)%nat || (0 <? lo)%nat
        then rep (run r) greedy fuel (pred lo) (dec hi) p' s' k else None) =
      run r p s (fun p' s' =>
        if (String.length s' <? String.length s)%nat || (0 <? lo)%nat
        then rep (run r) greedy fuel' (pred lo) (dec hi) p' s' k else None)).
    { apply run_local. intros p' s' Hlen.
      destruct (Nat.ltb_spec (String.length s') (String.length s));
        destruct (Nat.ltb_spec 0 lo); cbn [orb]; try reflexivity;
        apply IH; lia. }
    now rewrite Hmore.
Qed.

End Fuel.

(* ================================================================= *)
(** * The confidence of a pattern match *)

Section ArtistPatterns.

#[local] Open Scope string_scope.

Lemma begins_rep f greedy lo hi r :
  begins f r -> 0 < lo -> begins f (Rep greedy lo hi r).
Proof.
  intros H Hlo p s p' s' Hs. inversion Hs; subst; [ lia | ].
  match goal with H1 : steps r _ _ _ _, H2 : steps (Rep _ _ _ _) _ _ _ _ |- _ =>
    apply H in H1; destruct H1 as (c & w & Hc & ->);
    apply steps_reads in H2; destruct H2 as (w2 & -> & _)
  end.
  exists c, (w ++ w2). now rewrite append_assoc.
Qed.

Lemma upper_letter c : ascii_upper c = true -> letter c = true.
Proof. unfold letter. now intros ->. Qed.

Lemma lower_letter c : ascii_lower c = true -> letter c = true.
Proof. unfold letter. intros ->. apply orb_true_r. Qed.

Lemma letter_not_space c : letter c = true -> isspace c = false.
Proof.
  unfold letter, ascii_upper, ascii_lower, isspace, between, is_code.
  intros H.
  repeat match goal with
    | |- context [(?a <=? ?b)%nat] => destruct (Nat.leb_spec a b)
    | H : context [(?a <=? ?b)%nat] |- _ => destruct (Nat.leb_spec a b)
    | |- context [(?a =? ?b)%nat] => destruct (Nat.eqb_spec a b)
    end; simpl in *; try reflexivity; try discriminate; lia.
Qed.

Lemma capitalized_begins : begins ascii_upper capitalized.
Proof. apply begins_seq, begins_chr. auto. Qed.

Lemma capitalized_ends : ends letter capitalized.
Proof.
  apply ends_seq_r, ends_rep; [ | lia ].
  apply ends_chr, lower_letter.
Qed.

Lemma artist_patterns_shape p :
  In p artist_patterns -> begins ascii_upper p /\ ends letter p.
Proof.
  pose proof capitalized_begins as Hb. pose proof capitalized_ends as He.
  unfold artist_patterns. cbn [In seq].
  intros [<- | [<- | [<- | [<- | []]]]]; split.
  - apply begins_after_wordb, begins_seq, Hb.
  - apply ends_seq_r, ends_seq_l; [ exact He | ].
    apply keeps_seq; [ | apply keeps_wordb ].
    apply keeps_rep, ends_keeps, ends_seq_r, He.
  - apply begins_after_wordb, begins_seq, begins_rep; [ | lia ].
    apply begins_chr. auto.
  - apply ends_seq_r, ends_seq_l; [ | apply keeps_wordb ].
    apply ends_rep; [ | lia ]. apply ends_chr, upper_letter.
  - apply begins_after_wordb, begins_seq, Hb.
  - apply ends_seq_r, ends_seq_l; [ exact He | ].
    apply keeps_seq; [ | apply keeps_wordb ].
    apply keeps_rep, ends_keeps. do 3 apply ends_seq_r. exact He.
  - apply begins_after_wordb, begins_seq, Hb.
  - apply ends_seq_r, ends_seq_l; [ exact He | ].
    apply keeps_seq; [ | apply keeps_wordb ].
    apply keeps_rep, ends_keeps. do 3 apply ends_seq_r. exact He.
Qed.

Lemma append_inv_tail (a b s : string) : a ++ s = b ++ s -> a = b.
Proof.
  revert b. induction a as [ | x a IH]; intros [ | y b] H; simpl in H.
  - reflexivity.
  - apply (f_equal String.length) in H. simpl in H.
    rewrite length_append in H. lia.
  - apply (f_equal String.length) in H. simpl in H.
    rewrite length_append in H. lia.
  - injection H as -> H. f_equal. now apply IH.
Qed.

Lemma rstrip_last w :
  forall p d, w <> "" -> last_of p w = Some d -> isspace d = false -> rstrip w = w.
Proof.
  induction w as [ | x w IH]; intros p d Hne Hl Hd; [ congruence | ].
  destruct w as [ | y w].
  - simpl in Hl. injection Hl as ->. simpl. now rewrite Hd.
  - assert (Hw : rstrip (String y w) = String y w).
    { apply (IH (Some x) d); [ discriminate | exact Hl | exact Hd ]. }
    change (rstrip (String x (String y w)))
      with (match rstrip (String y w) with
            | "" => if isspace x then "" else String x ""
            | r => String x r
            end).
    now rewrite Hw.
Qed.

(** A match of an artist pattern starts with a capital letter and ends
    with a letter: it has no blank to trim. *)
Lemma artist_match_trimmed pattern line m :
  In pattern artist_patterns -> In m (findall pattern line) ->
  exists c rest, m = String c rest /\ ascii_upper c = true /\ strip m = m.
Proof.
  intros Hp Hm. destruct (artist_patterns_shape _ Hp) as [Hb He].
  apply findall_aux_match in Hm. destruct Hm as (q & w & s' & Hs & ->).
  destruct (Hb _ _ _ _ Hs) as (c & w0 & Hc & E).
  destruct (He _ _ _ _ Hs) as (d & Hl & Hd).
  change (String c (w0 ++ s')) with (String c w0 ++ s') in E.
  apply append_inv_tail in E. subst w.
  exists c, w0. split; [ reflexivity | split; [ exact Hc | ] ].
  unfold strip. cbn [lstrip].
  rewrite (letter_not_space c (upper_letter c Hc)).
  eapply rstrip_last; [ discriminate | exact Hl | ].
  now apply letter_not_space.
Qed.

End ArtistPatterns.

Section Scoring.

Lemma score_of_trimmed c rest line text :
  strip (String c rest) = String c rest ->
  calculate_pattern_confidence (String c rest) line text =
  Return (rule_score (String c rest) line text).
Proof.
  intros Ht. unfold calculate_pattern_confidence, rule_score, clamp_unit.
  cbn [proper_capitalization bind]. rewrite Ht.
  rewrite (String.eqb_sym (strip line)).
  generalize (min 0.2 (of_int (count (lower text) (lower (String c rest))) * 0.05)).
  intros bonus. f_equal.
  destruct (isupper c && any_char islower rest);
    destruct (String c rest =? strip line)%string;
    destruct ((3 <=? List.length (split (String c rest)))%nat
              && (List.length (split (String c rest)) <=? 4)%nat);
    destruct (any_char isdigit (String c rest));
    destruct (1 <? count (lower text) (lower (String c rest)))%Z;
    unfold when; vm_compute; reflexivity.
Qed.

End Scoring.

(** C5.  For every match [m] that one of the artist patterns finds in a
    line, and every document, [calculate_pattern_confidence] returns the
    score of the rule: 0.5, plus 0.2 for a capital first character followed
    by some lowercase character, plus 0.3 when the match is the whole
    trimmed line, plus 0.1 for three or four words, minus 0.2 for a digit,
    plus [min(0.2, occurrences * 0.05)] for a match that occurs more than
    once in the lowercased document, the sum clamped into [0, 1]. *)
Theorem pattern_confidence_rule (pattern : regex) (line full_text m : string) :
  In pattern artist_patterns ->
  In m (findall pattern line) ->
  calculate_pattern_confidence m line full_text = Return (rule_score m line full_text)
  /\ PrimFloat.leb 0 (rule_score m line full_text) = true
  /\ PrimFloat.leb (rule_score m line full_text) 1 = true.
Proof.
  intros Hp Hm.
  destruct (artist_match_trimmed _ _ _ Hp Hm) as (c & rest & -> & _ & Ht).
  split; [ now apply score_of_trimmed | ].
  unfold rule_score, clamp_unit. apply clamp_min_max.
Qed.

Lemma pattern_confidence_rule_witness :
  calculate_pattern_confidence "Simon and Garfunkel"
    "see Simon and Garfunkel tonight" "see Simon and Garfunkel tonight"
  = Return (rule_score "Simon and Garfunkel"
              "see Simon and Garfunkel tonight" "see Simon and Garfunkel tonight")
  /\ PrimFloat.leb 0 (rule_score "Simon and Garfunkel"
              "see Simon and Garfunkel tonight" "see Simon and Garfunkel tonight") = true
  /\ PrimFloat.leb (rule_score "Simon and Garfunkel"
              "see Simon and Garfunkel tonight" "see Simon and Garfunkel tonight") 1 = true.
Proof.
  apply (pattern_confidence_rule
           (seq [WordB; capitalized;
                 plus (seq [plus space; lit "and"; plus space; capitalized]); WordB])).
  - do 3 right. left. reflexivity.
  - vm_compute. tauto.
Defined.

(* ================================================================= *)
(** * The AI adapters *)

Section Adapters.

Variable env : collaborators.

Lemma try_except_returns (body : exc (list artist)) :
  exists l, try_except body (fun _ => Return []) = Return l /\
            (forall l', body = Return l' -> l = l') /\
            (forall e, body = Raise e -> l = []).
Proof.
  destruct body as [l | e]; simpl.
  - exists l. repeat split; congruence.
  - exists []. repeat split; congruence.
Qed.

Lemma for_each_Forall {A : Type} (f : A -> exc (list artist)) (P : artist -> Prop) l :
  (forall x ys, f x = Return ys -> Forall P ys) ->
  forall zs, for_each f l = Return zs -> Forall P zs.
Proof.
  intros Hf. induction l as [ | x l IH]; simpl; intros zs H.
  - injection H as <-. constructor.
  - destruct (f x) as [ys | ] eqn:Ex; [ | discriminate ]. simpl in H.
    destruct (for_each f l) as [ws | ]; [ | discriminate ]. simpl in H.
    injection H as <-. apply Forall_app. eauto.
Qed.

Lemma strip_idempotent s : strip (strip s) = strip s.
Proof.
  unfold strip.
  assert (H : lstrip (rstrip (lstrip s)) = rstrip (lstrip s)).
  { destruct (rstrip (lstrip s)) as [ | c r] eqn:E; [ reflexivity | ].
    destruct (rstrip_head _ _ _ E) as [r' E'].
    pose proof (lstrip_head _ _ _ E') as Hc.
    cbn [lstrip]. now rewrite Hc. }
  rewrite H. apply rstrip_idempotent.
Qed.

Lemma gemini_entry_valid entry ys :
  Gemini.gemini_entry env entry = Return ys -> Forall gemini_valid ys.
Proof.
  unfold Gemini.gemini_entry.
  destruct entry as [ | | | | | | fields]; try (intros [= <-]; constructor).
  destruct (get "name" fields) as [[ | | | | s | | ] | ]; simpl;
    try discriminate.
  - destruct (String.eqb_spec (strip s) "") as [ | Hne]; simpl;
      [ intros [= <-]; constructor | ].
    destruct (negb _); [ intros [= <-]; constructor | ].
    destruct (to_float env _) as [f | ]; simpl; [ | discriminate ].
    destruct (Gemini._is_likely_artist_name (strip s)) eqn:El;
      intros [= <-]; constructor; [ | constructor ].
    unfold gemini_valid. simpl.
    destruct (clamp_max_min f) as [H0 H1].
    repeat split; eauto using strip_idempotent.
  - intros [= <-]. constructor.
Qed.

Lemma parse_gemini_response_valid response_text :
  exists l, Gemini._parse_gemini_response env response_text = Return l /\
            Forall gemini_valid l.
Proof.
  unfold Gemini._parse_gemini_response.
  destruct (Gemini.parse_body env response_text) as [l | e] eqn:E; simpl;
    [ | exists []; auto ].
  exists l. split; [ reflexivity | ].
  unfold Gemini.parse_body in E.
  destruct (search _ _) as [json_str | ]; [ | injection E as <-; constructor ].
  destruct (json_loads env json_str) as [v | ]; simpl in E; [ | discriminate ].
  destruct (iterate v) as [entries | ]; simpl in E; [ | discriminate ].
  eapply for_each_Forall; [ | exact E ]. apply gemini_entry_valid.
Qed.

Lemma read_response_valid response_text :
  exists l, Gemini.read_response env response_text = Return l /\
            Forall gemini_valid l.
Proof.
  unfold Gemini.read_response. destruct response_text.
  - exists []. auto.
  - apply parse_gemini_response_valid.
Qed.

(** Both extraction methods of the Gemini service end in the same way. *)
Lemma gemini_call_valid (self : Gemini.GeminiService) (call : exc string) :
  exists l,
    (if negb (Gemini.is_available self) then Return []
     else try_except (response_text <- call ;; Gemini.read_response env response_text)
                     (fun _ => Return [])) = Return l /\
    Forall gemini_valid l.
Proof.
  destruct (negb _); [ exists []; auto | ].
  destruct call as [r | e]; simpl; [ | exists []; auto ].
  destruct (read_response_valid r) as (l & -> & Hl). simpl. eauto.
Qed.

Lemma vertex_entry_valid entry ys :
  Service.vertex_entry env entry = Return ys -> Forall vertex_valid ys.
Proof.
  unfold Service.vertex_entry.
  destruct entry as [ | | | | | | fields]; try (intros [= <-]; constructor).
  destruct (get "name" fields) as [n | ]; [ | intros [= <-]; constructor ].
  destruct (get "confidence" fields) as [c | ]; [ | intros [= <-]; constructor ].
  destruct (to_float env c) as [f | ]; simpl; [ | discriminate ].
  destruct (String.eqb_spec (strip (to_str env n)) "") as [ | Hne]; simpl;
    [ intros [= <-]; constructor | ].
  destruct (PrimFloat.leb 0 f) eqn:E0; simpl; [ | intros [= <-]; constructor ].
  destruct (PrimFloat.leb f 1) eqn:E1; simpl; intros [= <-]; constructor;
    [ | constructor ].
  unfold vertex_valid. simpl. repeat split; auto using strip_idempotent.
Qed.

Lemma extract_with_vertex_ai_valid self text :
  exists l, Service.extract_with_vertex_ai env self text = Return l /\
            Forall vertex_valid l.
Proof.
  unfold Service.extract_with_vertex_ai.
  destruct (Service.no_project self); [ exists []; auto | ].
  destruct (Service.vertex_body env text) as [l | e] eqn:E; simpl;
    [ | exists []; auto ].
  exists l. split; [ reflexivity | ].
  unfold Service.vertex_body in E.
  destruct (predict env _) as [r | ]; simpl in E; [ | discriminate ].
  destruct (search _ _) as [json_str | ]; [ | injection E as <-; constructor ].
  destruct (json_loads env json_str) as [v | ]; simpl in E; [ | discriminate ].
  destruct (iterate v) as [entries | ]; simpl in E; [ | discriminate ].
  eapply for_each_Forall; [ | exact E ]. apply vertex_entry_valid.
Qed.

Lemma extract_with_gemini_valid self text :
  exists l, Service.extract_with_gemini env self text = Return l /\
            Forall gemini_valid l.
Proof.
  unfold Service.extract_with_gemini.
  destruct (negb _); [ exists []; auto | ].
  destruct (gemini_call_valid (Service.gemini_service self)
              (generate_content env (_create_artist_extraction_prompt env text)))
    as (l & E & Hl).
  unfold Gemini.extract_artists_from_text. rewrite E. simpl. eauto.
Qed.

(** ** Replies that cannot be used *)



(** ** Where the returned entries come from *)

Lemma picked_none {A : Type} (l : list A) : picked [] l.
Proof. induction l; constructor; assumption. Qed.

Lemma for_each_picked (f : json -> exc (list artist))
    (P : json -> artist -> Prop) entries :
  (forall x ys, f x = Return ys -> ys = [] \/ exists a, ys = [a] /\ P x a) ->
  forall l, for_each f entries = Return l ->
  exists kept, picked kept entries /\ Forall2 P kept l.
Proof.
  intros Hf. induction entries as [ | x entries IH]; simpl; intros l H.
  - injection H as <-. exists []. split; constructor.
  - destruct (f x) as [ys | ] eqn:Ex; [ | discriminate ]. simpl in H.
    destruct (for_each f entries) as [zs | ]; [ | discriminate ]. simpl in H.
    injection H as <-.
    destruct (IH zs eq_refl) as (kept & Hk & Hz).
    destruct (Hf x ys Ex) as [-> | (a & -> & Ha)].
    + exists kept. split; [ constructor; assumption | assumption ].
    + exists (x :: kept). split; constructor; assumption.
Qed.

Lemma gemini_entry_reads entry ys :
  Gemini.gemini_entry env entry = Return ys ->
  ys = [] \/ exists a, ys = [a] /\ gemini_reads env entry a.
Proof.
  unfold Gemini.gemini_entry.
  destruct entry as [ | | | | | | fields]; try (intros [= <-]; auto).
  destruct (get "name" fields) as [[ | | | | s | | ] | ] eqn:En; simpl;
    try discriminate.
  - destruct (String.eqb (strip s) ""); simpl; [ intros [= <-]; auto | ].
    destruct (is_number _) eqn:Ei; simpl; [ | intros [= <-]; auto ].
    destruct (to_float env _) as [f | ] eqn:Ef; simpl; [ | discriminate ].
    destruct (Gemini._is_likely_artist_name (strip s));
      intros [= <-]; [ right | auto ].
    eexists. split; [ reflexivity | ].
    exists fields, s, f. cbv zeta. auto.
  - intros [= <-]. auto.
Qed.

Lemma vertex_entry_reads entry ys :
  Service.vertex_entry env entry = Return ys ->
  ys = [] \/ exists a, ys = [a] /\ vertex_reads env entry a.
Proof.
  unfold Service.vertex_entry.
  destruct entry as [ | | | | | | fields]; try (intros [= <-]; auto).
  destruct (get "name" fields) as [n | ] eqn:En; [ | intros [= <-]; auto ].
  destruct (get "confidence" fields) as [c | ] eqn:Ec; [ | intros [= <-]; auto ].
  destruct (to_float env c) as [f | ] eqn:Ef; simpl; [ | discriminate ].
  destruct (_ && _); intros [= <-]; [ right | auto ].
  eexists. split; [ reflexivity | ].
  exists fields, n, c, f. auto.
Qed.

Lemma gemini_call_reads (self : Gemini.GeminiService) (call : exc string) l :
  (if negb (Gemini.is_available self) then Return []
   else try_except (response_text <- call ;; Gemini.read_response env response_text)
                   (fun _ => Return [])) = Return l ->
  read_from env Gemini.first_bracket_re gemini_reads call l.
Proof.
  destruct (negb _); [ intros [= <-]; left; reflexivity | ].
  destruct call as [r | e]; simpl; [ | intros [= <-]; left; reflexivity ].
  unfold Gemini.read_response.
  destruct r as [ | c r]; [ intros [= <-]; left; reflexivity | ].
  set (reply := String c r).
  unfold Gemini._parse_gemini_response.
  destruct (Gemini.parse_body env reply) as [l' | e] eqn:E; simpl;
    intros [= <-]; [ | left; reflexivity ].
  unfold Gemini.parse_body in E.
  destruct (search _ _) as [json_str | ] eqn:Es;
    [ | injection E as <-; left; reflexivity ].
  destruct (json_loads env json_str) as [v | ] eqn:Ej; simpl in E; [ | discriminate ].
  destruct (iterate v) as [entries | ] eqn:Ei; simpl in E; [ | discriminate ].
  destruct (for_each_picked _ (gemini_reads env) entries gemini_entry_reads _ E)
    as (kept & Hk & Hl).
  right. exists entries, kept. split; [ | auto ].
  exists reply, json_str, v. auto.
Qed.

Lemma extract_with_gemini_reads self text l :
  Service.extract_with_gemini env self text = Return l ->
  read_from env Gemini.first_bracket_re gemini_reads
    (generate_content env (_create_artist_extraction_prompt env text)) l.
Proof.
  unfold Service.extract_with_gemini.
  destruct (negb _); [ intros [= <-]; left; reflexivity | ].
  destruct (Gemini.extract_artists_from_text env (Service.gemini_service self) text)
    as [l' | e] eqn:E; simpl; intros [= <-]; [ | left; reflexivity ].
  exact (gemini_call_reads _ _ _ E).
Qed.

Lemma extract_with_vertex_ai_reads self text l :
  Service.extract_with_vertex_ai env self text = Return l ->
  read_from env Service.bracket_re vertex_reads
    (predict env (vertex_prompt env text)) l.
Proof.
  unfold Service.extract_with_vertex_ai.
  destruct (Service.no_project self); [ intros [= <-]; left; reflexivity | ].
  destruct (Service.vertex_body env text) as [l' | e] eqn:E; simpl;
    intros [= <-]; [ | left; reflexivity ].
  unfold Service.vertex_body in E.
  destruct (predict env _) as [r | ] eqn:Ep; simpl in E; [ | discriminate ].
  destruct (search _ _) as [json_str | ] eqn:Es;
    [ | injection E as <-; left; reflexivity ].
  destruct (json_loads env json_str) as [v | ] eqn:Ej; simpl in E; [ | discriminate ].
  destruct (iterate v) as [entries | ] eqn:Ei; simpl in E; [ | discriminate ].
  destruct (for_each_picked _ (vertex_reads env) entries vertex_entry_reads _ E)
    as (kept & Hk & Hl).
  right. exists entries, kept. split; [ | auto ].
  exists r, json_str, v. auto.
Qed.

(** ** An entry with a number out of range *)

Lemma gemini_entry_clamps fields s v f :
  get "name" fields = Some (JStr s) -> strip s <> "" ->
  get "confidence" fields = Some v -> is_number v = true ->
  to_float env v = Return f ->
  Gemini.gemini_entry env (JObj fields) =
    Return (if Gemini._is_likely_artist_name (strip s)
            then [ {| name := strip s; confidence := max 0.0 (min 1.0 f);
                      method := "gemini"; context := "" |} ]
            else []).
Proof.
  intros En Hs Ec Hv Ef. unfold Gemini.gemini_entry. rewrite En, Ec. simpl.
  destruct (String.eqb_spec (strip s) ""); [ contradiction | ].
  rewrite Hv, Ef. simpl.
  destruct (Gemini._is_likely_artist_name (strip s)); reflexivity.
Qed.

Lemma vertex_entry_drops fields n c f :
  get "name" fields = Some n -> get "confidence" fields = Some c ->
  to_float env c = Return f ->
  PrimFloat.leb 0 f && PrimFloat.leb f 1 = false ->
  Service.vertex_entry env (JObj fields) = Return [].
Proof.
  intros En Ec Ef Hr. unfold Service.vertex_entry. rewrite En, Ec, Ef. simpl.
  rewrite <- andb_assoc, Hr, andb_false_r. reflexivity.
Qed.

End Adapters.

(* ================================================================= *)
(** * The pipeline, the catalog matcher and the reconciler *)

Section Pipeline.

Variable env : collaborators.

Lemma extract_artists_returns self text use_ai threshold :
  exists pattern_artists ai_artists r,
    Service.extract_artists env self text use_ai threshold = Return r /\
    Service.artists r = reconcile (pattern_artists ++ ai_artists) threshold.
Proof.
  unfold Service.extract_artists.
  destruct (extract_with_patterns_returns (clean_text text)) as (out & ->).
  cbn [bind]. exists out.
  destruct use_ai.
  - destruct (extract_with_gemini_valid env self (clean_text text)) as (l & -> & _).
    cbn [bind].
    destruct (Service.is_empty l).
    + destruct (extract_with_vertex_ai_valid env self (clean_text text)) as (l' & -> & _).
      cbn [bind]. eexists _, _. split; reflexivity.
    + cbn [bind]. eexists _, _. split; reflexivity.
  - cbn [bind]. eexists _, _. split; reflexivity.
Qed.

Lemma dict_set_values_In k v d x :
  In x (values (dict_set k v d)) -> x = v \/ In x (values d).
Proof.
  unfold values. rewrite !in_map_iff. intros ([k' x'] & E & H). simpl in E. subst x'.
  apply dict_set_values in H. destruct H as [[= _ ->] | H]; [ now left | right ].
  exists (k', x). auto.
Qed.

Lemma merge_step_values d a x :
  In x (values (merge_step d a)) -> x = a \/ In x (values d).
Proof.
  unfold merge_step. destruct (dict_get _ d) as [kept | ].
  - destruct (gt _ _); [ apply dict_set_values_In | auto ].
  - apply dict_set_values_In.
Qed.

Lemma fold_merge_values l : forall d x,
  In x (values (fold_left merge_step l d)) -> In x l \/ In x (values d).
Proof.
  induction l as [ | a l IH]; intros d x H; simpl in *; [ auto | ].
  apply IH in H. destruct H as [H | H]; [ auto | ].
  apply merge_step_values in H. destruct H as [-> | H]; auto.
Qed.

Lemma reconcile_from_candidates all threshold x :
  In x (reconcile all threshold) -> In x all.
Proof.
  intros H. apply reconcile_In in H. destruct H as [H _].
  apply fold_merge_values in H. destruct H as [H | []]. exact H.
Qed.

Lemma merge_step_covers d seen a :
  covers d seen -> Forall comparable (values d) -> comparable a ->
  covers (merge_step d a) (a :: seen) /\ Forall comparable (values (merge_step d a)).
Proof.
  intros Hc Hd Ha. split.
  - intros x Hx. unfold merge_step. fold (key a).
    destruct (dict_get (key a) d) as [kept | ] eqn:Ek.
    + assert (Hkept : comparable kept).
      { rewrite Forall_forall in Hd. eapply Hd, dict_get_In, Ek. }
      destruct (gt (confidence a) (confidence kept)) eqn:Eg.
      * destruct (string_dec (key x) (key a)) as [E | Hne].
        -- rewrite E, dict_get_set_same. exists a. split; [ reflexivity | ].
           destruct Hx as [<- | Hx]; [ exact Ha | ].
           destruct (Hc x Hx) as (v & Hv & Hr). rewrite E, Ek in Hv.
           injection Hv as <-. unfold ranks in *.
           eapply leb_trans; [ exact Hr | apply ltb_leb, Eg ].
        -- rewrite dict_get_set_other by assumption.
           destruct Hx as [<- | Hx]; [ congruence | auto ].
      * destruct Hx as [<- | Hx]; [ | auto ].
        exists kept. split; [ exact Ek | ].
        unfold ranks. apply leb_total; assumption.
    + destruct (string_dec (key x) (key a)) as [E | Hne].
      * rewrite E, dict_get_set_same. exists a. split; [ reflexivity | ].
        destruct Hx as [<- | Hx]; [ exact Ha | ].
        destruct (Hc x Hx) as (v & Hv & _). rewrite E, Ek in Hv. discriminate.
      * rewrite dict_get_set_other by assumption.
        destruct Hx as [<- | Hx]; [ congruence | auto ].
  - apply Forall_forall. intros x Hx. apply merge_step_values in Hx.
    destruct Hx as [-> | Hx]; [ exact Ha | ].
    rewrite Forall_forall in Hd. auto.
Qed.

Lemma fold_merge_covers l : forall d seen,
  covers d seen -> Forall comparable (values d) -> Forall comparable l ->
  forall x, In x l \/ In x seen ->
            exists v, dict_get (key x) (fold_left merge_step l d) = Some v /\ ranks v x.
Proof.
  induction l as [ | a l IH]; intros d seen Hc Hd Hl x Hx; simpl.
  - destruct Hx as [[] | Hx]. auto.
  - inversion Hl as [ | ? ? Ha Hl']; subst.
    destruct (merge_step_covers d seen a Hc Hd Ha) as [Hc' Hd'].
    apply (IH _ (a :: seen) Hc' Hd' Hl').
    simpl in *. tauto.
Qed.

(** What the selection loop of [search_artist] holds in its two variables. *)
Lemma best_of_invariant artist_name all artists :
  forall best_match best_score,
    incl artists all ->
    (forall b, best_match = Some b ->
               In b all /\
               best_score = Spotify.calculate_artist_match_score artist_name (entry_name b)) ->
    forall b s, Spotify.best_of artist_name artists best_match best_score = (Some b, s) ->
                In b all /\
                s = Spotify.calculate_artist_match_score artist_name (entry_name b).
Proof.
  induction artists as [ | a artists IH]; intros bm bs Hincl Hinv b s; simpl.
  - intros [= -> ->]. now apply Hinv.
  - assert (Hincl' : incl artists all) by (intros x Hx; apply Hincl; now right).
    destruct (gt _ bs); apply IH; auto.
    intros b' [= <-]. split; [ apply Hincl; now left | reflexivity ].
Qed.

End Pipeline.

(** C1 (as amended).  With the query "Beatles" and the single catalog entry
    "The Beatles Tribute Band", the token overlap is 1 word of 4, that is
    0.25, but the matcher never gets there: "beatles" is a substring of
    "the beatles tribute band", so the score is 0.9, which exceeds 0.7, and
    the entry is returned as the match. *)
Theorem beatles_substring_match :
  contains (strip (lower "Beatles")) (strip (lower "The Beatles Tribute Band")) = true /\
  Spotify.calculate_artist_match_score "Beatles" "The Beatles Tribute Band" = 0.9%float /\
  gt 0.9 0.7 = true /\
  Spotify.select_match "Beatles" [tribute_band] = Some tribute_band /\
  Spotify.search_artist (sample_env "" JNull [tribute_band])
    {| Spotify.is_configured := true |} "Beatles" = Return (Some tribute_band) /\
  List.length (Spotify.intersection (Spotify.set_of (split "beatles"))
                 (Spotify.set_of (split "the beatles tribute band"))) = 1 /\
  List.length (Spotify.union (Spotify.set_of (split "beatles"))
                 (Spotify.set_of (split "the beatles tribute band"))) = 4 /\
  (of_int 1 / of_int 4)%float = 0.25%float.
Proof. repeat split; vm_compute; reflexivity. Qed.

(** C1 (as stated) fails: the score is not 0.25 and a match is returned. *)
Lemma beatles_not_rejected :
  Spotify.calculate_artist_match_score "Beatles" "The Beatles Tribute Band" <> 0.25%float /\
  PrimFloat.ltb 0.7 (Spotify.calculate_artist_match_score "Beatles" "The Beatles Tribute Band") = true /\
  Spotify.select_match "Beatles" [tribute_band] <> None.
Proof.
  split; [ | split ].
  - intros H. apply (f_equal (fun x => PrimFloat.eqb x 0.25)) in H.
    vm_compute in H. discriminate.
  - vm_compute. reflexivity.
  - vm_compute. discriminate.
Qed.

(** C3.  When one lowercased name occurs once in each of two candidate sets,
    at [a] in the first and at [b] in the second, every entry of that name
    in the reconciled list is the candidate with the greater confidence,
    with its confidence and method tag; on equal confidences it is [a],
    the one inserted first; and that candidate is in the list as soon as
    its confidence reaches the threshold. *)
Theorem reconcile_keeps_greater (p1 q1 p2 q2 : list artist) (a b : artist)
    (threshold : float) :
  lower (name b) = lower (name a) ->
  Forall (fun x => lower (name x) <> lower (name a)) (p1 ++ q1 ++ p2 ++ q2) ->
  let out := reconcile ((p1 ++ a :: q1) ++ (p2 ++ b :: q2)) threshold in
  let winner := if gt (confidence b) (confidence a) then b else a in
  (PrimFloat.ltb (confidence a) (confidence b) = true -> winner = b) /\
  (PrimFloat.ltb (confidence b) (confidence a) = true -> winner = a) /\
  (PrimFloat.eqb (confidence a) (confidence b) = true -> winner = a) /\
  (forall e, In e out -> lower (name e) = lower (name a) ->
             e = winner /\ confidence e = confidence winner /\ method e = method winner) /\
  (ge (confidence winner) threshold = true -> In winner out).
Proof.
  intros Hk Hothers out winner.
  pose proof (merge_two p1 q1 p2 q2 a b Hk Hothers) as Hget.
  fold winner in Hget.
  split; [ | split; [ | split; [ | split ] ] ].
  - unfold winner, gt. now intros ->.
  - unfold winner, gt. intros H. now rewrite (ltb_asym _ _ H).
  - unfold winner, gt. intros H. apply eqb_not_ltb in H. destruct H as [-> _].
    reflexivity.
  - intros e He Hke. apply reconcile_In in He. destruct He as [He _].
    apply well_keyed_get in He; [ | apply merge_well_keyed ].
    unfold key in He. rewrite Hke in He. unfold key in Hget.
    rewrite Hget in He. injection He as <-. auto.
  - intros Hge. apply reconcile_In. split; [ | exact Hge ].
    eapply dict_get_In. exact Hget.
Qed.

Lemma reconcile_keeps_greater_witness :
  (PrimFloat.ltb 0.6 0.9 = true -> daft_punk_gemini = daft_punk_gemini) /\
  (PrimFloat.ltb 0.9 0.6 = true -> daft_punk_gemini = daft_punk_pattern) /\
  (PrimFloat.eqb 0.6 0.9 = true -> daft_punk_gemini = daft_punk_pattern) /\
  (forall e, In e (reconcile ([daft_punk_pattern] ++ [daft_punk_gemini]) 0.5) ->
             lower (name e) = "daft punk" ->
             e = daft_punk_gemini /\ confidence e = 0.9%float /\ method e = "gemini") /\
  (ge 0.9 0.5 = true ->
   In daft_punk_gemini (reconcile ([daft_punk_pattern] ++ [daft_punk_gemini]) 0.5)).
Proof.
  apply (reconcile_keeps_greater [] [] [] [] daft_punk_pattern daft_punk_gemini 0.5).
  - vm_compute. reflexivity.
  - constructor.
Defined.

(** C6.  Whatever the candidate sets and the threshold, no two entries of
    the reconciled list have the same lowercased name; so it is for the
    list [extract_artists] returns, which it always does. *)
Theorem reconcile_no_duplicate_names (env : collaborators)
    (self : Service.ArtistExtractionService) (text : string) (use_ai : bool)
    (pattern_artists ai_artists : list artist) (threshold : float) :
  NoDup (map (fun a => lower (name a)) (reconcile (pattern_artists ++ ai_artists) threshold)) /\
  (forall i j A B,
      nth_error (reconcile (pattern_artists ++ ai_artists) threshold) i = Some A ->
      nth_error (reconcile (pattern_artists ++ ai_artists) threshold) j = Some B ->
      i <> j -> lower (name A) <> lower (name B)) /\
  (exists r, Service.extract_artists env self text use_ai threshold = Return r /\
             NoDup (map (fun a => lower (name a)) (Service.artists r))).
Proof.
  split; [ apply reconcile_keys_NoDup | split ].
  - intros i j A B Hi Hj Hij Hk.
    pose proof (reconcile_keys_NoDup (pattern_artists ++ ai_artists) threshold) as Hnd.
    rewrite NoDup_nth_error in Hnd. apply Hij, Hnd.
    + rewrite length_map. apply nth_error_Some. congruence.
    + rewrite !nth_error_map, Hi, Hj. simpl. unfold key. now rewrite Hk.
  - destruct (extract_artists_returns env self text use_ai threshold)
      as (p & ai & r & Hr & Ha).
    exists r. split; [ exact Hr | ]. rewrite Ha. apply reconcile_keys_NoDup.
Qed.

(** C7.  Whatever the candidate sets and the threshold, every entry of the
    reconciled list has a confidence greater than or equal to the
    threshold; so it is for the list [extract_artists] returns. *)
Theorem reconcile_confidence_floor (env : collaborators)
    (self : Service.ArtistExtractionService) (text : string) (use_ai : bool)
    (pattern_artists ai_artists : list artist) (threshold : float) :
  Forall (fun a => PrimFloat.leb threshold (confidence a) = true)
         (reconcile (pattern_artists ++ ai_artists) threshold) /\
  (exists r, Service.extract_artists env self text use_ai threshold = Return r /\
             Forall (fun a => PrimFloat.leb threshold (confidence a) = true)
                    (Service.artists r)).
Proof.
  assert (H : forall all, Forall (fun a => PrimFloat.leb threshold (confidence a) = true)
                                 (reconcile all threshold)).
  { intros all. apply Forall_forall. intros a Ha.
    apply reconcile_In in Ha. exact (proj2 Ha). }
  split; [ apply H | ].
  destruct (extract_artists_returns env self text use_ai threshold)
    as (p & ai & r & Hr & Ha).
  exists r. split; [ exact Hr | ]. rewrite Ha. apply H.
Qed.

(** C4 (as amended).  The two Gemini adapters (text and vision, and the
    service's call of the first) return only entries read from the model's
    reply whose name is trimmed and not empty, whose name passes
    [_is_likely_artist_name] (no excluded term, no time, no price), and
    whose confidence is the number of that entry clamped into [0, 1]: an
    entry with a name that passes and a number out of range is kept, with
    the number clamped.  The Vertex AI adapter returns only entries read
    from the model's reply whose name is trimmed and not empty and whose
    confidence is the number of that entry as it is, lying in [0, 1]: an
    entry with a number out of that range is dropped, not clamped. *)
Theorem ai_adapters_validate (env : collaborators) (gemini : Gemini.GeminiService)
    (self : Service.ArtistExtractionService) (text image_path : string) :
  (exists l, Gemini.extract_artists_from_text env gemini text = Return l /\
             Forall gemini_valid l /\
             read_from env Gemini.first_bracket_re gemini_reads
               (generate_content env (_create_artist_extraction_prompt env text)) l) /\
  (exists l, Gemini.extract_artists_from_image env gemini image_path = Return l /\
             Forall gemini_valid l /\
             read_from env Gemini.first_bracket_re gemini_reads
               (generate_content_image env (_create_image_analysis_prompt env)
                  image_path) l) /\
  (exists l, Service.extract_with_gemini env self text = Return l /\
             Forall gemini_valid l /\
             read_from env Gemini.first_bracket_re gemini_reads
               (generate_content env (_create_artist_extraction_prompt env text)) l) /\
  (exists l, Service.extract_with_vertex_ai env self text = Return l /\
             Forall vertex_valid l /\
             read_from env Service.bracket_re vertex_reads
               (predict env (vertex_prompt env text)) l) /\
  (forall fields s v f,
      get "name" fields = Some (JStr s) -> strip s <> "" ->
      get "confidence" fields = Some v -> is_number v = true ->
      to_float env v = Return f ->
      Gemini.gemini_entry env (JObj fields) =
        Return (if Gemini._is_likely_artist_name (strip s)
                then [ {| name := strip s; confidence := max 0.0 (min 1.0 f);
                          method := "gemini"; context := "" |} ]
                else [])) /\
  (forall fields n c f,
      get "name" fields = Some n -> get "confidence" fields = Some c ->
      to_float env c = Return f ->
      PrimFloat.leb 0 f && PrimFloat.leb f 1 = false ->
      Service.vertex_entry env (JObj fields) = Return []).
Proof.
  split.
  { destruct (gemini_call_valid env gemini
                (generate_content env (_create_artist_extraction_prompt env text)))
      as (l & E & Hl).
    exists l. split; [ exact E | ]. split; [ exact Hl | ].
    exact (gemini_call_reads env _ _ _ E). }
  split.
  { destruct (gemini_call_valid env gemini
                (generate_content_image env (_create_image_analysis_prompt env)
                   image_path)) as (l & E & Hl).
    exists l. split; [ exact E | ]. split; [ exact Hl | ].
    exact (gemini_call_reads env _ _ _ E). }
  split.
  { destruct (extract_with_gemini_valid env self text) as (l & E & Hl).
    exists l. split; [ exact E | ]. split; [ exact Hl | ].
    exact (extract_with_gemini_reads env _ _ _ E). }
  split.
  { destruct (extract_with_vertex_ai_valid env self text) as (l & E & Hl).
    exists l. split; [ exact E | ]. split; [ exact Hl | ].
    exact (extract_with_vertex_ai_reads env _ _ _ E). }
  split.
  - apply gemini_entry_clamps.
  - apply vertex_entry_drops.
Qed.

(** C4 (as stated) fails for Vertex AI: on a reply naming "festival" with
    confidence 0.9 and "Daft Punk" with confidence 1.5 it returns
    "festival", an excluded term, and drops "Daft Punk" instead of clamping
    its confidence; Gemini, on the same reply, returns "Daft Punk" at 1.0. *)
Lemma vertex_keeps_excluded_term :
  Service.extract_with_vertex_ai (sample_env sample_reply sample_reply_parsed [])
    {| Service.project_id := Some "festlist";
       Service.gemini_service := {| Gemini.model_is_set := false |} |}
    "FESTIVAL
Daft Punk"
  = Return [ {| name := "festival"; confidence := 0.9;
                method := "vertex_ai"; context := "" |} ] /\
  Gemini._is_likely_artist_name "festival" = false /\
  Gemini.extract_artists_from_text (sample_env sample_reply sample_reply_parsed [])
    {| Gemini.model_is_set := true |}
    "FESTIVAL
Daft Punk"
  = Return [ {| name := "Daft Punk"; confidence := 1.0;
                method := "gemini"; context := "" |} ].
Proof. repeat split; vm_compute; reflexivity. Qed.


Section Normalisation.

Lemma lower_char_idempotent c : lower_char (lower_char c) = lower_char c.
Proof. destruct c as [[] [] [] [] [] [] [] []]; reflexivity. Qed.

Lemma isspace_lower_char c : isspace (lower_char c) = isspace c.
Proof. destruct c as [[] [] [] [] [] [] [] []]; reflexivity. Qed.

Lemma lower_idempotent s : lower (lower s) = lower s.
Proof.
  induction s as [ | c s IH]; simpl; [ reflexivity | ].
  now rewrite lower_char_idempotent, IH.
Qed.

Lemma lower_lstrip s : lower (lstrip s) = lstrip (lower s).
Proof.
  induction s as [ | c s IH]; simpl; [ reflexivity | ].
  rewrite isspace_lower_char. destruct (isspace c); [ exact IH | reflexivity ].
Qed.

Lemma lower_rstrip s : lower (rstrip s) = rstrip (lower s).
Proof.
  induction s as [ | c s IH]; simpl; [ reflexivity | ].
  rewrite <- IH, isspace_lower_char.
  destruct (rstrip s); simpl; [ destruct (isspace c) | ]; reflexivity.
Qed.

Lemma lower_strip s : lower (strip s) = strip (lower s).
Proof. unfold strip. now rewrite lower_rstrip, lower_lstrip. Qed.

(** The form of a name that [calculate_artist_match_score] compares. *)
Lemma normal_form_lower s : strip (lower (lower s)) = strip (lower s).
Proof. now rewrite lower_idempotent. Qed.

Lemma normal_form_strip s : strip (lower (strip s)) = strip (lower s).
Proof. now rewrite lower_strip, strip_idempotent. Qed.

End Normalisation.

(** X1.  The match score depends on the two names only up to letter case
    and surrounding whitespace: putting either name in lower case, or
    trimming it, leaves the score as it is. *)
Theorem match_score_ignores_case_and_blanks (search_name found_name : string) :
  Spotify.calculate_artist_match_score (lower search_name) found_name =
    Spotify.calculate_artist_match_score search_name found_name /\
  Spotify.calculate_artist_match_score (strip search_name) found_name =
    Spotify.calculate_artist_match_score search_name found_name /\
  Spotify.calculate_artist_match_score search_name (lower found_name) =
    Spotify.calculate_artist_match_score search_name found_name /\
  Spotify.calculate_artist_match_score search_name (strip found_name) =
    Spotify.calculate_artist_match_score search_name found_name.
Proof.
  unfold Spotify.calculate_artist_match_score.
  rewrite !normal_form_lower, !normal_form_strip. auto.
Qed.

(** X2.  The entry [search_artist] selects is one of the search results, and
    its score against the query strictly exceeds 0.7. *)
Theorem selected_match_exceeds_threshold (artist_name : string)
    (artists : list catalog_entry) (found : catalog_entry) :
  Spotify.select_match artist_name artists = Some found ->
  In found artists /\
  gt (Spotify.calculate_artist_match_score artist_name (entry_name found)) 0.7 = true.
Proof.
  unfold Spotify.select_match. destruct artists as [ | a artists]; [ discriminate | ].
  destruct (Spotify.best_of artist_name (a :: artists) None 0) as [[b | ] s] eqn:E;
    [ | discriminate ].
  apply (best_of_invariant artist_name (a :: artists)) in E;
    [ | apply incl_refl | discriminate ].
  destruct E as [Hin ->].
  destruct (gt _ 0.7) eqn:Hgt; [ | discriminate ].
  intros [= <-]. auto.
Qed.

Lemma selected_match_exceeds_threshold_witness :
  In tribute_band [tribute_band] /\
  gt (Spotify.calculate_artist_match_score "Beatles" (entry_name tribute_band)) 0.7 = true.
Proof.
  apply selected_match_exceeds_threshold. vm_compute. reflexivity.
Defined.

(** X3.  The reconciled list is a selection of the candidates, sorted by
    descending confidence, as long as no candidate's confidence is a NaN. *)
Theorem reconcile_sorted (all_artists : list artist) (threshold : float) :
  Forall comparable all_artists ->
  StronglySorted (fun a b => PrimFloat.leb (confidence b) (confidence a) = true)
                 (reconcile all_artists threshold) /\
  incl (reconcile all_artists threshold) all_artists.
Proof.
  intros H. split.
  - unfold reconcile. apply sort_desc_sorted.
    apply Forall_forall. intros x Hx. apply filter_In in Hx. destruct Hx as [Hx _].
    apply fold_merge_values in Hx. destruct Hx as [Hx | []].
    rewrite Forall_forall in H. auto.
  - intros x. apply reconcile_from_candidates.
Qed.

Lemma reconcile_sorted_witness :
  StronglySorted (fun a b => PrimFloat.leb (confidence b) (confidence a) = true)
                 (reconcile [daft_punk_pattern; daft_punk_gemini] 0.5) /\
  incl (reconcile [daft_punk_pattern; daft_punk_gemini] 0.5)
       [daft_punk_pattern; daft_punk_gemini].
Proof.
  apply reconcile_sorted. repeat constructor.
Defined.

(** X4.  The examples of the specification: a line that is "Daft Punk" alone
    yields that one candidate with confidence 1.0; "3:00 PM Doors Open"
    yields none; the two Daft Punk candidates reconcile, at threshold 0.5,
    into the one from Gemini. *)
Theorem specification_examples :
  extract_with_patterns "Daft Punk" =
    Return [ {| name := "Daft Punk"; confidence := 1.0;
                method := "pattern_matching"; context := "Daft Punk" |} ] /\
  extract_with_patterns (clean_text "3:00 PM Doors Open") = Return [] /\
  reconcile ([daft_punk_pattern] ++ [daft_punk_gemini]) 0.5 = [daft_punk_gemini].
Proof. repeat split; vm_compute; reflexivity. Qed.

(** X5.  As long as no candidate's confidence is a NaN, an entry of the
    reconciled list has the greatest confidence among all the candidates of
    its lowercased name. *)
Theorem reconcile_keeps_maximum (all_artists : list artist) (threshold : float)
    (e x : artist) :
  Forall comparable all_artists ->
  In e (reconcile all_artists threshold) -> In x all_artists ->
  lower (name x) = lower (name e) ->
  PrimFloat.leb (confidence x) (confidence e) = true.
Proof.
  intros Hall He Hx Hk.
  apply reconcile_In in He. destruct He as [He _].
  apply well_keyed_get in He; [ | apply merge_well_keyed ].
  assert (Hcov : covers [] []) by (intros ? []).
  destruct (fold_merge_covers all_artists [] [] Hcov (Forall_nil _) Hall x (or_introl Hx))
    as (v & Hv & Hr).
  unfold merge in He. unfold key in *. rewrite Hk, He in Hv.
  injection Hv as <-. exact Hr.
Qed.

Lemma reconcile_keeps_maximum_witness :
  PrimFloat.leb (confidence daft_punk_pattern) (confidence daft_punk_gemini) = true.
Proof.
  apply (reconcile_keeps_maximum [daft_punk_pattern; daft_punk_gemini] 0.5).
  - repeat constructor.
  - vm_compute. auto.
  - simpl. auto.
  - vm_compute. reflexivity.
Defined.

(* ================================================================= *)
(** * More on the catalog search, the candidates and the replies *)

Section StrictOrder.

Lemma SFltb_leb_trans (x y z : spec_float) :
  SFltb x y = true -> SFleb y z = true -> SFltb x z = true.
Proof.
  unfold SFltb, SFleb.
  destruct x as [sx | sx | | sx mx ex], y as [sy | sy | | sy my ey],
           z as [sz | sz | | sz mz ez]; simpl; try discriminate; try reflexivity;
    try (destruct sx; simpl; discriminate || reflexivity);
    try (destruct sy; simpl; discriminate || reflexivity);
    try (destruct sz; simpl; discriminate || reflexivity);
    try (destruct sx, sy; simpl; discriminate || reflexivity);
    try (destruct sx, sz; simpl; discriminate || reflexivity);
    try (destruct sy, sz; simpl; discriminate || reflexivity);
    try (destruct sx, sy, sz; simpl; discriminate || reflexivity).
  all: destruct sx, sy, sz; simpl; try discriminate; try reflexivity; compare_cases.
Qed.

Lemma ltb_leb_trans (x y z : float) :
  PrimFloat.ltb x y = true -> PrimFloat.leb y z = true -> PrimFloat.ltb x z = true.
Proof. rewrite !ltb_spec, leb_spec. apply SFltb_leb_trans. Qed.

End StrictOrder.

Section CatalogMatcher.

Lemma intersection_In a b w :
  In w (Spotify.intersection a b) <-> In w a /\ In w b.
Proof. unfold Spotify.intersection. rewrite filter_In, mem_In. tauto. Qed.

Lemma union_In a b w : In w (Spotify.union a b) <-> In w a \/ In w b.
Proof.
  unfold Spotify.union. rewrite in_app_iff, filter_In, negb_true_iff.
  split; [ tauto | ].
  intros [H | H]; [ now left | ].
  destruct (mem w a) eqn:E; [ left; now apply mem_In | right; auto ].
Qed.

Lemma intersection_NoDup a b : NoDup a -> NoDup (Spotify.intersection a b).
Proof. apply NoDup_filter. Qed.

Lemma union_NoDup a b : NoDup a -> NoDup b -> NoDup (Spotify.union a b).
Proof.
  intros Ha Hb. unfold Spotify.union. apply NoDup_app.
  - exact Ha.
  - now apply NoDup_filter.
  - intros w Hw H. apply filter_In in H. destruct H as [_ H].
    apply negb_true_iff in H. apply mem_In in Hw. congruence.
Qed.

Lemma intersection_length a b :
  NoDup a -> NoDup b ->
  List.length (Spotify.intersection a b) = List.length (Spotify.intersection b a).
Proof.
  intros Ha Hb. apply Permutation_length, NoDup_Permutation;
    auto using intersection_NoDup.
  intros w. rewrite !intersection_In. tauto.
Qed.

Lemma union_length a b :
  NoDup a -> NoDup b ->
  List.length (Spotify.union a b) = List.length (Spotify.union b a).
Proof.
  intros Ha Hb. apply Permutation_length, NoDup_Permutation;
    auto using union_NoDup.
  intros w. rewrite !union_In. tauto.
Qed.

Lemma set_of_NoDup words : NoDup (Spotify.set_of words).
Proof. apply NoDup_nodup. Qed.

End CatalogMatcher.

Section Selection.

Variable artist_name : string.

(** What the selection loop holds after the entries [pre]: no entry so
    far reaches a positive score, or the best one is the first to reach
    the highest score so far. *)
Lemma best_of_first_best artists :
  forall pre best_match best_score,
    (best_match = None ->
     best_score = 0%float /\
     forall a, In a pre -> PrimFloat.ltb 0 (score artist_name a) = false) ->
    (forall b, best_match = Some b -> first_best artist_name pre b best_score) ->
    forall b s,
      Spotify.best_of artist_name artists best_match best_score = (Some b, s) ->
      first_best artist_name (pre ++ artists) b s.
Proof.
  induction artists as [ | a artists IH]; intros pre bm bs Hnone Hsome b s; simpl.
  - intros [= -> ->]. rewrite app_nil_r. now apply Hsome.
  - change (a :: artists) with ([a] ++ artists). rewrite app_assoc.
    fold (score artist_name a).
    destruct (gt (score artist_name a) bs) eqn:E; unfold gt in E; apply IH.
    + discriminate.
    + intros b' [= <-]. exists pre, []. split; [ reflexivity | ].
      split; [ reflexivity | ]. split; [ | intros ? [] ].
      intros x Hx. destruct (PrimFloat.leb _ _) eqn:L; [ | reflexivity ].
      pose proof (ltb_leb_trans _ _ _ E L) as Hlt.
      destruct bm as [b0 | ].
      * destruct (Hsome b0 eq_refl) as (l1 & l2 & -> & -> & H1 & H2).
        apply in_app_or in Hx. destruct Hx as [Hx | [<- | Hx]].
        -- apply ltb_leb in Hlt. rewrite (H1 _ Hx) in Hlt. discriminate.
        -- now rewrite ltb_irrefl in Hlt.
        -- rewrite (H2 _ Hx) in Hlt. discriminate.
      * destruct (Hnone eq_refl) as [-> H0]. rewrite (H0 _ Hx) in Hlt. discriminate.
    + intros ->. destruct (Hnone eq_refl) as [-> H0]. split; [ reflexivity | ].
      intros x Hx. apply in_app_or in Hx. destruct Hx as [Hx | [<- | []]]; auto.
    + intros b' ->. destruct (Hsome b' eq_refl) as (l1 & l2 & -> & -> & H1 & H2).
      exists l1, (l2 ++ [a]). split; [ now rewrite <- app_assoc | ].
      split; [ reflexivity | ]. split; [ exact H1 | ].
      intros x Hx. apply in_app_or in Hx. destruct Hx as [Hx | [<- | []]]; auto.
Qed.

End Selection.

(** X6.  The similarity score does not depend on which of the two names is the
    query and which the catalog name. *)
Theorem match_score_symmetric (search_name found_name : string) :
  Spotify.calculate_artist_match_score search_name found_name =
  Spotify.calculate_artist_match_score found_name search_name.
Proof.
  unfold Spotify.calculate_artist_match_score.
  rewrite (String.eqb_sym (strip (lower search_name))).
  destruct (String.eqb _ _); [ reflexivity | ].
  rewrite (orb_comm (contains (strip (lower search_name)) _)).
  destruct (_ || _); [ reflexivity | ].
  pose proof (set_of_NoDup (split (strip (lower search_name)))) as Ha.
  pose proof (set_of_NoDup (split (strip (lower found_name)))) as Hb.
  rewrite (intersection_length _ _ Ha Hb), (union_length _ _ Ha Hb).
  destruct (Spotify.set_of (split (strip (lower search_name))));
    destruct (Spotify.set_of (split (strip (lower found_name)))); reflexivity.
Qed.

(** X7.  The entry the selection loop of [search_artist] returns is the first
    of the search results to reach the highest score: no result before it
    scores as much, and none after it scores more. *)
Theorem selected_match_is_first_best (artist_name : string)
    (artists : list catalog_entry) (found : catalog_entry) :
  Spotify.select_match artist_name artists = Some found ->
  exists before after,
    artists = before ++ found :: after /\
    (forall a, In a before ->
       PrimFloat.leb (score artist_name found) (score artist_name a) = false) /\
    (forall a, In a after ->
       PrimFloat.ltb (score artist_name found) (score artist_name a) = false).
Proof.
  unfold Spotify.select_match. destruct artists as [ | a artists]; [ discriminate | ].
  destruct (Spotify.best_of artist_name (a :: artists) None 0) as [[b | ] s] eqn:E;
    [ | discriminate ].
  apply (best_of_first_best artist_name (a :: artists) []) in E.
  - destruct (gt s 0.7); [ | discriminate ]. intros [= <-].
    destruct E as (l1 & l2 & E & -> & H1 & H2).
    exists l1, l2. auto.
  - intros _. split; [ reflexivity | intros ? [] ].
  - discriminate.
Qed.

Lemma selected_match_is_first_best_witness :
  exists before after,
    [tribute_band; tribute_band] = before ++ tribute_band :: after /\
    (forall a, In a before ->
       PrimFloat.leb (score "Beatles" tribute_band) (score "Beatles" a) = false) /\
    (forall a, In a after ->
       PrimFloat.ltb (score "Beatles" tribute_band) (score "Beatles" a) = false).
Proof.
  apply selected_match_is_first_best. vm_compute. reflexivity.
Defined.

Section Query.

Lemma replace_char_removes c by_ s :
  ~ has_char c by_ -> ~ has_char c (Spotify.replace_char c by_ s).
Proof.
  intros Hby. induction s as [ | d s IH]; simpl; [ tauto | ].
  destruct (Ascii.eqb_spec d c) as [-> | Hd].
  - rewrite has_char_app. tauto.
  - simpl. tauto.
Qed.

End Query.

(** X8.  [search_artist] never raises.  Its query holds no ampersand.  It
    answers [None] without credentials, when a search raises and when both
    searches find nothing; an entry it answers with is the selection from
    the hits of the quoted query or, when these are none, from those of the
    plain query. *)
Theorem search_artist_returns (env : collaborators) (self : Spotify.SpotifyService)
    (artist_name : string) :
  let cleaned_name := Spotify.replace_char Spotify.ampersand "and" (strip artist_name) in
  let quoted_query := ("artist:" ++ quoted cleaned_name)%string in
  ~ has_char Spotify.ampersand cleaned_name /\
  exists r,
    Spotify.search_artist env self artist_name = Return r /\
    (Spotify.is_configured self = false -> r = None) /\
    (forall e, sp_search env quoted_query = Raise e -> r = None) /\
    (sp_search env quoted_query = Return [] ->
     (forall e, sp_search env cleaned_name = Raise e -> r = None) /\
     (sp_search env cleaned_name = Return [] -> r = None)) /\
    (forall found, r = Some found ->
       exists hits,
         hits <> [] /\
         Spotify.select_match artist_name hits = Some found /\
         (sp_search env quoted_query = Return hits \/
          sp_search env quoted_query = Return [] /\
          sp_search env cleaned_name = Return hits)).
Proof.
  intros cleaned_name quoted_query.
  split.
  { apply replace_char_removes. vm_compute. intuition discriminate. }
  unfold Spotify.search_artist.
  fold cleaned_name. change ("artist:" ++ Spotify.double_quote ++ cleaned_name
                               ++ Spotify.double_quote)%string with quoted_query.
  destruct (Spotify.is_configured self); cbn [negb].
  2:{ exists None. repeat split; try reflexivity; discriminate. }
  destruct (sp_search env quoted_query) as [[ | a hits] | e] eqn:E1; cbn [bind try_except].
  - destruct (sp_search env cleaned_name) as [hits | e] eqn:E2; cbn [bind try_except].
    + exists (Spotify.select_match artist_name hits).
      split; [ reflexivity | ]. split; [ discriminate | ]. split; [ discriminate | ].
      split.
      * intros _. split; [ discriminate | ]. intros [= ->]. reflexivity.
      * intros found Hf. exists hits. split; [ | split; [ exact Hf | right; auto ] ].
        intros ->. discriminate.
    + exists None. repeat split; try reflexivity; discriminate.
  - exists (Spotify.select_match artist_name (a :: hits)).
    split; [ reflexivity | ]. split; [ discriminate | ]. split; [ discriminate | ].
    split; [ discriminate | ].
    intros found Hf. exists (a :: hits). split; [ discriminate | ]. auto.
  - exists None. repeat split; try reflexivity; discriminate.
Qed.

Section Candidates.

#[local] Open Scope string_scope.

Lemma findall_aux_occurs r s :
  forall p skip m,
    In m (findall_aux r p s skip) ->
    exists before after, s = before ++ m ++ after.
Proof.
  induction s as [ | c s IH]; intros p skip m; simpl.
  - destruct skip; [ | intros [] ].
    destruct (match_len r p ""); [ | intros [] ].
    intros [<- | []]. exists "", "". reflexivity.
  - assert (Hlater : forall q k, In m (findall_aux r q s k) ->
              exists before after, String c s = before ++ m ++ after).
    { intros q k H. destruct (IH _ _ _ H) as (b & a & ->).
      exists (String c b), a. reflexivity. }
    destruct skip as [ | skip]; [ | apply Hlater ].
    destruct (match_len r p (String c s)) as [[ | n] | ] eqn:E.
    + intros [<- | H]; [ | eapply Hlater; eassumption ].
      exists "", (String c s). reflexivity.
    + intros [<- | H]; [ | eapply Hlater; eassumption ].
      apply match_len_steps in E. destruct E as (w & s' & E & Hn & _).
      assert (Hsub : String.substring 0 (S n) (String c s) = w)
        by (rewrite E, Hn; apply substring_prefix).
      exists "", s'. simpl in Hsub. rewrite Hsub. exact E.
    + apply Hlater.
Qed.

Lemma all_chars_app f (a b : string) :
  all_chars f (a ++ b) = all_chars f a && all_chars f b.
Proof.
  induction a as [ | c a IH]; simpl; [ reflexivity | ].
  now rewrite IH, andb_assoc.
Qed.

(** A run of a pattern reads only what the pattern's classes allow. *)
Lemma steps_only f r p s p' s' :
  only f r -> steps r p s p' s' ->
  exists w, s = w ++ s' /\ all_chars f w = true.
Proof.
  intros Hr Hs. induction Hs as
    [ p s | g c p s Hg | r1 r2 p s p1 s1 p2 s2 _ IH1 _ IH2
    | r1 r2 p s p' s' _ IH | r1 r2 p s p' s' _ IH | greedy hi r p s
    | greedy lo hi r p s p1 s1 p2 s2 _ _ IH1 _ IH2 | p s Hx ]; cbn [only] in Hr.
  - exists "". auto.
  - exists (String c ""). simpl. rewrite (Hr c Hg). auto.
  - destruct (IH1 (proj1 Hr)) as (w1 & -> & H1), (IH2 (proj2 Hr)) as (w2 & -> & H2).
    exists (w1 ++ w2). now rewrite append_assoc, all_chars_app, H1, H2.
  - apply IH, Hr.
  - apply IH, Hr.
  - exists "". auto.
  - destruct (IH1 Hr) as (w1 & -> & H1), (IH2 Hr) as (w2 & -> & H2).
    exists (w1 ++ w2). now rewrite append_assoc, all_chars_app, H1, H2.
  - exists "". auto.
Qed.

Lemma artist_patterns_alphabet pattern :
  In pattern artist_patterns -> only name_char pattern.
Proof.
  assert (Hu : forall c, ascii_upper c = true -> name_char c = true)
    by (intros c H; unfold name_char; now rewrite H).
  assert (Hl : forall c, ascii_lower c = true -> name_char c = true)
    by (intros c H; unfold name_char; rewrite H; now rewrite orb_true_r).
  assert (Hs : forall c, isspace c = true -> name_char c = true)
    by (intros c H; unfold name_char; rewrite H; now rewrite !orb_true_r).
  assert (He : forall d c, name_char d = true -> Ascii.eqb d c = true ->
                           name_char c = true)
    by (intros d c Hd H; apply Ascii.eqb_eq in H; now subst).
  unfold artist_patterns. cbn [In].
  intros [<- | [<- | [<- | [<- | []]]]];
    cbn [only seq lit chr plus star capitalized upper lowercase space];
    repeat split; try assumption;
    intros c H; (eapply He; [ | exact H ]); reflexivity.
Qed.

Lemma artist_match_alphabet pattern line m :
  In pattern artist_patterns -> In m (findall pattern line) ->
  all_chars name_char m = true.
Proof.
  intros Hp Hm. apply findall_aux_match in Hm.
  destruct Hm as (q & w & s' & Hs & ->).
  destruct (steps_only name_char _ _ _ _ _ (artist_patterns_alphabet _ Hp) Hs)
    as (w' & E & Hw).
  apply append_inv_tail in E. now subst.
Qed.

Lemma existsb_mem_false words ws :
  existsb (fun word => mem word ws) words = false ->
  forall w, In w words -> ~ In w ws.
Proof.
  intros H w Hw Hin.
  assert (E : existsb (fun word => mem word ws) words = true).
  { apply existsb_exists. exists w. split; [ exact Hw | now apply mem_In ]. }
  congruence.
Qed.

Lemma consider_match_candidate text line0 pattern m :
  In line0 (split_on newline text) ->
  In pattern artist_patterns -> In m (findall pattern (strip line0)) ->
  exists ys, consider_match text (strip line0) m = Return ys /\
             Forall (pattern_candidate text) ys.
Proof.
  intros Hline Hp Hm. unfold consider_match.
  destruct (existsb _ _) eqn:Ef; [ exists []; auto | ].
  destruct (Nat.ltb_spec (String.length m) 2) as [ | H2]; [ exists []; auto | ].
  destruct (Nat.ltb_spec 50 (String.length m)) as [ | H50]; cbn [orb];
    [ exists []; auto | ].
  destruct (artist_match_trimmed _ _ _ Hp Hm) as (c & rest & E & Hc & Ht).
  destruct (calculate_pattern_confidence m (strip line0) text) as [conf | e] eqn:Ec.
  2:{ rewrite E in Ec. discriminate. }
  cbn [bind]. destruct (gt conf 0.3) eqn:Eg; [ | exists []; auto ].
  eexists. split; [ reflexivity | ]. constructor; [ | constructor ].
  unfold pattern_candidate. cbn [name confidence method context].
  rewrite !Ht, strip_idempotent.
  split; [ reflexivity | ]. split; [ lia | ].
  split; [ exists c, rest; auto | ]. split; [ reflexivity | ].
  split; [ now apply artist_match_alphabet with (pattern := pattern) (line := strip line0) | ].
  split; [ now apply existsb_mem_false | ].
  split.
  { destruct (findall_aux_occurs _ _ _ _ _ Hm) as (b & a & Ho).
    exists line0, b, a. auto. }
  split; [ exact Ec | ]. split; [ exact Eg | ].
  rewrite E in Ec. unfold calculate_pattern_confidence in Ec.
  cbn [proper_capitalization bind] in Ec. injection Ec as <-.
  apply clamp_min_max.
Qed.

Lemma potential_artists_candidates text :
  exists ys, potential_artists text = Return ys /\
             Forall (pattern_candidate text) ys.
Proof.
  unfold potential_artists. apply for_each_returns. intros line0 Hline.
  unfold consider_line. destruct (_ <? 2)%nat; [ exists []; auto | ].
  apply for_each_returns. intros pattern Hp.
  apply for_each_returns. intros m Hm.
  now apply consider_match_candidate with (pattern := pattern).
Qed.

(** Dropping entries keeps a list sorted. *)
Lemma unique_sorted (R : artist -> artist -> Prop) seen l :
  StronglySorted R l -> StronglySorted R (unique seen l).
Proof.
  intros H. revert seen. induction H as [ | a l Hs IH Ha]; intros seen; simpl.
  - constructor.
  - destruct (mem _ seen); [ apply IH | ].
    constructor; [ apply IH | ].
    rewrite Forall_forall in *. intros x Hx. apply unique_In in Hx. now apply Ha.
Qed.

Lemma firstn_sorted {A : Type} (R : A -> A -> Prop) n l :
  StronglySorted R l -> StronglySorted R (firstn n l).
Proof.
  intros H. revert n. induction H as [ | a l Hs IH Ha]; intros [ | n]; simpl;
    try constructor.
  - apply IH.
  - rewrite Forall_forall in *. intros x Hx. apply firstn_In in Hx. now apply Ha.
Qed.

End Candidates.

(** X9.  The pattern extractor never raises, and what it returns is ranked: no
    candidate has a greater confidence than one listed before it. *)
Theorem extract_with_patterns_ranked (text : string) :
  exists out,
    extract_with_patterns text = Return out /\
    StronglySorted (fun a b => PrimFloat.leb (confidence b) (confidence a) = true) out.
Proof.
  unfold extract_with_patterns.
  destruct (potential_artists_returns text) as (potential & -> & Hfloor).
  cbn [bind]. eexists. split; [ reflexivity | ].
  apply firstn_sorted, unique_sorted, sort_desc_sorted.
  eapply Forall_impl; [ apply above_floor_comparable | exact Hfloor ].
Qed.

(** X10.  Every candidate of the pattern extractor is tagged [pattern_matching]
    and carries a match of an artist pattern: a name of two to fifty
    characters that starts with a capital letter, has no blank at its ends
    and no filter word among its lowercased words, and that occurs in the
    candidate's context, a trimmed line of the text; its confidence is the
    pattern confidence of the name in that line, above 0.3 and at most 1. *)
Theorem extract_with_patterns_candidates (text : string) :
  exists out,
    extract_with_patterns text = Return out /\
    Forall (pattern_candidate text) out.
Proof.
  unfold extract_with_patterns.
  destruct (potential_artists_candidates text) as (potential & -> & H).
  cbn [bind]. eexists. split; [ reflexivity | ].
  rewrite Forall_forall in *. intros a Ha.
  apply firstn_In, unique_In in Ha. apply H, sort_desc_In, Ha.
Qed.

Section Summary.

Variable env : collaborators.

Lemma dict_set_length k v d : List.length (dict_set k v d) <= S (List.length d).
Proof.
  induction d as [ | [k' v'] d IH]; simpl; [ lia | ].
  destruct (String.eqb k k'); simpl; lia.
Qed.

Lemma fold_merge_length l :
  forall d, List.length (fold_left merge_step l d) <= List.length l + List.length d.
Proof.
  induction l as [ | a l IH]; intros d; simpl; [ lia | ].
  etransitivity; [ apply IH | ].
  assert (List.length (merge_step d a) <= S (List.length d)); [ | lia ].
  unfold merge_step. destruct (dict_get _ d).
  - destruct (gt _ _); [ apply dict_set_length | lia ].
  - apply dict_set_length.
Qed.

Lemma reconcile_length all threshold :
  List.length (reconcile all threshold) <= List.length all.
Proof.
  unfold reconcile.
  rewrite (Permutation_length (sort_desc_perm _)).
  etransitivity; [ apply filter_length_le | ].
  unfold values, merge. rewrite length_map.
  etransitivity; [ apply fold_merge_length | ]. simpl. lia.
Qed.

Lemma is_empty_true {A : Type} (l : list A) : Service.is_empty l = true <-> l = [].
Proof. destruct l; simpl; split; congruence. Qed.

Lemma extract_with_patterns_valid text :
  exists out,
    extract_with_patterns text = Return out /\
    Forall (pattern_candidate text) out /\ List.length out <= 20.
Proof.
  unfold extract_with_patterns.
  destruct (potential_artists_candidates text) as (potential & -> & H).
  cbn [bind]. eexists. split; [ reflexivity | ].
  split; [ | apply firstn_le_length ].
  rewrite Forall_forall in *. intros a Ha.
  apply firstn_In, unique_In in Ha. apply H, sort_desc_In, Ha.
Qed.

(** What [extract_artists] computes, step by step. *)
Lemma extract_artists_steps self text (use_ai : bool) threshold :
  exists pattern_artists gemini_artists vertex_artists,
    extract_with_patterns (clean_text text) = Return pattern_artists /\
    Service.extract_with_gemini env self (clean_text text) = Return gemini_artists /\
    Service.extract_with_vertex_ai env self (clean_text text) = Return vertex_artists /\
    Forall (pattern_candidate (clean_text text)) pattern_artists /\
    Forall gemini_valid gemini_artists /\
    Forall vertex_valid vertex_artists /\
    List.length pattern_artists <= 20 /\
    let ai_artists : list artist :=
      if use_ai then
        if Service.is_empty gemini_artists then vertex_artists else gemini_artists
      else [] in
    Service.extract_artists env self text use_ai threshold =
    Return {| Service.artists := reconcile (pattern_artists ++ ai_artists) threshold;
              Service.total_found :=
                List.length (reconcile (pattern_artists ++ ai_artists) threshold);
              Service.method_used :=
                if use_ai && negb (Service.is_empty ai_artists)
                then "combined" else "pattern_matching";
              Service.pattern_results := List.length pattern_artists;
              Service.ai_results := List.length ai_artists |}.
Proof.
  destruct (extract_with_patterns_valid (clean_text text)) as (p & Hp & Hpc & Hlen).
  destruct (extract_with_gemini_valid env self (clean_text text)) as (g & Hg & Hgv).
  destruct (extract_with_vertex_ai_valid env self (clean_text text)) as (v & Hv & Hvv).
  exists p, g, v. do 7 (split; [ assumption | ]).
  unfold Service.extract_artists. rewrite Hp. cbn [bind].
  destruct use_ai; cbn [bind]; [ | reflexivity ].
  rewrite Hg. cbn [bind].
  destruct (Service.is_empty g); [ rewrite Hv | ]; reflexivity.
Qed.

End Summary.

(** X11.  [extract_artists] never raises, and the counts of its result agree:
    [total_found] is the length of the list, which is no longer than the
    candidates of the two sources together; the pattern extractor gives at
    most 20; without AI there are no AI results; and the method is
    [combined] exactly when AI was asked for and gave a candidate, and
    [pattern_matching] otherwise. *)
Theorem extract_artists_summary (env : collaborators)
    (self : Service.ArtistExtractionService) (text : string) (use_ai : bool)
    (threshold : float) :
  exists r,
    Service.extract_artists env self text use_ai threshold = Return r /\
    Service.total_found r = List.length (Service.artists r) /\
    List.length (Service.artists r) <= Service.pattern_results r + Service.ai_results r /\
    Service.pattern_results r <= 20 /\
    (use_ai = false -> Service.ai_results r = 0) /\
    (Service.method_used r = "combined" <->
     use_ai = true /\ 0 < Service.ai_results r) /\
    (Service.method_used r <> "combined" ->
     Service.method_used r = "pattern_matching").
Proof.
  destruct (extract_artists_steps env self text use_ai threshold)
    as (p & g & v & _ & _ & _ & _ & _ & _ & Hlen & E).
  cbv zeta in E. eexists. split; [ exact E | ].
  cbn [Service.artists Service.total_found Service.method_used
       Service.pattern_results Service.ai_results].
  split; [ reflexivity | ].
  split; [ rewrite <- length_app; apply reconcile_length | ].
  split; [ exact Hlen | ].
  split; [ intros ->; reflexivity | ].
  destruct use_ai; cbn [andb].
  - destruct (if Service.is_empty g then v else g) as [ | a ai];
      cbn [Service.is_empty negb List.length].
    + split; [ split; [ discriminate | intros [_ H]; lia ] | reflexivity ].
    + split; [ split; [ intros _; split; [ reflexivity | lia ] | reflexivity ] | ].
      intros H. now elim H.
  - split; [ split; [ discriminate | intros [H _]; discriminate ] | reflexivity ].
Qed.

(** X12.  Every entry [extract_artists] returns is a candidate of the pattern
    extractor for the cleaned text or, when AI was asked for, an entry that
    one of the two AI adapters has validated; whichever it is, its name is
    not empty and has no blank at its ends, and its confidence lies in
    [0, 1] and reaches the threshold. *)
Theorem extract_artists_entries (env : collaborators)
    (self : Service.ArtistExtractionService) (text : string) (use_ai : bool)
    (threshold : float) :
  exists r,
    Service.extract_artists env self text use_ai threshold = Return r /\
    Forall (fun a =>
              (pattern_candidate (clean_text text) a \/
               use_ai = true /\ (gemini_valid a \/ vertex_valid a)) /\
              name a <> "" /\ strip (name a) = name a /\
              PrimFloat.leb 0 (confidence a) = true /\
              PrimFloat.leb (confidence a) 1 = true /\
              PrimFloat.leb threshold (confidence a) = true)
           (Service.artists r).
Proof.
  destruct (extract_artists_steps env self text use_ai threshold)
    as (p & g & v & _ & _ & _ & Hp & Hg & Hv & _ & E).
  cbv zeta in E. eexists. split; [ exact E | ].
  cbn [Service.artists]. apply Forall_forall. intros a Ha.
  pose proof (proj2 (proj1 (reconcile_In _ _ _) Ha)) as Hthr.
  apply reconcile_from_candidates, in_app_or in Ha.
  rewrite Forall_forall in Hp, Hg, Hv.
  assert (Hsrc : pattern_candidate (clean_text text) a \/
                 use_ai = true /\ (gemini_valid a \/ vertex_valid a)).
  { destruct Ha as [Ha | Ha]; [ left; auto | right ].
    destruct use_ai; [ | destruct Ha ]. split; [ reflexivity | ].
    destruct (Service.is_empty g); auto. }
  split; [ exact Hsrc | ].
  destruct Hsrc as [Hc | [_ [Hc | Hc]]].
  - destruct Hc as (_ & Hl & _ & Ht & _ & _ & _ & _ & H03 & H1).
    split; [ intros E0; rewrite E0 in Hl; simpl in Hl; lia | ].
    split; [ exact Ht | ]. split; [ | split; [ exact H1 | exact Hthr ] ].
    apply leb_trans with (y := 0.3%float); [ reflexivity | apply ltb_leb, H03 ].
  - destruct Hc as (Hn & Ht & _ & H0 & H1 & _). auto.
  - destruct Hc as (Hn & Ht & H0 & H1 & _). auto.
Qed.

(** X13.  The Vertex AI adapter is a fallback: when the Gemini adapter gives at
    least one candidate, [extract_artists] reconciles the pattern
    candidates with those of Gemini alone, and no entry of the result is
    tagged [vertex_ai]; when Gemini gives none, it reconciles them with
    those of Vertex AI, and no entry is tagged [gemini]. *)
Theorem vertex_ai_is_fallback (env : collaborators)
    (self : Service.ArtistExtractionService) (text : string) (threshold : float) :
  exists pattern_artists gemini_artists vertex_artists r,
    extract_with_patterns (clean_text text) = Return pattern_artists /\
    Service.extract_with_gemini env self (clean_text text) = Return gemini_artists /\
    Service.extract_with_vertex_ai env self (clean_text text) = Return vertex_artists /\
    Service.extract_artists env self text true threshold = Return r /\
    (gemini_artists <> [] ->
     Service.artists r = reconcile (pattern_artists ++ gemini_artists) threshold /\
     Service.ai_results r = List.length gemini_artists /\
     Forall (fun a => method a <> "vertex_ai") (Service.artists r)) /\
    (gemini_artists = [] ->
     Service.artists r = reconcile (pattern_artists ++ vertex_artists) threshold /\
     Service.ai_results r = List.length vertex_artists /\
     Forall (fun a => method a <> "gemini") (Service.artists r)).
Proof.
  destruct (extract_artists_steps env self text true threshold)
    as (p & g & v & Ep & Eg & Ev & Hp & Hg & Hv & _ & E).
  cbv zeta in E. exists p, g, v. eexists.
  do 4 (split; [ eassumption | ]).
  cbn [Service.artists Service.ai_results].
  rewrite Forall_forall in Hp, Hg, Hv.
  split.
  - intros Hne. destruct g as [ | a g]; [ congruence | ]. cbn [Service.is_empty].
    split; [ reflexivity | ]. split; [ reflexivity | ].
    apply Forall_forall. intros x Hx.
    apply reconcile_from_candidates, in_app_or in Hx. destruct Hx as [Hx | Hx].
    + destruct (Hp _ Hx) as [-> _]. discriminate.
    + destruct (Hg _ Hx) as (_ & _ & _ & _ & _ & _ & ->). discriminate.
  - intros ->. cbn [Service.is_empty].
    split; [ reflexivity | ]. split; [ reflexivity | ].
    apply Forall_forall. intros x Hx.
    apply reconcile_from_candidates, in_app_or in Hx. destruct Hx as [Hx | Hx].
    + destruct (Hp _ Hx) as [-> _]. discriminate.
    + destruct (Hv _ Hx) as (_ & _ & _ & _ & ->). discriminate.
Qed.

Section Brackets.

#[local] Open Scope string_scope.

Variable c : ascii.

Lemma lazy_any_scan fuel :
  forall s p, String.length s <= fuel ->
    rep (run any) false fuel 0 None p s (then_char c) = after_first c s.
Proof.
  induction fuel as [ | fuel IH]; intros s p Hlen.
  - destruct s; simpl in Hlen; [ reflexivity | lia ].
  - rewrite rep_unfold. cbv zeta.
    destruct s as [ | d s]; [ reflexivity | ].
    simpl in Hlen. cbn [Nat.eqb then_char run after_first may_iterate any].
    destruct (Ascii.eqb c d); [ reflexivity | ]. cbn [orelse].
    replace (String.length s <? String.length (String d s))%nat with true
      by (symmetry; apply Nat.ltb_lt; simpl; lia).
    cbn [orb pred dec]. apply IH. lia.
Qed.

Lemma greedy_any_scan fuel :
  forall s p, String.length s <= fuel ->
    rep (run any) true fuel 0 None p s (then_char c) = after_last c s.
Proof.
  induction fuel as [ | fuel IH]; intros s p Hlen.
  - destruct s; simpl in Hlen; [ reflexivity | lia ].
  - rewrite rep_unfold. cbv zeta.
    destruct s as [ | d s]; [ reflexivity | ].
    simpl in Hlen. cbn [Nat.eqb then_char run after_last may_iterate any].
    replace (String.length s <? String.length (String d s))%nat with true
      by (symmetry; apply Nat.ltb_lt; simpl; lia).
    cbn [orb pred dec]. rewrite IH by lia.
    destruct (after_last c s); reflexivity.
Qed.

Lemma after_first_None s : after_first c s = None -> ~ has_char c s.
Proof.
  induction s as [ | d s IH]; simpl; [ tauto | ].
  destruct (Ascii.eqb_spec c d) as [ | Hd]; [ discriminate | ].
  intros H [E | Hs]; [ congruence | now apply IH ].
Qed.

Lemma after_first_Some s rest :
  after_first c s = Some rest ->
  exists w, s = w ++ String c rest /\ ~ has_char c w.
Proof.
  revert rest. induction s as [ | d s IH]; intros rest; simpl; [ discriminate | ].
  destruct (Ascii.eqb_spec c d) as [<- | Hd].
  - intros [= ->]. exists "". simpl. tauto.
  - intros H. destruct (IH _ H) as (w & -> & Hw).
    exists (String d w). split; [ reflexivity | ].
    simpl. intros [E | Hs]; [ congruence | tauto ].
Qed.

Lemma after_last_None s : after_last c s = None -> ~ has_char c s.
Proof.
  induction s as [ | d s IH]; simpl; [ tauto | ].
  destruct (after_last c s); [ discriminate | ].
  destruct (Ascii.eqb_spec c d) as [ | Hd]; [ discriminate | ].
  intros _ [E | Hs]; [ congruence | now apply IH ].
Qed.

Lemma after_last_Some s rest :
  after_last c s = Some rest ->
  exists w, s = w ++ String c rest /\ ~ has_char c rest.
Proof.
  revert rest. induction s as [ | d s IH]; intros rest; simpl; [ discriminate | ].
  destruct (after_last c s) as [r | ] eqn:E.
  - intros [= ->]. destruct (IH _ eq_refl) as (w & -> & Hr).
    exists (String d w). auto.
  - destruct (Ascii.eqb_spec c d) as [<- | Hd]; [ | discriminate ].
    intros [= ->]. exists "". split; [ reflexivity | ].
    now apply after_last_None.
Qed.

End Brackets.

Section BracketSearch.

#[local] Open Scope string_scope.

Lemma run_first_bracket p s :
  run Gemini.first_bracket_re p s k0 =
  match s with
  | String d s' => if Ascii.eqb "[" d then after_first "]" s' else None
  | EmptyString => None
  end.
Proof.
  destruct s as [ | d s]; [ reflexivity | ].
  change (run Gemini.first_bracket_re p (String d s) k0)
    with (if Ascii.eqb "[" d
          then rep (run any) false (0 + String.length s) 0 None (Some d) s
                   (then_char "]")
          else None).
  destruct (Ascii.eqb "[" d); [ | reflexivity ].
  apply lazy_any_scan. simpl. lia.
Qed.

Lemma run_bracket p s :
  run Service.bracket_re p s k0 =
  match s with
  | String d s' => if Ascii.eqb "[" d then after_last "]" s' else None
  | EmptyString => None
  end.
Proof.
  destruct s as [ | d s]; [ reflexivity | ].
  change (run Service.bracket_re p (String d s) k0)
    with (if Ascii.eqb "[" d
          then rep (run any) true (0 + String.length s) 0 None (Some d) s
                   (then_char "]")
          else None).
  destruct (Ascii.eqb "[" d); [ | reflexivity ].
  apply greedy_any_scan. simpl. lia.
Qed.

(** The text from an opening bracket to what a scan has left. *)
Lemma substring_bracket w rest :
  String.substring 0
    (String.length (String "[" (w ++ String "]" rest)) - String.length rest)
    (String "[" (w ++ String "]" rest)) = "[" ++ w ++ "]".
Proof.
  replace (String "[" (w ++ String "]" rest)) with (("[" ++ w ++ "]") ++ rest)
    by (simpl; now rewrite append_assoc).
  rewrite length_append, Nat.add_sub. apply substring_prefix.
Qed.

(** A search finds nothing in a text without a closing bracket. *)
Lemma search_needs_closing r scan :
  (forall p s, run r p s k0 =
     match s with
     | String d s' => if Ascii.eqb "[" d then scan s' else None
     | EmptyString => None
     end) ->
  (forall s, ~ has_char "]" s -> scan s = None) ->
  forall s p, ~ has_char "]" s -> search_aux r p s = None.
Proof.
  intros Hrun Hscan. induction s as [ | d s IH]; intros p Hs.
  - simpl. unfold match_len. fold k0. now rewrite Hrun.
  - cbn [search_aux]. unfold match_len. fold k0. rewrite Hrun.
    simpl in Hs. rewrite (Hscan s) by tauto.
    destruct (Ascii.eqb "[" d); apply IH; tauto.
Qed.

Lemma search_bracketed r scan (P : string -> string -> Prop) :
  (forall p s, run r p s k0 =
     match s with
     | String d s' => if Ascii.eqb "[" d then scan s' else None
     | EmptyString => None
     end) ->
  (forall s, scan s = None -> ~ has_char "]" s) ->
  (forall s, ~ has_char "]" s -> scan s = None) ->
  (forall s rest, scan s = Some rest ->
                  exists w, s = w ++ String "]" rest /\ P w rest) ->
  forall s p j,
    search_aux r p s = Some j ->
    exists w post, bracketed s j w post /\ P w post.
Proof.
  intros Hrun Hnone Hnone' Hsome. induction s as [ | d s IH]; intros p j.
  - simpl. unfold match_len. fold k0. rewrite Hrun. discriminate.
  - cbn [search_aux]. unfold match_len. fold k0. rewrite Hrun.
    assert (Hlater : search_aux r (Some d) s = Some j -> "["%char <> d ->
                     exists w post, bracketed (String d s) j w post /\ P w post).
    { intros H Hd. destruct (IH _ _ H) as (w & post & (pre & -> & -> & Hpre) & HP).
      exists w, post. split; [ | exact HP ].
      exists (String d pre). repeat split. simpl. intros [E | Hs]; [ congruence | tauto ]. }
    destruct (Ascii.eqb_spec "[" d) as [<- | Hd]; [ | auto ].
    destruct (scan s) as [rest | ] eqn:E.
    + intros [= <-]. destruct (Hsome _ _ E) as (w & -> & HP).
      exists w, rest. split; [ | exact HP ].
      exists "". split; [ reflexivity | ]. split; [ | simpl; tauto ].
      apply substring_bracket.
    + intros H. apply Hnone in E.
      rewrite (search_needs_closing r scan Hrun Hnone' s (Some "["%char) E) in H.
      discriminate.
Qed.

Lemma search_finds_nothing r scan :
  (forall p s, run r p s k0 =
     match s with
     | String d s' => if Ascii.eqb "[" d then scan s' else None
     | EmptyString => None
     end) ->
  (forall s, scan s = None <-> ~ has_char "]" s) ->
  forall s p,
    search_aux r p s = None <->
    (forall rest, after_first "[" s = Some rest -> ~ has_char "]" rest).
Proof.
  intros Hrun Hscan. induction s as [ | d s IH]; intros p.
  - simpl. unfold match_len. fold k0. rewrite Hrun. split; [ discriminate | auto ].
  - cbn [search_aux after_first]. unfold match_len. fold k0. rewrite Hrun.
    destruct (Ascii.eqb "[" d); [ | apply IH ].
    destruct (scan s) as [rest | ] eqn:E.
    + split; [ discriminate | ]. intros H.
      assert (Hs : scan s = None) by (apply Hscan, (H s eq_refl)). congruence.
    + apply Hscan in E. split.
      * intros _ rest [= <-]. exact E.
      * intros _. apply (search_needs_closing r scan Hrun); [ | exact E ].
        intros t Ht. now apply Hscan.
Qed.

Lemma after_first_closing s : after_first "]" s = None <-> ~ has_char "]" s.
Proof.
  split; [ apply after_first_None | ].
  intros Hs. destruct (after_first "]" s) as [rest | ] eqn:E; [ | reflexivity ].
  destruct (after_first_Some _ _ _ E) as (w & -> & _).
  elim Hs. apply has_char_app. right. now left.
Qed.

Lemma after_last_closing s : after_last "]" s = None <-> ~ has_char "]" s.
Proof.
  split; [ apply after_last_None | ].
  intros Hs. destruct (after_last "]" s) as [rest | ] eqn:E; [ | reflexivity ].
  destruct (after_last_Some _ _ _ E) as (w & -> & _).
  elim Hs. apply has_char_app. right. now left.
Qed.

End BracketSearch.

(** X14.  The JSON text the Gemini adapter reads runs from the first opening
    bracket of the reply to the first closing bracket after it, and so
    holds no closing bracket but its last character; the one the Vertex AI
    adapter reads runs from the first opening bracket to the last closing
    bracket of the reply.  Both find a text in the same replies. *)
Theorem bracketed_json_text (s : string) :
  (forall j, search Gemini.first_bracket_re s = Some j ->
     exists w post, bracketed s j w post /\ ~ has_char "]" w) /\
  (forall j, search Service.bracket_re s = Some j ->
     exists w post, bracketed s j w post /\ ~ has_char "]" post) /\
  (search Gemini.first_bracket_re s = None <-> search Service.bracket_re s = None).
Proof.
  split; [ | split ].
  - intros j H.
    apply (search_bracketed Gemini.first_bracket_re (after_first "]")
             (fun w _ => ~ has_char "]" w) run_first_bracket) in H; auto.
    + apply after_first_closing.
    + apply after_first_closing.
    + apply after_first_Some.
  - intros j H.
    apply (search_bracketed Service.bracket_re (after_last "]")
             (fun _ post => ~ has_char "]" post) run_bracket) in H; auto.
    + apply after_last_closing.
    + apply after_last_closing.
    + apply after_last_Some.
  - unfold search.
    rewrite (search_finds_nothing _ _ run_first_bracket after_first_closing).
    rewrite (search_finds_nothing _ _ run_bracket after_last_closing).
    reflexivity.
Qed.

Section Shrinking.

#[local] Open Scope string_scope.

Lemma squeeze_keeps b s c :
  has_char c (squeeze b s) -> c = " "%char \/ has_char c s.
Proof.
  revert b. induction s as [ | d s IH]; intros b; simpl; [ tauto | ].
  destruct (isspace d).
  - destruct b; simpl; [ intros H; apply IH in H; tauto | ].
    intros [<- | H]; [ auto | apply IH in H; tauto ].
  - simpl. intros [<- | H]; [ auto | apply IH in H; tauto ].
Qed.

Lemma squeeze_length b s : String.length (squeeze b s) <= String.length s.
Proof.
  revert b. induction s as [ | d s IH]; intros b; simpl; [ lia | ].
  pose proof (IH true). pose proof (IH false).
  destruct (isspace d); [ destruct b | ]; simpl; lia.
Qed.

Lemma sub_length r s : forall p n, String.length (sub_aux r "" p s n) <= String.length s.
Proof.
  induction s as [ | d s IH]; intros p n; simpl.
  - destruct n; [ destruct (match_len r p "") | ]; simpl; lia.
  - destruct n as [ | n]; [ | specialize (IH (Some d) n); lia ].
    destruct (match_len r p (String d s)) as [[ | m] | ]; cbn [append String.length].
    + specialize (IH (Some d) 0). lia.
    + specialize (IH (Some d) m). lia.
    + specialize (IH (Some d) 0). lia.
Qed.

Lemma lstrip_length s : String.length (lstrip s) <= String.length s.
Proof. induction s as [ | d s IH]; simpl; [ lia | ]. destruct (isspace d); simpl; lia. Qed.

Lemma rstrip_length s : String.length (rstrip s) <= String.length s.
Proof.
  induction s as [ | d s IH]; simpl; [ lia | ].
  destruct (rstrip s) as [ | e r]; simpl in *; [ destruct (isspace d); simpl | ]; lia.
Qed.

Lemma strip_length s : String.length (strip s) <= String.length s.
Proof.
  unfold strip. etransitivity; [ apply rstrip_length | apply lstrip_length ].
Qed.

Lemma remove_noise_length s : String.length (remove_noise s) <= String.length s.
Proof.
  unfold remove_noise, sub.
  repeat (etransitivity; [ apply sub_length | ]). lia.
Qed.

(** A character of a piece of a split text is a character of the text. *)
Lemma has_char_rev c s : forall acc,
  has_char c (rev_string acc s) <-> has_char c s \/ has_char c acc.
Proof.
  induction s as [ | d s IH]; intros acc; simpl; [ tauto | ].
  rewrite IH. simpl. tauto.
Qed.

Lemma split_on_chars sep c s : forall cur piece,
  In piece (split_on_aux sep cur s) -> has_char c piece ->
  has_char c cur \/ has_char c s.
Proof.
  induction s as [ | d s IH]; intros cur piece; simpl.
  - intros [<- | []] H. apply has_char_rev in H. simpl in H. tauto.
  - destruct (Ascii.eqb d sep).
    + intros [<- | Hp] H.
      * apply has_char_rev in H. simpl in H. tauto.
      * destruct (IH _ _ Hp H) as [[] | ]; tauto.
    + intros Hp H. destruct (IH _ _ Hp H) as [[ | ] | ]; simpl in *; tauto.
Qed.

Lemma any_char_has f c s : has_char c s -> f c = true -> any_char f s = true.
Proof.
  induction s as [ | d s IH]; simpl; [ tauto | ].
  intros [-> | H] Hf; [ now rewrite Hf | ].
  rewrite (IH H Hf). apply orb_true_r.
Qed.

End Shrinking.

(** X15.  [clean_text] only takes away: the cleaned text is no longer than the
    text, has no blank at its ends, and each of its characters is a
    character of the text or the space that stands for a run of
    whitespace. *)
Theorem clean_text_only_shrinks (text : string) :
  String.length (clean_text text) <= String.length text /\
  strip (clean_text text) = clean_text text /\
  (forall c, has_char c (clean_text text) -> c = " "%char \/ has_char c text).
Proof.
  split; [ | split ].
  - unfold clean_text.
    etransitivity; [ apply strip_length | ].
    etransitivity; [ apply remove_noise_length | ].
    rewrite collapse_whitespace_squeeze.
    etransitivity; [ apply squeeze_length | apply strip_length ].
  - apply strip_idempotent.
  - intros c H. unfold clean_text in H.
    apply strip_deletes, remove_noise_deletes in H.
    rewrite collapse_whitespace_squeeze in H.
    apply squeeze_keeps in H. destruct H as [H | H]; [ now left | right ].
    now apply strip_deletes.
Qed.

(** X16.  The pattern extractor finds a name only where there is a capital
    letter A to Z: on a text without one it returns no candidate. *)
Theorem pattern_names_need_capitals (text : string) :
  any_char ascii_upper text = false ->
  extract_with_patterns text = Return [].
Proof.
  intros Hno.
  destruct (extract_with_patterns_valid text) as ([ | a out] & E & Hall & _);
    [ exact E | ].
  inversion Hall as [ | ? ? Ha _]; subst.
  destruct Ha as (_ & _ & (c & rest & En & Hc) & _ & _ & _ &
                  (line & before & after & Hline & Hctx & Hocc) & _).
  assert (H : has_char c (context a)).
  { rewrite Hocc, En. apply has_char_app. right. simpl. now left. }
  rewrite Hctx in H. apply strip_deletes in H.
  destruct (split_on_chars newline c text "" line Hline H) as [[] | Ht].
  rewrite (any_char_has ascii_upper c text Ht Hc) in Hno. discriminate.
Qed.

Lemma pattern_names_need_capitals_witness :
  extract_with_patterns "daft punk & justice live" = Return [].
Proof.
  apply pattern_names_need_capitals. vm_compute. reflexivity.
Defined.

(** X17.  [calculate_pattern_confidence] raises [IndexError] on an empty match,
    whose first character it reads; on any other match it returns a
    confidence in [0, 1], whatever the line and the text. *)
Theorem pattern_confidence_range (m line full_text : string) :
  (m = "" -> calculate_pattern_confidence m line full_text = Raise IndexError) /\
  (m <> "" ->
   exists c, calculate_pattern_confidence m line full_text = Return c /\
             PrimFloat.leb 0 c = true /\ PrimFloat.leb c 1 = true).
Proof.
  split.
  - intros ->. reflexivity.
  - intros Hm. destruct m as [ | c rest]; [ congruence | ].
    unfold calculate_pattern_confidence. cbn [proper_capitalization bind].
    eexists. split; [ reflexivity | ]. apply clamp_min_max.
Qed.

Section Thresholds.

Lemma SFleb_not_ltb (x y : spec_float) : SFleb x y = true -> SFltb y x = false.
Proof.
  unfold SFleb, SFltb. rewrite (SFcompare_antisym x y).
  destruct (SFcompare x y) as [[ | | ] | ]; easy.
Qed.

Lemma leb_not_ltb (x y : float) :
  PrimFloat.leb x y = true -> PrimFloat.ltb y x = false.
Proof. rewrite leb_spec, ltb_spec. apply SFleb_not_ltb. Qed.

(** Filtering a sorted list and inserting into it can be done in either
    order. *)
Lemma filter_insert_desc (p : artist -> bool) a l :
  comparable a -> Forall comparable l -> StronglySorted ranks l ->
  filter p (insert_desc a l) =
  if p a then insert_desc a (filter p l) else filter p l.
Proof.
  intros Ha Hl Hs. induction Hs as [ | b l Hs IH Hb]; simpl.
  - destruct (p a); reflexivity.
  - inversion Hl as [ | ? ? Hcb Hcl]; subst.
    destruct (gt (confidence b) (confidence a)) eqn:E; simpl.
    + rewrite (IH Hcl). destruct (p b), (p a); simpl; rewrite ?E; reflexivity.
    + destruct (p a); [ | reflexivity ].
      assert (Hba : ranks a b) by (unfold ranks; apply leb_total; auto).
      assert (Hhead : forall x, In x (filter p (b :: l)) ->
                                gt (confidence x) (confidence a) = false).
      { intros x Hx. apply filter_In in Hx. destruct Hx as [Hx _].
        unfold gt. apply leb_not_ltb.
        destruct Hx as [<- | Hx]; [ exact Hba | ].
        rewrite Forall_forall in Hb. unfold ranks in *.
        eapply leb_trans; [ apply Hb, Hx | exact Hba ]. }
      change (if p b then b :: filter p l else filter p l)
        with (filter p (b :: l)).
      destruct (filter p (b :: l)) as [ | x rest] eqn:Ef; [ reflexivity | ].
      simpl. now rewrite (Hhead x (or_introl eq_refl)).
Qed.

Lemma filter_sort_desc (p : artist -> bool) l :
  Forall comparable l -> filter p (sort_desc l) = sort_desc (filter p l).
Proof.
  induction 1 as [ | a l Ha Hl IH]; simpl; [ reflexivity | ].
  rewrite filter_insert_desc.
  - rewrite IH. destruct (p a); reflexivity.
  - exact Ha.
  - rewrite Forall_forall in *. intros x Hx. apply Hl. now apply sort_desc_In.
  - now apply sort_desc_sorted.
Qed.

Lemma filter_filter_implied {A : Type} (p q : A -> bool) (l : list A) :
  (forall x, p x = true -> q x = true) -> filter p (filter q l) = filter p l.
Proof.
  intros H. induction l as [ | x l IH]; simpl; [ reflexivity | ].
  destruct (q x) eqn:Eq; simpl; rewrite IH; [ reflexivity | ].
  destruct (p x) eqn:Ep; [ | reflexivity ].
  apply H in Ep. congruence.
Qed.

Lemma sort_desc_sorted_id l :
  Forall comparable l -> StronglySorted ranks l -> sort_desc l = l.
Proof.
  intros Hl Hs. induction Hs as [ | a l Hs IH Ha]; simpl; [ reflexivity | ].
  inversion Hl; subst. rewrite IH by assumption.
  destruct l as [ | b l]; [ reflexivity | ]. simpl.
  inversion Ha; subst. unfold gt. now rewrite leb_not_ltb.
Qed.

(** Candidates of different names go into the dictionary one after the
    other. *)
Lemma fold_merge_distinct l :
  forall d,
    NoDup (map fst d ++ map key l) ->
    fold_left merge_step l d = d ++ map (fun a => (key a, a)) l.
Proof.
  induction l as [ | a l IH]; intros d Hnd; simpl.
  - now rewrite app_nil_r.
  - assert (Hnew : ~ In (key a) (map fst d)).
    { apply NoDup_remove_2 in Hnd. intros H. apply Hnd, in_or_app. now left. }
    assert (Hstep : merge_step d a = d ++ [(key a, a)]).
    { unfold merge_step. fold (key a).
      rewrite (proj2 (dict_get_None _ _) Hnew).
      clear - Hnew. induction d as [ | [k v] d IH]; simpl; [ reflexivity | ].
      simpl in Hnew.
      destruct (String.eqb_spec (key a) k) as [E | _];
        [ elim Hnew; left; congruence | ].
      f_equal. apply IH. tauto. }
    rewrite Hstep, IH.
    + rewrite <- app_assoc. reflexivity.
    + rewrite map_app. simpl. rewrite <- app_assoc. simpl.
      eapply Permutation_NoDup; [ | exact Hnd ].
      apply Permutation_app_head, Permutation_refl.
Qed.

End Thresholds.

(** X18.  A higher threshold only removes entries: as long as no candidate's
    confidence is a NaN, the list reconciled at a threshold is the list
    reconciled at any lower threshold, without the entries that do not
    reach the higher one, the others keeping their order. *)
Theorem reconcile_threshold_monotone (all_artists : list artist) (lower_threshold
    higher_threshold : float) :
  Forall comparable all_artists ->
  PrimFloat.leb lower_threshold higher_threshold = true ->
  reconcile all_artists higher_threshold =
  filter (fun a => ge (confidence a) higher_threshold)
         (reconcile all_artists lower_threshold).
Proof.
  intros Hall Hle. unfold reconcile.
  rewrite filter_sort_desc.
  - rewrite filter_filter_implied; [ reflexivity | ].
    intros x Hx. unfold ge in *. eapply leb_trans; eassumption.
  - apply Forall_forall. intros x Hx. apply filter_In in Hx. destruct Hx as [Hx _].
    apply fold_merge_values in Hx. destruct Hx as [Hx | []].
    rewrite Forall_forall in Hall. auto.
Qed.

Lemma reconcile_threshold_monotone_witness :
  reconcile [daft_punk_pattern; daft_punk_gemini] 0.9 =
  filter (fun a => ge (confidence a) 0.9)
         (reconcile [daft_punk_pattern; daft_punk_gemini] 0.5).
Proof.
  apply reconcile_threshold_monotone.
  - repeat constructor.
  - vm_compute. reflexivity.
Defined.

(** X19.  Reconciling is idempotent: as long as no candidate's confidence is a
    NaN, reconciling a reconciled list again, at the same threshold, gives
    the same list. *)
Theorem reconcile_idempotent (all_artists : list artist) (threshold : float) :
  Forall comparable all_artists ->
  reconcile (reconcile all_artists threshold) threshold =
  reconcile all_artists threshold.
Proof.
  intros Hall.
  assert (Hcmp : Forall comparable (reconcile all_artists threshold)).
  { apply Forall_forall. intros x Hx. apply reconcile_from_candidates in Hx.
    rewrite Forall_forall in Hall. auto. }
  assert (Hsorted : StronglySorted ranks (reconcile all_artists threshold)).
  { unfold reconcile. apply sort_desc_sorted.
    apply Forall_forall. intros x Hx. apply filter_In in Hx. destruct Hx as [Hx _].
    apply fold_merge_values in Hx. destruct Hx as [Hx | []].
    rewrite Forall_forall in Hall. auto. }
  assert (Hfloor : forall x, In x (reconcile all_artists threshold) ->
                             ge (confidence x) threshold = true).
  { intros x Hx. now apply reconcile_In in Hx. }
  set (kept := reconcile all_artists threshold) in *.
  unfold reconcile at 1. unfold merge.
  rewrite (fold_merge_distinct kept []) by apply reconcile_keys_NoDup.
  unfold values. cbn [app]. rewrite map_map. cbn [snd]. rewrite map_id.
  replace (filter _ kept) with kept.
  - now apply sort_desc_sorted_id.
  - clear - Hfloor. induction kept as [ | x l IH]; simpl; [ reflexivity | ].
    rewrite (Hfloor x (or_introl eq_refl)). f_equal.
    apply IH. intros y Hy. apply Hfloor. now right.
Qed.

Lemma reconcile_idempotent_witness :
  reconcile (reconcile [daft_punk_pattern; daft_punk_gemini] 0.5) 0.5 =
  reconcile [daft_punk_pattern; daft_punk_gemini] 0.5.
Proof.
  apply reconcile_idempotent. repeat constructor.
Defined.

(** X20.  [extract_artists] runs the pattern extractor on the cleaned text,
    which is a single line: the context of every entry tagged
    [pattern_matching] is therefore the whole cleaned text, not the line of
    the input the name stood in. *)
Theorem pattern_context_is_cleaned_text (env : collaborators)
    (self : Service.ArtistExtractionService) (text : string) (use_ai : bool)
    (threshold : float) :
  exists r,
    Service.extract_artists env self text use_ai threshold = Return r /\
    Forall (fun a => method a = "pattern_matching" -> context a = clean_text text)
           (Service.artists r).
Proof.
  destruct (extract_artists_steps env self text use_ai threshold)
    as (p & g & v & _ & _ & _ & Hp & Hg & Hv & _ & E).
  cbv zeta in E. eexists. split; [ exact E | ].
  cbn [Service.artists]. apply Forall_forall. intros a Ha Hm.
  apply reconcile_from_candidates, in_app_or in Ha.
  rewrite Forall_forall in Hp, Hg, Hv.
  destruct Ha as [Ha | Ha].
  - destruct (Hp _ Ha) as (_ & _ & _ & _ & _ & _ &
                           (line & _ & _ & Hline & -> & _) & _).
    rewrite split_on_absent in Hline.
    + destruct Hline as [<- | []]. unfold clean_text. apply strip_idempotent.
    + intros H. apply clean_text_whitespace in H; [ discriminate | reflexivity ].
  - destruct use_ai; [ | destruct Ha ].
    destruct (Service.is_empty g).
    + destruct (Hv _ Ha) as (_ & _ & _ & _ & Hv'). rewrite Hv' in Hm. discriminate.
    + destruct (Hg _ Ha) as (_ & _ & _ & _ & _ & _ & Hg'). rewrite Hg' in Hm.
      discriminate.
Qed.

(* ================================================================= *)
(** * Building a playlist *)

Section Batches.

Context {A : Type}.

Lemma firstn_plus n m (l : list A) :
  firstn (n + m) l = firstn n l ++ firstn m (skipn n l).
Proof.
  revert l. induction n as [ | n IH]; intros [ | x l]; simpl;
    [ reflexivity | reflexivity | now rewrite firstn_nil | now rewrite IH ].
Qed.

Lemma slice_length i j (l : list A) :
  List.length (Playlists.slice i j l) = Nat.min (j - i) (List.length l - i).
Proof. unfold Playlists.slice. now rewrite length_firstn, length_skipn. Qed.

(** Consecutive slices of one size make up one slice. *)
Lemma concat_slices size (l : list A) count :
  forall start,
    List.concat (map (fun i => Playlists.slice i (i + size) l)
                (Playlists.range_aux count start size)) =
    Playlists.slice start (start + count * size) l.
Proof.
  unfold Playlists.slice.
  induction count as [ | count IH]; intros start; simpl.
  - now replace (start + 0 - start) with 0 by lia.
  - rewrite IH.
    replace (start + size - start) with size by lia.
    replace (start + size + count * size - (start + size)) with (count * size) by lia.
    replace (start + (size + count * size) - start) with (size + count * size) by lia.
    rewrite firstn_plus, skipn_skipn. do 3 f_equal. lia.
Qed.

Lemma range_aux_In count start step i :
  In i (Playlists.range_aux count start step) <->
  exists j, j < count /\ i = start + j * step.
Proof.
  revert start. induction count as [ | count IH]; intros start; simpl.
  - split; [ tauto | intros (j & H & _); lia ].
  - rewrite IH. split.
    + intros [<- | (j & Hj & ->)]; [ exists 0; lia | exists (S j); lia ].
    + intros ([ | j] & Hj & ->); [ left; lia | right; exists j; lia ].
Qed.

Lemma range_aux_firstn k count start step :
  k <= count ->
  firstn k (Playlists.range_aux count start step) = Playlists.range_aux k start step.
Proof.
  revert count start. induction k as [ | k IH]; intros [ | count] start H; simpl;
    try reflexivity; try lia.
  f_equal. apply IH. lia.
Qed.

Lemma range_aux_removelast count start step :
  removelast (Playlists.range_aux (S count) start step) =
  Playlists.range_aux count start step.
Proof.
  revert start. induction count as [ | count IH]; intros start; [ reflexivity | ].
  change (Playlists.range_aux (S (S count)) start step)
    with (start :: Playlists.range_aux (S count) (start + step) step).
  cbn [removelast]. simpl Playlists.range_aux at 1.
  rewrite IH. reflexivity.
Qed.

Lemma removelast_map {B : Type} (f : A -> B) (l : list A) :
  removelast (map f l) = map f (removelast l).
Proof.
  induction l as [ | x [ | y l] IH]; try reflexivity.
  change (removelast (map f (x :: y :: l)))
    with (f x :: removelast (map f (y :: l))).
  now rewrite IH.
Qed.

Lemma range_aux_length count start step :
  List.length (Playlists.range_aux count start step) = count.
Proof. revert start. induction count; intros; simpl; auto. Qed.

End Batches.

Section Effects.

Import Playlists.

(** A loop of remote calls completes them one after the other, up to the
    first that raises. *)
Lemma for_act_calls {B : Type} (answer : B -> list event -> exc unit)
    (ev : B -> event) (l : list B) :
  forall log, exists k,
    snd (for_act (fun x => call (answer x) (ev x)) l log) =
      log ++ map ev (firstn k l) /\
    ((fst (for_act (fun x => call (answer x) (ev x)) l log) = Return tt /\
      k = List.length l) \/
     (exists e, fst (for_act (fun x => call (answer x) (ev x)) l log) = Raise e /\
                k < List.length l /\
                exists x log', nth_error l k = Some x /\ answer x log' = Raise e)).
Proof.
  induction l as [ | x l IH]; intros log.
  - exists 0. simpl. rewrite app_nil_r. auto.
  - cbn [for_act]. unfold bind_act, call at 1 3 5.
    destruct (answer x log) as [u | e] eqn:E.
    + destruct (IH (log ++ [ev x])) as (k & Hlog & Hres).
      exists (S k). cbn [firstn map List.length].
      split; [ rewrite Hlog, <- app_assoc; reflexivity | ].
      destruct Hres as [[-> ->] | (e & -> & Hk & y & log' & Hy & He)];
        [ left; auto | right ].
      exists e. split; [ reflexivity | ]. split; [ lia | ].
      exists y, log'. auto.
    + exists 0. cbn [firstn map snd fst List.length]. rewrite app_nil_r.
      split; [ reflexivity | right ].
      exists e. split; [ reflexivity | ]. split; [ lia | ].
      exists x, log. auto.
Qed.

(** The batches that [k] rounds of the loop of [add_tracks_to_playlist]
    have sent. *)
Lemma batches_sent (track_ids : list string) k :
  k <= (List.length track_ids - 0 + batch_size - 1) / batch_size ->
  let batches :=
    map (fun i => map track_uri (slice i (i + batch_size) track_ids))
        (range_aux k 0 batch_size) in
  map track_uri track_ids =
    List.concat batches ++ map track_uri (skipn (k * batch_size) track_ids) /\
  full_batches batches /\
  (k = (List.length track_ids - 0 + batch_size - 1) / batch_size ->
   skipn (k * batch_size) track_ids = []) /\
  (k < (List.length track_ids - 0 + batch_size - 1) / batch_size ->
   skipn (k * batch_size) track_ids <> []).
Proof.
  unfold batch_size.
  set (n := List.length track_ids).
  set (c := (n - 0 + 100 - 1) / 100).
  assert (Hc : 100 * c <= n + 99 < 100 * c + 100).
  { unfold c. replace (n - 0 + 100 - 1) with (n + 99) by lia.
    pose proof (Nat.div_mod_eq (n + 99) 100) as E.
    pose proof (Nat.mod_upper_bound (n + 99) 100). lia. }
  intros Hk.
  set (batches := map (fun i => map track_uri (slice i (i + 100) track_ids))
                      (range_aux k 0 100)).
  assert (Hmap : batches = map (map track_uri)
                   (map (fun i => slice i (i + 100) track_ids) (range_aux k 0 100))).
  { unfold batches. now rewrite map_map. }
  split; [ | split; [ split | split ] ].
  - rewrite Hmap, <- concat_map, concat_slices, <- map_app. f_equal.
    unfold slice. rewrite Nat.add_0_l, Nat.sub_0_r. cbn [skipn].
    symmetry. apply firstn_skipn.
  - apply Forall_forall. intros b Hb. unfold batches in Hb.
    apply in_map_iff in Hb. destruct Hb as (i & <- & Hi).
    apply range_aux_In in Hi. destruct Hi as (j & Hj & ->).
    rewrite length_map, slice_length. fold n. lia.
  - destruct k as [ | k]; [ constructor | ].
    unfold batches. rewrite removelast_map, range_aux_removelast.
    apply Forall_forall. intros b Hb.
    apply in_map_iff in Hb. destruct Hb as (i & <- & Hi).
    apply range_aux_In in Hi. destruct Hi as (j & Hj & ->).
    rewrite length_map, slice_length. fold n. lia.
  - intros ->. apply skipn_all2. fold n. lia.
  - intros Hlt H. apply skipn_all_iff in H. fold n in H. lia.
Qed.

Variable api : spotify_api.

(** [add_tracks_to_playlist] completes some rounds of its loop, and
    answers [True] when these are all the rounds. *)
Lemma add_tracks_rounds playlist_id track_ids access_token log :
  exists k,
    k <= (List.length track_ids - 0 + batch_size - 1) / batch_size /\
    add_tracks_to_playlist api playlist_id track_ids access_token log =
      (Return (k =? (List.length track_ids - 0 + batch_size - 1) / batch_size)%nat,
       log ++ additions access_token playlist_id
                (map (fun i => map track_uri (slice i (i + batch_size) track_ids))
                     (range_aux k 0 batch_size))) /\
    (k < (List.length track_ids - 0 + batch_size - 1) / batch_size ->
     exists log' uris e,
       playlist_add_items api log' access_token playlist_id uris = Raise e).
Proof.
  unfold add_tracks_to_playlist, try_act.
  destruct track_ids as [ | t ids] eqn:Eids.
  { exists 0. simpl. rewrite app_nil_r. split; [ lia | ]. split; [ reflexivity | ].
    unfold batch_size. simpl. lia. }
  rewrite <- Eids. unfold bind_act, range.
  set (count := (List.length track_ids - 0 + batch_size - 1) / batch_size).
  destruct (for_act_calls
              (fun i log => playlist_add_items api log access_token playlist_id
                              (map track_uri (slice i (i + batch_size) track_ids)))
              (fun i => ItemsAdded access_token playlist_id
                          (map track_uri (slice i (i + batch_size) track_ids)))
              (range_aux count 0 batch_size) log) as (k & Hlog & Hres).
  change (for_act _ (range_aux count 0 batch_size) log)
    with (for_act (add_batch api playlist_id track_ids access_token)
                  (range_aux count 0 batch_size) log) in *.
  rewrite range_aux_length in Hres.
  assert (Hk : k <= count) by (destruct Hres as [[_ ->] | (_ & _ & H & _)]; lia).
  rewrite (range_aux_firstn k count) in Hlog by exact Hk.
  exists k. split; [ exact Hk | ].
  unfold additions. rewrite map_map.
  destruct (for_act _ _ log) as [r log'].
  cbn [fst snd] in *. subst log'.
  destruct Hres as [[-> ->] | (e & -> & Hlt & x & log' & _ & He)].
  - rewrite Nat.eqb_refl. split; [ reflexivity | lia ].
  - replace (k =? count)%nat with false by (symmetry; apply Nat.eqb_neq; lia).
    split; [ reflexivity | ]. intros _. eauto.
Qed.

End Effects.

Section TopTracks.

Import Playlists.

Variable api : spotify_api.

Lemma describe_all tracks :
  match for_each describe_track tracks with
  | Return described =>
      Forall (fun t => raw_artists t <> []) tracks /\
      map track_id described = map raw_id tracks /\
      List.length described = List.length tracks
  | Raise _ => Exists (fun t => raw_artists t = []) tracks
  end.
Proof.
  induction tracks as [ | t tracks IH]; cbn [for_each].
  - repeat split. constructor.
  - unfold describe_track at 1.
    destruct (raw_artists t) as [ | a others] eqn:E; cbn [bind].
    + now constructor.
    + destruct (for_each describe_track tracks) as [described | e]; cbn [bind].
      * destruct IH as (Hall & Hid & Hlen). cbn [app map List.length track_id].
        split; [ constructor; [ congruence | exact Hall ] | ].
        split; congruence.
      * now apply Exists_cons_tl.
Qed.

Lemma slice_to_length {A : Type} (limit : Z) (l : list A) :
  (0 <= limit)%Z -> List.length (slice_to limit l) <= Z.to_nat limit.
Proof.
  intros H. unfold slice_to.
  destruct (Z.ltb_spec limit 0); [ lia | apply firstn_le_length ].
Qed.

Lemma top_tracks_total self artist_id limit :
  exists tracks,
    get_artist_top_tracks api self artist_id limit = Return tracks /\
    ((0 <= limit)%Z -> List.length tracks <= Z.to_nat limit).
Proof.
  unfold get_artist_top_tracks.
  destruct (negb _); [ exists []; simpl; split; [ reflexivity | lia ] | ].
  destruct (artist_top_tracks api artist_id) as [results | e]; cbn [bind try_except];
    [ | exists []; simpl; split; [ reflexivity | lia ] ].
  pose proof (describe_all (slice_to limit results)) as H.
  destruct (for_each describe_track _) as [described | e]; cbn [try_except].
  - exists described. split; [ reflexivity | ]. intros Hl.
    destruct H as (_ & _ & ->). now apply slice_to_length.
  - exists []. simpl. split; [ reflexivity | lia ].
Qed.

End TopTracks.

(** X21.  [get_artist_top_tracks] never raises.  It gives no track without
    credentials and when the service raises; it gives at most [limit]
    tracks, those the service lists first, in the same order; and a single
    track without an artist among these leaves it with none at all. *)
Theorem top_tracks_within_limit (api : spotify_api) (self : Spotify.SpotifyService)
    (artist_id : string) (limit : Z) :
  exists tracks,
    Playlists.get_artist_top_tracks api self artist_id limit = Return tracks /\
    ((0 <= limit)%Z -> (Z.of_nat (List.length tracks) <= limit)%Z) /\
    (Spotify.is_configured self = false -> tracks = []) /\
    (forall e, artist_top_tracks api artist_id = Raise e -> tracks = []) /\
    (forall results,
        Spotify.is_configured self = true ->
        artist_top_tracks api artist_id = Return results ->
        (Forall (fun t => raw_artists t <> []) (Playlists.slice_to limit results) ->
         map Playlists.track_id tracks = map raw_id (Playlists.slice_to limit results)) /\
        (Exists (fun t => raw_artists t = []) (Playlists.slice_to limit results) ->
         tracks = [])).
Proof.
  destruct (top_tracks_total api self artist_id limit) as (tracks & E & Hlen).
  exists tracks. split; [ exact E | ].
  split; [ intros H; specialize (Hlen H); lia | ].
  unfold Playlists.get_artist_top_tracks in E.
  split; [ intros H; rewrite H in E; simpl in E; congruence | ].
  split; [ intros e H; destruct (negb _); rewrite ?H in E; simpl in E; congruence | ].
  intros results Hc Hr. rewrite Hc, Hr in E. cbn [negb bind] in E.
  pose proof (describe_all (Playlists.slice_to limit results)) as H.
  destruct (for_each Playlists.describe_track _) as [described | e];
    cbn [try_except] in E; injection E as <-.
  - destruct H as (Hall & Hid & _). split; [ auto | ].
    intros Hex. apply Exists_exists in Hex. destruct Hex as (t & Ht & Hno).
    rewrite Forall_forall in Hall. now elim (Hall t Ht).
  - split; [ | reflexivity ].
    intros Hall. apply Exists_exists in H. destruct H as (t & Ht & Hno).
    rewrite Forall_forall in Hall. now elim (Hall t Ht).
Qed.

(** X22.  [add_tracks_to_playlist] never raises.  It sends the track URIs in the
    order of the list, in batches of 100, the last one shorter when the
    count is no multiple of 100 and none at all for an empty list; it
    answers [True] exactly when every batch was added, and [False] only
    when a call has raised, the batches added before that call staying
    added. *)
Theorem add_tracks_in_batches (api : spotify_api) (playlist_id : string)
    (track_ids : list string) (access_token : string) (log : list event) :
  exists added batches rest,
    Playlists.add_tracks_to_playlist api playlist_id track_ids access_token log =
      (Return added, log ++ additions access_token playlist_id batches) /\
    map Playlists.track_uri track_ids = List.concat batches ++ rest /\
    full_batches batches /\
    (added = true <-> rest = []) /\
    (added = false ->
     exists log' uris e,
       playlist_add_items api log' access_token playlist_id uris = Raise e).
Proof.
  destruct (add_tracks_rounds api playlist_id track_ids access_token log)
    as (k & Hk & E & Hraise).
  destruct (batches_sent track_ids k Hk) as (Hall & Hfull & Hdone & Hleft).
  eexists _, _, _. split; [ exact E | ].
  split; [ exact Hall | ]. split; [ exact Hfull | ].
  destruct (Nat.eqb_spec k
              ((List.length track_ids - 0 + Playlists.batch_size - 1)
               / Playlists.batch_size)) as [Ek | Ek].
  - rewrite (Hdone Ek). repeat split. discriminate.
  - assert (Hlt : k < (List.length track_ids - 0 + Playlists.batch_size - 1)
                      / Playlists.batch_size) by lia.
    split; [ split; [ discriminate | ] | auto ].
    intros H. apply map_eq_nil in H. now elim (Hleft Hlt).
Qed.

Section Creation.

Import Playlists.

Variable api : spotify_api.

(** The playlist [create_playlist] describes from the service's answer. *)
Lemma create_playlist_cases user_id name description public
    access_token log :
  (create_playlist api user_id name description public access_token log =
     (Return None, log) /\
   (access_token = None \/ access_token = Some "" \/
    exists token e,
      access_token = Some token /\
      user_playlist_create api log token user_id name public description
      = Raise e)) \/
  (exists token created info,
      access_token = Some token /\ token <> "" /\
      user_playlist_create api log token user_id name public description
      = Return created /\
      create_playlist api user_id name description public access_token log =
        (Return (Some info),
         log ++ [PlaylistCreated token user_id name public description]) /\
      Playlists.playlist_id info = created_id created /\
      Playlists.playlist_name info = created_name created).
Proof.
  unfold create_playlist, try_act, bind_act, call, ret.
  destruct access_token as [[ | c token] | ]; auto.
  destruct (user_playlist_create api log (String c token) user_id name
              public description) as [created | e] eqn:E.
  - right. eexists _, created, _. split; [ reflexivity | ].
    split; [ discriminate | ]. split; [ exact E | ].
    split; [ | split ]; reflexivity.
  - left. split; [ reflexivity | ]. right. right. eauto.
Qed.

End Creation.

Section Process.

Import Playlists.

Variable env : collaborators.
Variable api : spotify_api.
Variable self : Spotify.SpotifyService.
Variable tracks_per_artist : Z.

Lemma search_artist_total artist_name :
  exists r, Spotify.search_artist env self artist_name = Return r.
Proof.
  unfold Spotify.search_artist.
  destruct (negb _); [ eauto | ].
  destruct (sp_search env _) as [[ | a hits] | e]; cbn [bind try_except]; eauto.
  destruct (sp_search env _) as [hits | e]; cbn [bind try_except]; eauto.
Qed.

Lemma finds_tracks_for artist_name :
  finds_tracks env api self tracks_per_artist artist_name = false <->
  tracks_for env api self tracks_per_artist artist_name = [].
Proof.
  unfold finds_tracks, tracks_for.
  destruct (Spotify.search_artist env self artist_name) as [[found | ] | e];
    try tauto.
  destruct (get_artist_top_tracks api self (entry_id found) tracks_per_artist)
    as [[ | t ts] | e]; try tauto.
  split; discriminate.
Qed.

Lemma tracks_for_length artist_name :
  (0 <= tracks_per_artist)%Z ->
  List.length (tracks_for env api self tracks_per_artist artist_name)
  <= Z.to_nat tracks_per_artist.
Proof.
  intros H. unfold tracks_for.
  destruct (Spotify.search_artist env self artist_name) as [[found | ] | e];
    simpl; try lia.
  destruct (top_tracks_total api self (entry_id found) tracks_per_artist)
    as (ts & -> & Hlen). auto.
Qed.

(** What the loop over the artist names leaves in its three lists. *)
Lemma visit_all_tally artist_names :
  forall seen,
    visit_all env api self tracks_per_artist seen artist_names =
    Return {| successful :=
                successful seen
                ++ filter (finds_tracks env api self tracks_per_artist) artist_names;
              failed :=
                failed seen
                ++ filter (fun n => negb (finds_tracks env api self tracks_per_artist n))
                          artist_names;
              all_tracks :=
                all_tracks seen
                ++ flat_map (tracks_for env api self tracks_per_artist) artist_names |}.
Proof.
  induction artist_names as [ | n names IH]; intros seen; cbn [visit_all].
  - simpl. rewrite !app_nil_r. now destruct seen.
  - assert (Hv : visit env api self tracks_per_artist seen n =
                 Return (if finds_tracks env api self tracks_per_artist n
                         then {| successful := successful seen ++ [n];
                                 failed := failed seen;
                                 all_tracks :=
                                   all_tracks seen
                                   ++ tracks_for env api self tracks_per_artist n |}
                         else {| successful := successful seen;
                                 failed := failed seen ++ [n];
                                 all_tracks := all_tracks seen |})).
    { unfold visit, finds_tracks, tracks_for.
      destruct (search_artist_total n) as ([found | ] & ->); cbn [bind];
        [ | reflexivity ].
      destruct (top_tracks_total api self (entry_id found) tracks_per_artist)
        as ([ | t ts] & -> & _); reflexivity. }
    rewrite Hv. cbn [bind filter flat_map]. rewrite IH.
    destruct (finds_tracks env api self tracks_per_artist n) eqn:E;
      cbn [successful failed all_tracks negb].
    + rewrite <- !app_assoc. reflexivity.
    + apply finds_tracks_for in E. rewrite E, <- !app_assoc. reflexivity.
Qed.

Lemma filter_partition {A : Type} (p : A -> bool) (l : list A) :
  Permutation (filter p l ++ filter (fun x => negb (p x)) l) l.
Proof.
  induction l as [ | x l IH]; simpl; [ constructor | ].
  destruct (p x); simpl.
  - now constructor.
  - rewrite <- Permutation_middle. now constructor.
Qed.

(** The tracks collected are those of the artists that have some. *)
Lemma flat_map_found artist_names :
  flat_map (tracks_for env api self tracks_per_artist) artist_names =
  flat_map (tracks_for env api self tracks_per_artist)
           (filter (finds_tracks env api self tracks_per_artist) artist_names).
Proof.
  induction artist_names as [ | n names IH]; simpl; [ reflexivity | ].
  destruct (finds_tracks env api self tracks_per_artist n) eqn:E; simpl.
  - now rewrite IH.
  - apply finds_tracks_for in E. now rewrite E.
Qed.

Lemma flat_map_bounds artist_names :
  Forall (fun n => finds_tracks env api self tracks_per_artist n = true) artist_names ->
  List.length artist_names
  <= List.length (flat_map (tracks_for env api self tracks_per_artist) artist_names) /\
  ((0 <= tracks_per_artist)%Z ->
   List.length (flat_map (tracks_for env api self tracks_per_artist) artist_names)
   <= Z.to_nat tracks_per_artist * List.length artist_names).
Proof.
  induction 1 as [ | n names Hn _ IH]; simpl; [ lia | ].
  rewrite length_app.
  assert (1 <= List.length (tracks_for env api self tracks_per_artist n)).
  { destruct (tracks_for env api self tracks_per_artist n) eqn:E; simpl; [ | lia ].
    apply finds_tracks_for in E. congruence. }
  split; [ lia | ]. intros Hl.
  pose proof (tracks_for_length n Hl). destruct IH as [_ IH]. specialize (IH Hl). lia.
Qed.

(** The four ways [process_artists_to_playlist] ends. *)
Lemma process_outcome artist_names playlist_name user_id access_token
    playlist_description log :
  let found := filter (finds_tracks env api self tracks_per_artist) artist_names in
  let missed :=
    filter (fun n => negb (finds_tracks env api self tracks_per_artist n))
           artist_names in
  let collected := flat_map (tracks_for env api self tracks_per_artist) artist_names in
  let description :=
    if no_description playlist_description
    then Some ("Festival playlist with " ++ str_of_nat (List.length found)
               ++ " artists")%string
    else playlist_description in
  exists o log',
    process_artists_to_playlist env api self artist_names playlist_name user_id
      access_token tracks_per_artist playlist_description log = (Return o, log') /\
    successful_artists o = found /\ failed_artists o = missed /\
    ((collected = [] /\ log' = log /\
      success o = false /\ error o = Some "No tracks found for any artists" /\
      playlist o = None /\ total_tracks o = 0 /\ tracks o = None) \/
     (collected <> [] /\ log' = log /\
      success o = false /\ error o = Some "Failed to create playlist" /\
      playlist o = None /\ total_tracks o = List.length collected /\
      tracks o = None) \/
     (collected <> [] /\
      exists info batches rest,
        log' = log ++ PlaylistCreated access_token user_id playlist_name true
                        description
                   :: additions access_token (playlist_id info) batches /\
        map track_uri (map track_id collected) = List.concat batches ++ rest /\
        full_batches batches /\
        playlist o = Some info /\ total_tracks o = List.length collected /\
        ((rest <> [] /\ success o = false /\
          error o = Some "Failed to add tracks to playlist" /\ tracks o = None) \/
         (rest = [] /\ success o = true /\ error o = None /\
          tracks o = Some collected)))).
Proof.
  intros found missed collected description.
  unfold process_artists_to_playlist, try_act.
  unfold bind_act at 1, lift. rewrite visit_all_tally.
  cbn [successful failed all_tracks app].
  fold found missed collected description.
  clearbody description collected missed found.
  destruct collected as [ | t ts] eqn:Ec.
  { eexists _, _. split; [ reflexivity | ]. cbn.
    split; [ reflexivity | ]. split; [ reflexivity | ]. left. repeat split. }
  rewrite <- Ec.
  assert (Hne : collected <> []) by (rewrite Ec; discriminate).
  clear t ts Ec.
  unfold bind_act at 1.
  destruct (create_playlist_cases api user_id playlist_name description true
              (Some access_token) log)
    as [[-> _] | (token & created & info & [= <-] & _ & _ & -> & _)].
  { eexists _, _. split; [ reflexivity | ]. cbn.
    split; [ reflexivity | ]. split; [ reflexivity | ].
    right. left. repeat split; auto. }
  unfold bind_act.
  destruct (add_tracks_rounds api (playlist_id info) (map track_id collected)
              access_token
              (log ++ [PlaylistCreated access_token user_id playlist_name true
                         description]))
    as (k & Hk & -> & _).
  destruct (batches_sent (map track_id collected) k Hk)
    as (Hall & Hfull & Hdone & Hleft).
  rewrite <- app_assoc. cbn [app].
  destruct (Nat.eqb_spec k
              ((List.length (map track_id collected) - 0 + batch_size - 1)
               / batch_size)) as [Ek | Ek]; cbn [negb].
  - eexists _, _. split; [ reflexivity | ]. cbn.
    split; [ reflexivity | ]. split; [ reflexivity | ].
    right. right. split; [ exact Hne | ].
    eexists info, _, _. split; [ reflexivity | ].
    split; [ exact Hall | ]. split; [ exact Hfull | ].
    split; [ reflexivity | ]. split; [ reflexivity | ].
    right. rewrite (Hdone Ek). auto.
  - eexists _, _. split; [ reflexivity | ]. cbn.
    split; [ reflexivity | ]. split; [ reflexivity | ].
    right. right. split; [ exact Hne | ].
    eexists info, _, _. split; [ reflexivity | ].
    split; [ exact Hall | ]. split; [ exact Hfull | ].
    split; [ reflexivity | ]. split; [ reflexivity | ].
    left. split; [ | auto ].
    intros H. apply map_eq_nil in H. apply Hleft in H; [ exact H | lia ].
Qed.

End Process.

(** X23.  [create_playlist] never raises.  Without an access token it answers
    [None] and calls nothing; it also answers [None], with nothing
    created, when the call raises; otherwise, when the call returns,
    exactly one playlist has been created, for the given user and under
    the given name, and the answer is the description made of what the
    service returned, with its identifier and name.  So an answer other
    than [None] comes only from a call that returned. *)
Theorem create_playlist_needs_token (api : spotify_api) (user_id name : string)
    (description : option string) (public : bool) (access_token : option string)
    (log : list event) :
  exists r log',
    Playlists.create_playlist api user_id name description public access_token log =
      (Return r, log') /\
    (access_token = None \/ access_token = Some "" -> r = None) /\
    (forall token e,
       access_token = Some token ->
       user_playlist_create api log token user_id name public description = Raise e ->
       r = None) /\
    (forall token created,
       access_token = Some token -> token <> "" ->
       user_playlist_create api log token user_id name public description =
         Return created ->
       r = Some {| Playlists.playlist_id := created_id created;
                   Playlists.playlist_name := created_name created;
                   Playlists.playlist_description :=
                     Playlists.get_or (created_description created) "";
                   Playlists.playlist_public :=
                     Playlists.get_or (created_public created) false;
                   Playlists.playlist_external_urls :=
                     Playlists.get_or (created_external_urls created) [];
                   Playlists.tracks_total := created_tracks_total created |} /\
       log' = log ++ [PlaylistCreated token user_id name public description]) /\
    (r = None -> log' = log) /\
    (forall info, r = Some info ->
       exists token created,
         access_token = Some token /\ token <> "" /\
         user_playlist_create api log token user_id name public description =
           Return created /\
         Playlists.playlist_id info = created_id created /\
         log' = log ++ [PlaylistCreated token user_id name public description]).
Proof.
  unfold Playlists.create_playlist, Playlists.try_act, Playlists.bind_act,
    Playlists.call, Playlists.ret.
  destruct access_token as [[ | c token] | ].
  - exists None, log. split; [ reflexivity | ].
    split; [ reflexivity | ]. split; [ reflexivity | ].
    split; [ intros t cr [= <-] Hne; now elim Hne | ].
    split; [ reflexivity | discriminate ].
  - destruct (user_playlist_create api log (String c token) user_id name
                public description) as [created | e] eqn:E.
    + eexists (Some _), _. split; [ reflexivity | ].
      split; [ intros [H | H]; discriminate | ].
      split; [ intros t e [= <-] H; congruence | ].
      split; [ intros t cr [= <-] _ H; rewrite E in H; injection H as <-; auto | ].
      split; [ discriminate | ].
      intros info [= <-]. exists (String c token), created.
      repeat split; auto. discriminate.
    + exists None, log. split; [ reflexivity | ].
      split; [ reflexivity | ]. split; [ reflexivity | ].
      split; [ intros t cr [= <-] _ H; congruence | ].
      split; [ reflexivity | discriminate ].
  - exists None, log. split; [ reflexivity | ].
    split; [ reflexivity | ]. split; [ reflexivity | ].
    split; [ discriminate | ].
    split; [ reflexivity | discriminate ].
Qed.

(** X24.  [process_artists_to_playlist] never raises, and it sorts every artist
    name into one of its two lists: [successful_artists] holds, in their
    order, the names for which the catalog search finds an entry with at
    least one top track, and [failed_artists] all the others. *)
Theorem playlist_artists_partition (env : collaborators) (api : spotify_api)
    (self : Spotify.SpotifyService) (artist_names : list string)
    (playlist_name user_id access_token : string) (tracks_per_artist : Z)
    (playlist_description : option string) (log : list event) :
  exists o log',
    Playlists.process_artists_to_playlist env api self artist_names playlist_name
      user_id access_token tracks_per_artist playlist_description log
    = (Return o, log') /\
    Playlists.successful_artists o =
      filter (finds_tracks env api self tracks_per_artist) artist_names /\
    Playlists.failed_artists o =
      filter (fun n => negb (finds_tracks env api self tracks_per_artist n))
             artist_names /\
    Permutation (Playlists.successful_artists o ++ Playlists.failed_artists o)
                artist_names /\
    List.length (Playlists.successful_artists o)
    + List.length (Playlists.failed_artists o) = List.length artist_names.
Proof.
  destruct (process_outcome env api self tracks_per_artist artist_names playlist_name
              user_id access_token playlist_description log)
    as (o & log' & E & Hs & Hf & _).
  exists o, log'. split; [ exact E | ]. split; [ exact Hs | ]. split; [ exact Hf | ].
  rewrite Hs, Hf.
  split; [ apply filter_partition | ].
  rewrite <- length_app. apply Permutation_length, filter_partition.
Qed.

(** X25.  The tracks [process_artists_to_playlist] counts are the top tracks of
    the successful artists, in the order of the artists: at least one for
    each of them, and at most [tracks_per_artist] for each when that
    number is not negative.  A successful result lists exactly these
    tracks; a result without any track reports a count of 0. *)
Theorem playlist_track_count (env : collaborators) (api : spotify_api)
    (self : Spotify.SpotifyService) (artist_names : list string)
    (playlist_name user_id access_token : string) (tracks_per_artist : Z)
    (playlist_description : option string) (log : list event) :
  exists o log',
    Playlists.process_artists_to_playlist env api self artist_names playlist_name
      user_id access_token tracks_per_artist playlist_description log
    = (Return o, log') /\
    Playlists.total_tracks o =
      List.length (flat_map (tracks_for env api self tracks_per_artist)
                            (Playlists.successful_artists o)) /\
    List.length (Playlists.successful_artists o) <= Playlists.total_tracks o /\
    ((0 <= tracks_per_artist)%Z ->
     Playlists.total_tracks o
     <= Z.to_nat tracks_per_artist * List.length (Playlists.successful_artists o)) /\
    (Playlists.success o = true ->
     Playlists.tracks o =
       Some (flat_map (tracks_for env api self tracks_per_artist)
                      (Playlists.successful_artists o)) /\
     0 < Playlists.total_tracks o) /\
    (Playlists.total_tracks o = 0 ->
     Playlists.success o = false /\
     Playlists.error o = Some "No tracks found for any artists").
Proof.
  destruct (process_outcome env api self tracks_per_artist artist_names playlist_name
              user_id access_token playlist_description log)
    as (o & log' & E & Hs & _ & H).
  exists o, log'. split; [ exact E | ].
  rewrite Hs, <- flat_map_found.
  assert (Hb := flat_map_bounds env api self tracks_per_artist
                  (filter (finds_tracks env api self tracks_per_artist) artist_names)).
  rewrite <- flat_map_found in Hb.
  destruct Hb as [Hlo Hhi].
  { apply Forall_forall. intros n Hn. now apply filter_In in Hn. }
  set (collected := flat_map (tracks_for env api self tracks_per_artist) artist_names)
    in *.
  assert (Hpos : collected <> [] -> 0 < List.length collected).
  { destruct collected; simpl; [ congruence | lia ]. }
  assert (Ht : Playlists.total_tracks o = List.length collected).
  { destruct H as [(-> & _ & _ & _ & _ & -> & _)
                  | [(_ & _ & _ & _ & _ & -> & _)
                    | (_ & info & batches & rest & _ & _ & _ & _ & -> & _)]];
      reflexivity. }
  rewrite Ht. split; [ reflexivity | ]. split; [ exact Hlo | ].
  split; [ exact Hhi | ].
  destruct H as [(Hc & _ & Hsucc & Herr & _)
                | [(Hc & _ & Hsucc & Herr & _)
                  | (Hc & info & batches & rest & _ & _ & _ & _ & _ &
                     [(_ & Hsucc & Herr & _) | (_ & Hsucc & _ & Htr)])]].
  - split; [ congruence | auto ].
  - split; [ congruence | ]. intros H0. specialize (Hpos Hc). lia.
  - split; [ congruence | ]. intros H0. specialize (Hpos Hc). lia.
  - split; [ auto | ]. intros H0. specialize (Hpos Hc). lia.
Qed.

(** X26.  What [process_artists_to_playlist] changes at the remote service.  When
    it reports success, it has created one playlist, public, for the given
    user and under the given name, and has then added to it, in order and
    in batches of at most 100, the URIs of all the tracks it lists.  When
    it reports a failure without a playlist, for want of tracks or because
    the creation failed, it has changed nothing.  When it reports a failure
    with a playlist, that playlist exists and holds the batches added
    before the failing call, a proper part of the tracks. *)
Theorem playlist_remote_effects (env : collaborators) (api : spotify_api)
    (self : Spotify.SpotifyService) (artist_names : list string)
    (playlist_name user_id access_token : string) (tracks_per_artist : Z)
    (playlist_description : option string) (log : list event) :
  exists o log',
    Playlists.process_artists_to_playlist env api self artist_names playlist_name
      user_id access_token tracks_per_artist playlist_description log
    = (Return o, log') /\
    (Playlists.playlist o = None -> Playlists.success o = false /\ log' = log) /\
    (forall info, Playlists.playlist o = Some info ->
       exists description batches rest,
         log' = log ++ PlaylistCreated access_token user_id playlist_name true
                         description
                    :: additions access_token (Playlists.playlist_id info) batches /\
         (Playlists.no_description playlist_description = false ->
          description = playlist_description) /\
         full_batches batches /\
         map Playlists.track_uri
             (map Playlists.track_id
                  (flat_map (tracks_for env api self tracks_per_artist) artist_names))
         = List.concat batches ++ rest /\
         (Playlists.success o = true <-> rest = []) /\
         (Playlists.success o = true ->
          Playlists.tracks o =
            Some (flat_map (tracks_for env api self tracks_per_artist) artist_names)) /\
         (Playlists.success o = false ->
          Playlists.error o = Some "Failed to add tracks to playlist")).
Proof.
  destruct (process_outcome env api self tracks_per_artist artist_names playlist_name
              user_id access_token playlist_description log)
    as (o & log' & E & _ & _ & H).
  exists o, log'. split; [ exact E | ].
  destruct H as [(_ & -> & Hsucc & _ & Hp & _)
                | [(_ & -> & Hsucc & _ & Hp & _)
                  | (_ & info & batches & rest & -> & Hall & Hfull & Hp & _ & H)]].
  - split; [ auto | ]. intros info Hi. congruence.
  - split; [ auto | ]. intros info Hi. congruence.
  - split; [ congruence | ]. intros info' Hi.
    assert (info' = info) by congruence. subst info'.
    eexists _, batches, rest. split; [ reflexivity | ].
    split; [ intros ->; reflexivity | ].
    split; [ exact Hfull | ]. split; [ exact Hall | ].
    destruct H as [(Hr & Hsucc & Herr & _) | (Hr & Hsucc & _ & Htr)].
    + split; [ split; [ congruence | intros; now elim Hr ] | ].
      split; [ congruence | auto ].
    + split; [ split; auto | ]. split; [ auto | congruence ].
Qed.
